(** * Media upload service: admission queue, worker pool and upload sessions

    A shallow embedding of the Go sources of the upload server
    ([internal/server]: the worker pool; [cmd/server]: the gRPC and HTTP
    handlers) together with the properties of its specification.

    Layout: every definition of the embedding comes first, grouped by the
    Go package it models; the lemmas and theorems follow. *)

From Stdlib Require Import ZArith Lia String Ascii List Bool.
From Stdlib Require Import Strings.Byte.
From Stdlib Require Import Sorting.Mergesort Orders Permutation Sorted.
From stdpp Require Import gmap strings list fin_maps.

Open Scope Z_scope.

(* ===================================================================== *)
(** * Part I: the embedding                                               *)
(* ===================================================================== *)

(** ** The Go runtime: panics and buffered channels *)

(** The run-time panics that the modelled code can raise. *)
Inductive panic :=
  | SendOnClosedChannel     (* "send on closed channel" *)
  | CloseOfClosedChannel    (* "close of closed channel" *)
  | NilDereference          (* "invalid memory address or nil pointer dereference" *)
  | MakechanSizeOutOfRange. (* "makechan: size out of range" *)

(** A Go call either returns a value or panics. *)
Inductive result (A : Type) :=
  | Ok (a : A)
  | Panic (p : panic).
Arguments Ok {A} a.
Arguments Panic {A} p.

(** [type Job struct { Filename string; VideoID string }] *)
Record Job := mkJob { Filename : string; VideoID : string }.

(** A buffered channel [chan Job]: the buffered elements (head = next to be
    received), the capacity fixed by [make], and the closed flag.

    A receiver parked on an empty channel is modelled as a receiver that has
    not taken its step yet: the runtime's direct hand-off of a sent value to a
    parked receiver is the send step followed by that receiver's receive
    step.  The two are the same for a capacity of at least one; an unbuffered
    channel (capacity 0) can only be sent to by hand-off, which is why the
    statements below ask for a capacity of at least one. *)
Record chan := mkChan { buf : list Job; cap : Z; closed : bool }.

(** The constants of [runtime.makechan] on the 64-bit Linux targets of the
    server, for the Go release the README asks for (1.25): the size of the
    address space of the heap, of the channel header [hchan] and of a [Job]
    (two string headers). *)
Definition maxAlloc : Z := 2 ^ 48.
Definition hchanSize : Z := 112.
Definition Job_Size : Z := 32.

(** [make(chan Job, q)], that is [runtime.makechan]:
    [if overflow || mem > maxAlloc-hchanSize || size < 0 { panic(...) }]
    with [mem = elem.Size_ * size].  Within that limit the allocation itself
    fails when the machine has not the memory, and the runtime then ends the
    process with a fatal error; this depends on the machine and is not
    modelled: the statements about a pool take its construction as
    returned. *)
Definition chan_make (q : Z) : result chan :=
  if (q <? 0) || (maxAlloc - hchanSize <? Job_Size * q)
  then Panic MakechanSizeOutOfRange
  else Ok {| buf := []; cap := q; closed := false |}.

(** Outcome of a non-blocking send, [select { case ch <- v: ... default: ... }]. *)
Inductive send_result :=
  | Sent (ch : chan)     (* the send case was taken *)
  | WouldBlock           (* the default case was taken *)
  | SendPanics.          (* the channel is closed *)

(** [runtime.chansend] with [block = false], on a channel no receiver is
    parked on: a send on a closed channel panics, also inside a [select];
    otherwise the value is buffered when there is room, and the default case
    is taken when there is none.  The send that finds a receiver parked on
    the empty channel and hands the value over is a step of its own in the
    interleaving model ([step_AddJob_handoff]); at a capacity of at least one
    it is this send followed by the receive, at capacity 0 it is the only
    send that succeeds, which this function does not show: the statements
    about [AddJob] returning false ask for a capacity of at least one. *)
Definition chan_try_send (v : Job) (ch : chan) : send_result :=
  if closed ch then SendPanics
  else if Z.of_nat (length (buf ch)) <? cap ch
       then Sent {| buf := buf ch ++ [v]; cap := cap ch; closed := closed ch |}
       else WouldBlock.

(** Outcome of one attempt of [for job := range ch]. *)
Inductive recv_result :=
  | Received (v : Job) (ch : chan)  (* the loop body runs on [v] *)
  | RecvBlocks                      (* empty and open: the receiver waits *)
  | RecvClosed.                     (* closed and drained: the loop ends *)

Definition chan_recv (ch : chan) : recv_result :=
  match buf ch with
  | v :: rest => Received v {| buf := rest; cap := cap ch; closed := closed ch |}
  | [] => if closed ch then RecvClosed else RecvBlocks
  end.

(** [close(ch)] *)
Definition chan_close (ch : chan) : result chan :=
  if closed ch then Panic CloseOfClosedChannel
  else Ok {| buf := buf ch; cap := cap ch; closed := true |}.

(** [type WorkerPool struct { JobQueue chan Job; WorkerCount int; wg sync.WaitGroup }];
    [wg] is the counter of the wait group. *)
Record WorkerPool := mkWorkerPool { JobQueue : chan; WorkerCount : Z; wg : Z }.

Definition set_JobQueue (ch : chan) (wp : WorkerPool) : WorkerPool :=
  {| JobQueue := ch; WorkerCount := WorkerCount wp; wg := wg wp |}.

Definition set_wg (n : Z) (wp : WorkerPool) : WorkerPool :=
  {| JobQueue := JobQueue wp; WorkerCount := WorkerCount wp; wg := n |}.

(** ** Package [path/filepath] (Unix): [Base], [Clean], [Join]

    Go strings are byte strings; the functions below work on the list of
    characters of a path and are wrapped for [string] at the end. *)

Module filepath.

(** [os.IsPathSeparator] on Unix: ['/'] only. *)
Definition is_sep (c : ascii) : bool := Ascii.eqb c "/"%char.

Fixpoint drop_while (p : ascii -> bool) (l : list ascii) : list ascii :=
  match l with
  | [] => []
  | c :: rest => if p c then drop_while p rest else l
  end.

Fixpoint take_while (p : ascii -> bool) (l : list ascii) : list ascii :=
  match l with
  | [] => []
  | c :: rest => if p c then c :: take_while p rest else []
  end.

Definition not_sep (c : ascii) : bool := negb (is_sep c).

(** [func Base(path string) string].  The two loops of the source run from
    the end of the path, so they are taken on the reversed path:
    - [if path == "" { return "." }];
    - strip trailing slashes: [for len(path) > 0 && IsPathSeparator(path[len(path)-1])];
    - find the last element: [i := len(path)-1; for i >= 0 && !IsPathSeparator(path[i]) { i-- }],
      then [path = path[i+1:]];
    - [if path == "" { return "/" }] (the path had only slashes). *)
Definition Base_chars (path : list ascii) : list ascii :=
  match path with
  | [] => ["."%char]
  | _ =>
      let stripped := drop_while is_sep (rev path) in
      let last := take_while not_sep stripped in
      match last with
      | [] => ["/"%char]
      | _ => rev last
      end
  end.

(** The backtracking of [Clean] on a [..] element:
    [out.w--; for out.w > dotdot && !IsPathSeparator(out.index(out.w)) { out.w-- }],
    started at [w = out.w - 1]; the result is the new [out.w]. *)
Fixpoint backtrack (out : list ascii) (dotdot w : nat) : nat :=
  match w with
  | O => O
  | S w' =>
      if (dotdot <? w)%nat && not_sep (nth w out "/"%char)
      then backtrack out dotdot w'
      else w
  end.

Definition starts_sep_or_ends (l : list ascii) : bool :=
  match l with
  | [] => true
  | c :: _ => is_sep c
  end.

(** The main loop of [Clean]: [rest] is [path[r:]], [out] the contents of the
    output buffer (so [out.w] is its length), [dotdot] the index where [..]
    must stop.  Every iteration consumes at least one character, so a fuel of
    the length of the path is enough. *)
Fixpoint Clean_loop (fuel : nat) (rooted : bool)
    (rest out : list ascii) (dotdot : nat) : list ascii :=
  match fuel with
  | O => out
  | S fuel' =>
      match rest with
      | [] => out
      | c :: rest1 =>
          if is_sep c then
            (* empty path element *)
            Clean_loop fuel' rooted rest1 out dotdot
          else if Ascii.eqb c "."%char && starts_sep_or_ends rest1 then
            (* . element *)
            Clean_loop fuel' rooted rest1 out dotdot
          else if Ascii.eqb c "."%char
                  && match rest1 with
                     | c1 :: rest2 => Ascii.eqb c1 "."%char && starts_sep_or_ends rest2
                     | [] => false
                     end then
            (* .. element: remove to last separator *)
            let rest2 := tl rest1 in
            if (dotdot <? length out)%nat then
              (* can backtrack *)
              let w := backtrack out dotdot (length out - 1) in
              Clean_loop fuel' rooted rest2 (firstn w out) dotdot
            else if negb rooted then
              (* cannot backtrack, but not rooted, so append .. element *)
              let out1 := if (0 <? length out)%nat then out ++ ["/"%char] else out in
              let out2 := out1 ++ ["."%char; "."%char] in
              Clean_loop fuel' rooted rest2 out2 (length out2)
            else
              Clean_loop fuel' rooted rest2 out dotdot
          else
            (* real path element: add slash if needed, copy element *)
            let out1 :=
              if (rooted && negb (length out =? 1)%nat)
                 || (negb rooted && negb (length out =? 0)%nat)
              then out ++ ["/"%char] else out in
            Clean_loop fuel' rooted (drop_while not_sep rest)
                       (out1 ++ take_while not_sep rest) dotdot
      end
  end.

(** [func Clean(path string) string] (no volume names on Unix). *)
Definition Clean_chars (path : list ascii) : list ascii :=
  match path with
  | [] => ["."%char]                       (* return originalPath + "." *)
  | c :: rest =>
      let rooted := is_sep c in
      let out :=
        if rooted
        then Clean_loop (length path) true rest ["/"%char] 1
        else Clean_loop (length path) false path [] 0 in
      match out with
      | [] => ["."%char]                   (* turn empty string into "." *)
      | _ => out
      end
  end.

Definition Base (path : string) : string :=
  string_of_list_ascii (Base_chars (list_ascii_of_string path)).

Definition Clean (path : string) : string :=
  string_of_list_ascii (Clean_chars (list_ascii_of_string path)).

(** [strings.Join(elems, sep)] *)
Fixpoint strings_Join (elems : list string) (sep : string) : string :=
  match elems with
  | [] => ""%string
  | [e] => e
  | e :: rest => e +:+ sep +:+ strings_Join rest sep
  end.

(** [func Join(elem ...string) string]: the elements from the first
    non-empty one on, joined by the separator and cleaned. *)
Fixpoint Join (elem : list string) : string :=
  match elem with
  | [] => ""%string
  | e :: rest =>
      if String.eqb e "" then Join rest
      else Clean (strings_Join elem "/")
  end.

End filepath.

(** [strings.HasSuffix(s, suffix)]:
    [len(s) >= len(suffix) && s[len(s)-len(suffix):] == suffix]. *)
Definition HasSuffix (s suffix : string) : bool :=
  (String.length suffix <=? String.length s)%nat
  && String.eqb
       (substring (String.length s - String.length suffix) (String.length suffix) s)
       suffix.

(** [fmt.Sprintf] with a format of the shape [prefix%s] or [prefix%ssuffix]. *)
Definition Sprintf_s (prefix arg suffix : string) : string :=
  prefix +:+ arg +:+ suffix.

(** ** The world the server runs in: file system, open files, the pool *)

(** A node of the file system. *)
Inductive node :=
  | Regular (content : list byte)
  | Directory.

(** [*os.File]: the identity of the file object and the name it was opened
    with ([File.Name()] returns the name as presented to [Create]). *)
Record File := mkFile { file_id : nat; file_name : string }.

Inductive level := Info | Warn | Error.

(** The calls the server makes to its environment, in the order made. *)
Inductive Event :=
  | EvCreate (path : string) (f : option File)   (* os.Create and its result *)
  | EvWrite (f : File) (n : nat) (ok : bool)     (* File.Write *)
  | EvClose (f : File) (ok : bool)               (* File.Close; [ok = false]: already closed *)
  | EvRemove (path : string) (ok : bool)         (* os.Remove *)
  | EvAddJob (job : Job) (added : bool)          (* WorkerPool.AddJob *)
  | EvExec (argv : list string) (ok : bool)      (* exec.Command(...).Run() *)
  | EvLog (l : level) (msg : string).            (* slog.Info / Warn / Error *)

(** The state shared by the handlers and the workers: the file system, keyed
    by path; the bytes left on the volume (what makes a write fail); the file
    objects that are open; the pool ([globalWP], which [main] also stores in
    [grpcServer.wp]); and the log of calls made so far.

    A handler is run on the world as one uninterrupted sequence of calls;
    the interleaving of the producers with the workers and with [Stop] is
    the subject of the step relation of package [server]. *)
Record World := mkWorld {
  fs : gmap string node;
  free : nat;
  open_files : gset nat;
  next_file : nat;
  pool : WorkerPool;
  trace : list Event }.

Definition emit (e : Event) (w : World) : World :=
  {| fs := fs w; free := free w; open_files := open_files w;
     next_file := next_file w; pool := pool w; trace := trace w ++ [e] |}.

Definition set_pool (wp : WorkerPool) (w : World) : World :=
  {| fs := fs w; free := free w; open_files := open_files w;
     next_file := next_file w; pool := wp; trace := trace w |}.

Definition set_fs (m : gmap string node) (w : World) : World :=
  {| fs := m; free := free w; open_files := open_files w;
     next_file := next_file w; pool := pool w; trace := trace w |}.

Definition slog (l : level) (msg : string) (w : World) : World := emit (EvLog l msg) w.

(** ** Package [os] *)

Module os.

(** The directory a path lies in: the characters before its last separator;
    [None] for a path without separator (relative to the working directory). *)
Definition parent (path : string) : option string :=
  let rp := rev (list_ascii_of_string path) in
  if existsb filepath.is_sep rp
  then Some (string_of_list_ascii
               (rev (tl (filepath.drop_while filepath.not_sep rp))))
  else None.

Definition parent_is_dir (path : string) (m : gmap string node) : bool :=
  match parent path with
  | None => true
  | Some d =>
      if String.eqb d "" then true
      else match m !! d with
           | Some Directory => true
           | _ => false
           end
  end.

(** The errors the modelled calls return: the [syscall.Errno] values of
    Linux, and [os.ErrClosed]. *)
Inductive errno :=
  | EINVAL | ENAMETOOLONG | ENOENT | ENOTDIR | EISDIR | ENOSPC | ErrClosed.

(** [Errno.Error()] *)
Definition errno_text (e : errno) : string :=
  match e with
  | EINVAL => "invalid argument"
  | ENAMETOOLONG => "file name too long"
  | ENOENT => "no such file or directory"
  | ENOTDIR => "not a directory"
  | EISDIR => "is a directory"
  | ENOSPC => "no space left on device"
  | ErrClosed => "file already closed"
  end.

(** [PathError.Error()]: [e.Op + " " + e.Path + ": " + e.Err.Error()]. *)
Definition PathError (op path : string) (e : errno) : string :=
  op +:+ " " +:+ path +:+ ": " +:+ errno_text e.

(** The limits of Linux on a file name and on a path. *)
Definition NAME_MAX : nat := 255.
Definition PATH_MAX : nat := 4096.

Definition has_NUL (s : string) : bool :=
  existsb (Ascii.eqb zero) (list_ascii_of_string s).

(** The last element of a path: the characters after its last separator. *)
Definition last_component (path : string) : string :=
  string_of_list_ascii
    (rev (filepath.take_while filepath.not_sep (rev (list_ascii_of_string path)))).

(** Walking to the directory of a path: it must exist and be a directory. *)
Definition parent_errno (path : string) (m : gmap string node) : option errno :=
  match parent path with
  | None => None
  | Some d =>
      if String.eqb d "" then None
      else match m !! d with
           | Some Directory => None
           | Some (Regular _) => Some ENOTDIR
           | None => Some ENOENT
           end
  end.

(** The error of [open(name, O_RDWR|O_CREAT|O_TRUNC)], if any, for a clean
    path as [filepath.Join] yields it.  Go refuses a name with a NUL byte
    before the system call; the kernel refuses a path of [PATH_MAX] bytes or
    more, then walks to the directory of the name, refuses a name of more
    than [NAME_MAX] bytes, and refuses to open a directory for writing.
    Errors that depend on the machine rather than on the name and the file
    system (permissions, descriptor limits, a failing device) are not
    modelled: statements about a creation that succeeds take its success as
    a hypothesis. *)
Definition Create_errno (path : string) (m : gmap string node) : option errno :=
  if has_NUL path then Some EINVAL
  else if (PATH_MAX <=? String.length path)%nat then Some ENAMETOOLONG
  else if String.eqb path "" then Some ENOENT
  else match parent_errno path m with
       | Some e => Some e
       | None =>
           if (NAME_MAX <? String.length (last_component path))%nat
           then Some ENAMETOOLONG
           else match m !! path with
                | Some Directory => Some EISDIR
                | _ => None
                end
       end.

(** [os.Create(name)] is [OpenFile(name, O_RDWR|O_CREATE|O_TRUNC, 0666)]: an
    existing regular file is truncated, a missing one is created. *)
Definition Create (path : string) (w : World) : option File * World :=
  let f := mkFile (next_file w) path in
  match Create_errno path (fs w) with
  | Some _ => (None, emit (EvCreate path None) w)
  | None =>
      let reclaimed :=
        match fs w !! path with
        | Some (Regular old) => length old
        | _ => O
        end in
      (Some f,
       emit (EvCreate path (Some f))
         {| fs := <[path := Regular []]> (fs w);
            free := (free w + reclaimed)%nat;
            open_files := {[file_id f]} ∪ open_files w;
            next_file := S (next_file w);
            pool := pool w; trace := trace w |})
  end.

(** The text of the error that [os.Create(name)] returns in this world:
    a [*PathError] of the operation [open]. *)
Definition Create_error (path : string) (w : World) : string :=
  match Create_errno path (fs w) with
  | Some e => PathError "open" path e
  | None => ""
  end.

Definition append_content (b : list byte) (n : node) : node :=
  match n with
  | Regular c => Regular (c ++ b)
  | Directory => Directory
  end.

(** The error of [File.Write(b)], if any: the file is closed, or the volume
    has not the room. *)
Definition Write_errno (f : File) (b : list byte) (w : World) : option errno :=
  if negb (bool_decide (file_id f ∈ open_files w)) then Some ErrClosed
  else if (length b <=? free w)%nat then None
  else Some ENOSPC.

(** [File.Write(b)] returns the number of bytes written and fails when it
    is less than [len(b)]: on a closed file nothing is written; on a volume
    without the room for [b], the bytes that fit are written before the
    error.  The volume is counted in bytes, not in blocks. *)
Definition Write (f : File) (b : list byte) (w : World) : (nat * bool) * World :=
  match Write_errno f b w with
  | None =>
      ((length b, true),
       emit (EvWrite f (length b) true)
         {| fs := alter (append_content b) (file_name f) (fs w);
            free := (free w - length b)%nat;
            open_files := open_files w; next_file := next_file w;
            pool := pool w; trace := trace w |})
  | Some ErrClosed => ((O, false), emit (EvWrite f O false) w)
  | Some _ =>
      ((free w, false),
       emit (EvWrite f (free w) false)
         {| fs := alter (append_content (take (free w) b)) (file_name f) (fs w);
            free := O;
            open_files := open_files w; next_file := next_file w;
            pool := pool w; trace := trace w |})
  end.

(** The text of the error that [f.Write(b)] returns in this world: a
    [*PathError] of the operation [write]. *)
Definition Write_error (f : File) (b : list byte) (w : World) : string :=
  match Write_errno f b w with
  | Some e => PathError "write" (file_name f) e
  | None => ""
  end.

(** [File.Close()]: closes an open file; on a file that is already closed it
    returns an error ([os.ErrClosed]) and does nothing. *)
Definition Close (f : File) (w : World) : bool * World :=
  if bool_decide (file_id f ∈ open_files w) then
    (true,
     emit (EvClose f true)
       {| fs := fs w; free := free w;
          open_files := open_files w ∖ {[file_id f]};
          next_file := next_file w; pool := pool w; trace := trace w |})
  else (false, emit (EvClose f false) w).

Definition has_children (path : string) (m : gmap string node) : bool :=
  negb (bool_decide
          (map_Forall (λ k _, String.prefix (path +:+ "/") k = false) m)).

(** [os.Remove(name)]: removes a file or an empty directory. *)
Definition Remove (path : string) (w : World) : bool * World :=
  let removed (reclaimed : nat) :=
    (true,
     emit (EvRemove path true)
       {| fs := delete path (fs w);
          free := (free w + reclaimed)%nat;
          open_files := open_files w; next_file := next_file w;
          pool := pool w; trace := trace w |}) in
  match fs w !! path with
  | Some (Regular c) => removed (length c)
  | Some Directory =>
      if has_children path (fs w) then (false, emit (EvRemove path false) w)
      else removed O
  | None => (false, emit (EvRemove path false) w)
  end.

(** [fs.DirEntry], with its methods [Name()] and [IsDir()]. *)
Record DirEntry := mkDirEntry { Name : string; IsDir : bool }.

(** The entry a key of the file system stands for in directory [dir], if it
    is directly inside it. *)
Definition strip_prefix (p s : string) : option string :=
  if String.prefix p s
  then Some (substring (String.length p) (String.length s - String.length p) s)
  else None.

Definition entry_of (dir : string) (kv : string * node) : option DirEntry :=
  match strip_prefix (dir +:+ "/") (fst kv) with
  | Some name =>
      if String.eqb name "" || existsb filepath.is_sep (list_ascii_of_string name)
      then None
      else Some (mkDirEntry name
                   match snd kv with Directory => true | Regular _ => false end)
  | None => None
  end.

End os.

(** Directory entries ordered by file name, as [os.ReadDir] returns them. *)
Module DirEntryOrder <: TotalLeBool.

Definition t := os.DirEntry.

Definition leb (a b : t) : bool := String.leb (os.Name a) (os.Name b).

Lemma leb_total (a b : t) : leb a b = true \/ leb b a = true.
Proof. apply String.leb_total. Qed.

End DirEntryOrder.

Module DirEntrySort := Sort DirEntryOrder.

(** [os.ReadDir(name)]: the entries of the directory sorted by file name;
    [None] stands for the error (no such directory). *)
Definition os_ReadDir (dir : string) (w : World) : option (list os.DirEntry) :=
  match fs w !! dir with
  | Some Directory =>
      Some (DirEntrySort.sort (omap (os.entry_of dir) (map_to_list (fs w))))
  | _ => None
  end.

(** ** Package [server]: the worker pool *)

Module server.

(** [func NewWorkerPool(c int, q int) *WorkerPool] *)
Definition NewWorkerPool (c q : Z) : result WorkerPool :=
  match chan_make q with
  | Ok ch => Ok {| JobQueue := ch; WorkerCount := c; wg := 0 |}
  | Panic p => Panic p
  end.

(** [func (wp *WorkerPool) AddJob(job Job) bool] *)
Definition AddJob (job : Job) (wp : WorkerPool) : result (bool * WorkerPool) :=
  match chan_try_send job (JobQueue wp) with
  | Sent ch => Ok (true, set_JobQueue ch wp)   (* return true // Success *)
  | WouldBlock => Ok (false, wp)               (* return false // Queue Full (Leak) *)
  | SendPanics => Panic SendOnClosedChannel
  end.

(** One dequeue by a worker ([for job := range wp.JobQueue]): the job taken,
    if any, and the pool afterwards.  On an empty queue nothing changes. *)
Definition dequeue (wp : WorkerPool) : option Job * WorkerPool :=
  match chan_recv (JobQueue wp) with
  | Received v ch => (Some v, set_JobQueue ch wp)
  | RecvBlocks | RecvClosed => (None, wp)
  end.

(** Sequences of queue operations: producers call [AddJob], workers dequeue. *)
Inductive op :=
  | OpAddJob (job : Job)
  | OpDequeue.

Definition run_op (o : op) (wp : WorkerPool) : result WorkerPool :=
  match o with
  | OpAddJob job =>
      match AddJob job wp with
      | Ok (_, wp') => Ok wp'
      | Panic p => Panic p
      end
  | OpDequeue => Ok (snd (dequeue wp))
  end.

Fixpoint run_ops (ops : list op) (wp : WorkerPool) : result WorkerPool :=
  match ops with
  | [] => Ok wp
  | o :: rest =>
      match run_op o wp with
      | Ok wp' => run_ops rest wp'
      | Panic p => Panic p
      end
  end.

(** Consecutive [AddJob] calls, collecting what each returned. *)
Fixpoint add_all (jobs : list Job) (wp : WorkerPool) : result (list bool * WorkerPool) :=
  match jobs with
  | [] => Ok ([], wp)
  | job :: rest =>
      match AddJob job wp with
      | Ok (b, wp') =>
          match add_all rest wp' with
          | Ok (bs, wp'') => Ok (b :: bs, wp'')
          | Panic p => Panic p
          end
      | Panic p => Panic p
      end
  end.

(** The pool after [job] was appended at the tail of its queue. *)
Definition enqueued (job : Job) (wp : WorkerPool) : WorkerPool :=
  set_JobQueue {| buf := buf (JobQueue wp) ++ [job];
                  cap := cap (JobQueue wp);
                  closed := closed (JobQueue wp) |} wp.

Definition queue_len (wp : WorkerPool) : Z := Z.of_nat (length (buf (JobQueue wp))).

(** [func (wp *WorkerPool) Start()]: [wg.Add(1)] once per worker spawned,
    for [i := 1; i <= wp.WorkerCount; i++]. *)
Definition Start (wp : WorkerPool) : WorkerPool :=
  set_wg (wg wp + Z.max 0 (WorkerCount wp)) wp.

(** [close(wp.JobQueue)], the first statement of [Stop]; the [wg.Wait()] that
    follows is a step of the interleaving model below. *)
Definition Stop_close (wp : WorkerPool) : result WorkerPool :=
  match chan_close (JobQueue wp) with
  | Ok ch => Ok (set_JobQueue ch wp)
  | Panic p => Panic p
  end.

Section Worker.

(** The external transcoder: a black box that is run on an argument vector,
    may change the file system in any way, and succeeds or fails. *)
Variable run_command : list string -> gmap string node -> bool * gmap string node.

(** [cmd.Run()], [true] when it returns a nil error. *)
Definition exec_Run (argv : list string) (w : World) : bool * World :=
  let (ok, m) := run_command argv (fs w) in
  (ok, emit (EvExec argv ok) (set_fs m w)).

Definition gif_command (job : Job) : list string :=
  ["ffmpeg"; "-y"; "-i"; Filename job; "-t"; "5"; "-vf"; "fps=10,scale=320:-1";
   Sprintf_s "uploads/" (VideoID job) "_preview.gif"]%string.

Definition jpg_command (job : Job) : list string :=
  ["ffmpeg"; "-y"; "-i"; Filename job; "-ss"; "00:00:01"; "-vframes"; "1";
   "-vf"; "scale=320:-1";
   Sprintf_s "uploads/" (VideoID job) "_thumbnail.jpg"]%string.

(** The body of the loop of [worker], for one job; each [continue] of the
    source ends the body. *)
Definition worker_body (id : Z) (job : Job) (w : World) : World :=
  let w := slog Info "Processing Video" w in
  let (ok_gif, w) := exec_Run (gif_command job) w in
  if negb ok_gif then
    slog Error "FFmpeg GIF generation failed" w             (* continue *)
  else
    let (ok_jpg, w) := exec_Run (jpg_command job) w in
    if negb ok_jpg then
      slog Error "FFmpeg JPG generation failed" w           (* continue *)
    else
      slog Info "Video Processed" w.

(** [for job := range wp.JobQueue { ... }], run by one worker on its own:
    it takes jobs until the queue is empty.  The flag tells whether the loop
    ended (queue closed and drained), in which case the deferred [wg.Done()]
    has run; otherwise the worker is waiting for the next job. *)
Fixpoint worker_loop (fuel : nat) (id : Z) (w : World) : World * bool :=
  match chan_recv (JobQueue (pool w)) with
  | Received job ch =>
      match fuel with
      | O => (w, false)
      | S fuel' =>
          worker_loop fuel' id (worker_body id job (set_pool (set_JobQueue ch (pool w)) w))
      end
  | RecvBlocks => (w, false)
  | RecvClosed => (set_pool (set_wg (wg (pool w) - 1) (pool w)) w, true)
  end.

(** [func (wp *WorkerPool) worker(id int)]; the jobs in the queue bound the
    number of iterations, as the body never enqueues. *)
Definition worker (id : Z) (w : World) : World * bool :=
  worker_loop (length (buf (JobQueue (pool w)))) id w.

End Worker.

(** *** The pool under concurrency: an interleaving model

    The producers (the upload sessions calling [AddJob]), the [C] workers and
    the caller of [Stop] run concurrently.  Channel operations and wait-group
    operations are atomic in Go, so an execution is a sequence of the steps
    below, each one statement of the source. *)

(** Where a worker is: at the receive of its [range] loop, in the loop body
    with a job in hand, or returned (after the deferred [wg.Done()]). *)
Inductive worker_state :=
  | AtReceive
  | InBody (job : Job)
  | Exited.

(** Where the single caller of [Stop] is. *)
Inductive stop_state :=
  | NotCalled
  | AtWait        (* after [close(wp.JobQueue)], in [wp.wg.Wait()] *)
  | StopReturned.

(** The pool, its workers, the caller of [Stop], and three records kept for
    the statements only: the jobs admitted ([AddJob] returned true), the jobs
    dequeued, and the jobs whose loop body has finished.  [crashed] is set
    when an unrecovered panic took the process down. *)
Record system := mkSystem {
  sys_pool : WorkerPool;
  workers : list worker_state;
  stopper : stop_state;
  admitted : list Job;
  dequeued : list Job;
  finished : list Job;
  crashed : bool }.

Definition sys_chan (s : system) : chan := JobQueue (sys_pool s).

Inductive step : system -> system -> Prop :=
  (* AddJob: the send case of the select *)
  | step_AddJob_true s job ch :
      crashed s = false ->
      chan_try_send job (sys_chan s) = Sent ch ->
      step s {| sys_pool := set_JobQueue ch (sys_pool s); workers := workers s;
                stopper := stopper s; admitted := admitted s ++ [job];
                dequeued := dequeued s; finished := finished s;
                crashed := false |}
  (* AddJob: the send case, by direct hand-off to a worker parked at its
     receive on an empty open queue *)
  | step_AddJob_handoff s job i :
      crashed s = false ->
      closed (sys_chan s) = false ->
      buf (sys_chan s) = [] ->
      workers s !! i = Some AtReceive ->
      step s {| sys_pool := sys_pool s; workers := <[i := InBody job]> (workers s);
                stopper := stopper s; admitted := admitted s ++ [job];
                dequeued := dequeued s ++ [job]; finished := finished s;
                crashed := false |}
  (* AddJob: the default case *)
  | step_AddJob_false s job :
      crashed s = false ->
      chan_try_send job (sys_chan s) = WouldBlock ->
      step s s
  (* AddJob on the closed queue panics; the HTTP server recovers the panic
     of a handler, the gRPC server does not *)
  | step_AddJob_panic s job recovered :
      crashed s = false ->
      chan_try_send job (sys_chan s) = SendPanics ->
      step s {| sys_pool := sys_pool s; workers := workers s;
                stopper := stopper s; admitted := admitted s;
                dequeued := dequeued s; finished := finished s;
                crashed := negb recovered |}
  (* worker: [job := <-wp.JobQueue] *)
  | step_worker_receive s i job ch :
      crashed s = false ->
      workers s !! i = Some AtReceive ->
      chan_recv (sys_chan s) = Received job ch ->
      step s {| sys_pool := set_JobQueue ch (sys_pool s);
                workers := <[i := InBody job]> (workers s);
                stopper := stopper s; admitted := admitted s;
                dequeued := dequeued s ++ [job]; finished := finished s;
                crashed := false |}
  (* worker: the loop body ends (normally or by [continue]) *)
  | step_worker_body_done s i job :
      crashed s = false ->
      workers s !! i = Some (InBody job) ->
      step s {| sys_pool := sys_pool s;
                workers := <[i := AtReceive]> (workers s);
                stopper := stopper s; admitted := admitted s;
                dequeued := dequeued s; finished := finished s ++ [job];
                crashed := false |}
  (* worker: the range loop ends on the closed, drained queue; the deferred
     [wp.wg.Done()] runs *)
  | step_worker_exit s i :
      crashed s = false ->
      workers s !! i = Some AtReceive ->
      chan_recv (sys_chan s) = RecvClosed ->
      step s {| sys_pool := set_wg (wg (sys_pool s) - 1) (sys_pool s);
                workers := <[i := Exited]> (workers s);
                stopper := stopper s; admitted := admitted s;
                dequeued := dequeued s; finished := finished s;
                crashed := false |}
  (* Stop: [close(wp.JobQueue)] *)
  | step_Stop_close s wp :
      crashed s = false ->
      stopper s = NotCalled ->
      Stop_close (sys_pool s) = Ok wp ->
      step s {| sys_pool := wp; workers := workers s;
                stopper := AtWait; admitted := admitted s;
                dequeued := dequeued s; finished := finished s;
                crashed := false |}
  (* Stop: [wp.wg.Wait()] returns when the counter is zero *)
  | step_Stop_return s :
      crashed s = false ->
      stopper s = AtWait ->
      wg (sys_pool s) = 0 ->
      step s {| sys_pool := sys_pool s; workers := workers s;
                stopper := StopReturned; admitted := admitted s;
                dequeued := dequeued s; finished := finished s;
                crashed := false |}.

Inductive steps : system -> system -> Prop :=
  | steps_refl s : steps s s
  | steps_step s1 s2 s3 : steps s1 s2 -> step s2 s3 -> steps s1 s3.

(** The system once [NewWorkerPool(c, q)] and [Start()] have returned: the
    queue is empty, [c] workers are at their receive. *)
Definition started (c q : Z) : result system :=
  match NewWorkerPool c q with
  | Ok wp =>
      Ok {| sys_pool := Start wp;
            workers := replicate (Z.to_nat c) AtReceive;
            stopper := NotCalled;
            admitted := []; dequeued := []; finished := [];
            crashed := false |}
  | Panic p => Panic p
  end.

(** The jobs the workers have in hand. *)
Definition hand (st : worker_state) : option Job :=
  match st with
  | InBody job => Some job
  | _ => None
  end.

Definition in_hand (ws : list worker_state) : list Job := omap hand ws.

End server.

(** ** Package [main]: the gRPC and HTTP handlers *)

Module main.

(** How a handler ends: it returns, or it panics. *)
Inductive exit (A : Type) :=
  | Returns (a : A)
  | Panics (p : panic).
Arguments Returns {A} a.
Arguments Panics {A} p.

(** [s.wp.AddJob(job)] / [globalWP.AddJob(job)] on the pool of the world. *)
Definition AddJob (job : Job) (w : World) : result bool * World :=
  match server.AddJob job (pool w) with
  | Ok (added, wp) => (Ok added, emit (EvAddJob job added) (set_pool wp w))
  | Panic p => (Panic p, w)
  end.

(** *** The streaming path *)

(** What one [stream.Recv()] returns: a message ([req.Filename],
    [req.Content]) or a transport error.  A stream is the list of these in
    order; [Recv] on the exhausted list returns [io.EOF]. *)
Inductive recv :=
  | Msg (filename : string) (content : list byte)
  | RecvErr (err : string).

(** gRPC status codes, with their numbers in [google.golang.org/grpc/codes]. *)
Inductive code := Unknown | ResourceExhausted | Internal | Unavailable.

Definition code_number (c : code) : Z :=
  match c with
  | Unknown => 2
  | ResourceExhausted => 8
  | Internal => 13
  | Unavailable => 14
  end.

(** What [UploadVideo] returns to the caller: the [pb.UploadStatus] sent by
    [SendAndClose] (a nil error), or an error status. *)
Inductive rpc_result :=
  | UploadStatus (Message : string) (Success : bool) (VideoId : string)
  | Status (c : code) (msg : string).

(** The local variables of [UploadVideo], and the deferred calls registered
    so far (the receiver of [defer file.Close()] is evaluated at the [defer]
    statement). *)
Record locals := mkLocals {
  file : option File;
  videoID : string;
  fileSize : Z;
  deferred : list File }.

(** Go's [int] on the 64-bit targets of the server. *)
Definition wrap_int (z : Z) : Z := (z + 2 ^ 63) mod 2 ^ 64 - 2 ^ 63.

Definition uploads : string := "uploads".

(** The identifier of the streaming path:
    [videoID = fmt.Sprintf("video_%s", filepath.Base(req.Filename))] followed
    by [videoID = filepath.Base(videoID)]. *)
Definition stream_video_id (filename : string) : string :=
  filepath.Base (Sprintf_s "video_" (filepath.Base filename) "").

(** The identifier of the HTTP path:
    [videoID := fmt.Sprintf("video_web_%s", filepath.Base(header.Filename))]. *)
Definition web_video_id (filename : string) : string :=
  Sprintf_s "video_web_" (filepath.Base filename) "".

(** [savePath := filepath.Join("uploads", videoID)], on both paths. *)
Definition save_path (videoID : string) : string :=
  filepath.Join [uploads; videoID].

(** The block [if err == io.EOF { ... }] of [UploadVideo]: end of stream,
    upload complete.  [send_err] is the error, if any, that
    [stream.SendAndClose] returns. *)
Definition UploadVideo_eof (send_err : option code) (l : locals) (w : World)
    : exit rpc_result * locals * World :=
  let w :=
    match file l with
    | Some f => snd (os.Close f w)       (* if file != nil { file.Close() } *)
    | None => w
    end in
  (* Try to Enqueue *)
  match file l with
  | None => (Panics NilDereference, l, w)          (* file.Name() on nil *)
  | Some f =>
      let job := {| Filename := file_name f; VideoID := videoID l |} in
      match AddJob job w with
      | (Panic p, w) => (Panics p, l, w)
      | (Ok false, w) =>
          let w := slog Warn "Queue full, dropping video" w in
          let w := snd (os.Remove (Filename job) w) in   (* Cleanup dropped file *)
          (Returns (Status ResourceExhausted "Server busy, queue full"), l, w)
      | (Ok true, w) =>
          let w := slog Info "Upload Queued" w in
          match send_err with
          | None => (Returns (UploadStatus "Upload successful" true (videoID l)), l, w)
          | Some c => (Returns (Status c "SendAndClose"), l, w)
          end
      end
  end.

(** The body of [for { ... }] in [UploadVideo], over the results of the
    successive [stream.Recv()] calls. *)
Fixpoint UploadVideo_loop (recvs : list recv) (send_err : option code)
    (l : locals) (w : World) : exit rpc_result * locals * World :=
  match recvs with
  | [] =>
      (* 1. End of Stream (Upload Complete): err == io.EOF *)
      UploadVideo_eof send_err l w
  | RecvErr err :: _ =>
      (Returns (Status Unknown ("Stream error: " +:+ err)), l, w)
  | Msg filename content :: rest =>
      (* 3. Write Chunk, then the next iteration *)
      let write_chunk (f : File) (l : locals) (w : World) :=
        match os.Write f content w with
        | ((n, false), w') =>
            (Returns (Status Internal ("Write error: " +:+ os.Write_error f content w)),
             l, w')
        | ((n, true), w) =>
            UploadVideo_loop rest send_err
              {| file := file l; videoID := videoID l;
                 fileSize := wrap_int (fileSize l + Z.of_nat n);
                 deferred := deferred l |} w
        end in
      match file l with
      | None =>
          (* 2. First Chunk (Create File) *)
          let videoID := stream_video_id filename in
          let savePath := save_path videoID in
          match os.Create savePath w with
          | (None, w') =>
              (Returns (Status Internal
                          ("Failed to create file: " +:+ os.Create_error savePath w)),
               {| file := None; videoID := videoID;
                  fileSize := fileSize l; deferred := deferred l |}, w')
          | (Some f, w) =>
              write_chunk f
                {| file := Some f; videoID := videoID;
                   fileSize := fileSize l;
                   deferred := f :: deferred l |} w       (* defer file.Close() *)
          end
      | Some f => write_chunk f l w
      end
  end.

(** The deferred calls run when the function returns or panics, last
    registered first. *)
Fixpoint run_deferred (ds : list File) (w : World) : World :=
  match ds with
  | [] => w
  | f :: rest => run_deferred rest (snd (os.Close f w))
  end.

Definition no_locals : locals :=
  {| file := None; videoID := ""; fileSize := 0; deferred := [] |}.

(** [func (s *grpcServer) UploadVideo(stream pb.MediaUpload_UploadVideoServer) error] *)
Definition UploadVideo (recvs : list recv) (send_err : option code) (w : World)
    : exit rpc_result * World :=
  match UploadVideo_loop recvs send_err no_locals w with
  | (e, l, w) => (e, run_deferred (deferred l) w)
  end.

(** *** The HTTP path *)

(** The part of [*http.Request] the handlers read: the method, and what
    [r.FormFile("video")] returns ([header.Filename] and the content of the
    part; [None] for its error). *)
Record Request := mkRequest {
  Method : string;
  FormFile_video : option (string * list byte) }.

(** JSON values, as far as the server produces them: [null] and arrays of
    strings. *)
Inductive json :=
  | JNull
  | JArray (items : list string).

Inductive body :=
  | Text (s : string)
  | JSON (v : json).

Record Response := mkResponse { StatusCode : Z; Body : body }.

Definition StatusOK : Z := 200.
Definition StatusBadRequest : Z := 400.
Definition StatusMethodNotAllowed : Z := 405.
Definition StatusInternalServerError : Z := 500.
Definition StatusServiceUnavailable : Z := 503.

(** [http.Error(w, msg, code)] *)
Definition http_Error (msg : string) (c : Z) : Response :=
  {| StatusCode := c; Body := Text (msg +:+ String "010"%char "") |}.

(** [io.Copy(dst, src)] to a file: the content of the source is written to
    [dst] piece by piece until a write fails; the result is the number of
    bytes written and whether the copy is complete.  The pieces written
    before the failure stay in the file, so what the copy leaves is what one
    [Write] of the whole content leaves, the bytes that fit; the number of
    [Write] calls the copy is made of (it depends on the kind of source) is
    not modelled, and the log shows the copy as one write. *)
Definition io_Copy (dst : File) (src : list byte) (w : World) : (nat * bool) * World :=
  os.Write dst src w.

(** [func handleWebUpload(w http.ResponseWriter, r *http.Request)].  The
    deferred [file.Close()] of the handler closes the multipart part it
    reads from, which is not a file of the world. *)
Definition handleWebUpload (r : Request) (w : World) : exit Response * World :=
  if negb (String.eqb (Method r) "POST") then
    (Returns (http_Error "Method not allowed" StatusMethodNotAllowed), w)
  else
    match FormFile_video r with
    | None => (Returns (http_Error "Invalid file" StatusBadRequest), w)
    | Some (header_Filename, content) =>
        (* 2. Save File *)
        let videoID := web_video_id header_Filename in
        let savePath := save_path videoID in
        match os.Create savePath w with
        | (None, w) =>
            (Returns (http_Error "Failed to create file" StatusInternalServerError), w)
        | (Some dst, w) =>
            (* Copy file content *)
            let '((_, copied), w) := io_Copy dst content w in
            let w := snd (os.Close dst w) in   (* Close immediately so Worker can open it *)
            if negb copied then
              (Returns (http_Error "Failed to save file" StatusInternalServerError), w)
            else
              (* 3. Send to Worker Pool (Leaky Bucket Check) *)
              let job := {| Filename := savePath; VideoID := videoID |} in
              match AddJob job w with
              | (Panic p, w) => (Panics p, w)
              | (Ok false, w) =>
                  let w := slog Warn "Web upload dropped (Queue Full)" w in
                  let w := snd (os.Remove savePath w) in
                  (Returns (http_Error "Server busy (Queue Full)" StatusServiceUnavailable), w)
              | (Ok true, w) =>
                  let w := slog Info "Web Upload Queued" w in
                  (Returns {| StatusCode := StatusOK; Body := Text "Upload successful" |}, w)
              end
        end
    end.

(** A Go slice of strings: [None] is the nil slice that [var videos []string]
    declares; [append] allocates on the first element. *)
Definition slice := option (list string).

Definition append (s : slice) (x : string) : slice :=
  match s with
  | None => Some [x]
  | Some xs => Some (xs ++ [x])
  end.

(** The value that [json.NewEncoder(w).Encode(videos)] is given, as a JSON
    value: a nil slice encodes as [null], any other slice as an array of
    strings.  The text the encoder writes for a string (its escapes, and the
    replacement of bytes that are not valid UTF-8 by U+FFFD) is not
    modelled: the statements about the listing are about this value. *)
Definition json_Encode (s : slice) : json :=
  match s with
  | None => JNull
  | Some xs => JArray xs
  end.

(** The [for _, e := range entries] loop of [handleListVideos]. *)
Fixpoint collect_videos (entries : list os.DirEntry) (videos : slice) : slice :=
  match entries with
  | [] => videos
  | e :: rest =>
      (* Only send back .mp4 files *)
      if negb (os.IsDir e) && HasSuffix (os.Name e) ".mp4"
      then collect_videos rest (append videos (os.Name e))
      else collect_videos rest videos
  end.

(** [func handleListVideos(w http.ResponseWriter, r *http.Request)] *)
Definition handleListVideos (w : World) : Response :=
  match os_ReadDir uploads w with
  | None => http_Error "Failed to read uploads" StatusInternalServerError
  | Some entries =>
      {| StatusCode := StatusOK; Body := JSON (json_Encode (collect_videos entries None)) |}
  end.

End main.

(* ===================================================================== *)
(** * Part II: properties                                                 *)
(* ===================================================================== *)

(** ** The admission queue: [NewWorkerPool], [AddJob], dequeue *)

Section AdmissionQueue.

Import server.

(** The queue of a pool that was made with capacity [q] and not stopped. *)
Definition open_pool (q : Z) (wp : WorkerPool) : Prop :=
  closed (JobQueue wp) = false /\ cap (JobQueue wp) = q /\ queue_len wp <= q.

Lemma chan_make_cases q :
  ((q < 0 \/ maxAlloc - hchanSize < Job_Size * q)
   /\ chan_make q = Panic MakechanSizeOutOfRange)
  \/ (0 <= q /\ Job_Size * q <= maxAlloc - hchanSize
      /\ chan_make q = Ok {| buf := []; cap := q; closed := false |}).
Proof.
  unfold chan_make.
  destruct (Z.ltb_spec q 0), (Z.ltb_spec (maxAlloc - hchanSize) (Job_Size * q));
    cbn [orb]; auto.
Qed.

Lemma NewWorkerPool_Ok c q wp :
  NewWorkerPool c q = Ok wp ->
  0 <= q /\ wp = {| JobQueue := {| buf := []; cap := q; closed := false |};
                    WorkerCount := c; wg := 0 |}.
Proof.
  unfold NewWorkerPool.
  destruct (chan_make_cases q) as [[_ ->] | (Hq & _ & ->)]; intros E; inversion E.
  split; [lia | reflexivity].
Qed.

Lemma NewWorkerPool_open c q wp :
  NewWorkerPool c q = Ok wp -> open_pool q wp /\ buf (JobQueue wp) = [].
Proof.
  intros E. apply NewWorkerPool_Ok in E as [Hq ->].
  unfold open_pool, queue_len; simpl. repeat split; lia.
Qed.

Lemma AddJob_open q wp job :
  open_pool q wp ->
  AddJob job wp =
    if queue_len wp <? q then Ok (true, enqueued job wp) else Ok (false, wp).
Proof.
  intros (Hc & Hq & _). unfold AddJob, chan_try_send, enqueued, queue_len.
  rewrite Hc, Hq. destruct (_ <? q); reflexivity.
Qed.

Lemma enqueued_open q wp job :
  open_pool q wp -> queue_len wp < q -> open_pool q (enqueued job wp).
Proof.
  unfold open_pool, enqueued, queue_len; simpl. intros (Hc & Hq & Hl) Hlt.
  rewrite length_app; simpl. repeat split; try assumption. lia.
Qed.

Lemma queue_len_enqueued wp job : queue_len (enqueued job wp) = queue_len wp + 1.
Proof. unfold queue_len, enqueued; simpl. rewrite length_app; simpl. lia. Qed.

Lemma dequeue_open q wp : open_pool q wp -> open_pool q (snd (dequeue wp)).
Proof.
  unfold open_pool, dequeue, chan_recv, queue_len. intros (Hc & Hq & Hl).
  destruct (buf (JobQueue wp)) as [|v rest] eqn:Hb; simpl.
  - rewrite Hc; simpl. rewrite Hb. auto.
  - simpl in Hl. repeat split; try assumption. lia.
Qed.

Lemma run_op_open q wp o :
  open_pool q wp -> exists wp', run_op o wp = Ok wp' /\ open_pool q wp'.
Proof.
  intros H. destruct o as [job|]; simpl.
  - rewrite (AddJob_open q) by assumption.
    destruct (Z.ltb_spec (queue_len wp) q).
    + eexists; split; [reflexivity | now apply enqueued_open].
    + eexists; split; [reflexivity | assumption].
  - eexists; split; [reflexivity | now apply dequeue_open].
Qed.

Lemma run_ops_open q ops wp :
  open_pool q wp -> exists wp', run_ops ops wp = Ok wp' /\ open_pool q wp'.
Proof.
  revert wp. induction ops as [|o ops IH]; intros wp H; simpl.
  - eauto.
  - destruct (run_op_open q wp o H) as (wp1 & -> & H1). now apply IH.
Qed.

(** Filling the queue: [AddJob] succeeds as long as there is room. *)
Lemma add_all_room q jobs wp :
  open_pool q wp ->
  queue_len wp + Z.of_nat (length jobs) <= q ->
  exists wp',
    add_all jobs wp = Ok (repeat true (length jobs), wp')
    /\ open_pool q wp'
    /\ buf (JobQueue wp') = buf (JobQueue wp) ++ jobs.
Proof.
  revert wp. induction jobs as [|job jobs IH]; intros wp H Hlen; simpl.
  - exists wp. rewrite app_nil_r. auto.
  - simpl in Hlen. rewrite (AddJob_open q) by assumption.
    destruct (Z.ltb_spec (queue_len wp) q); [|lia].
    destruct (IH (enqueued job wp)) as (wp' & -> & Ho & Hb).
    + now apply enqueued_open.
    + rewrite queue_len_enqueued. lia.
    + exists wp'. split; [reflexivity|]. split; [assumption|].
      rewrite Hb. simpl. now rewrite <- app_assoc.
Qed.

(** C1. A pool made with queue capacity [q >= 1], after any sequence of
    [AddJob] and dequeue operations: the operations never fault; [AddJob]
    returns true and appends the job at the tail when the queue holds fewer
    than [q] jobs, and returns false and leaves the pool unchanged otherwise.
    In particular, on an empty queue, [q] consecutive [AddJob] calls all
    succeed, the next one returns false, and after one dequeue (of the first
    job admitted) exactly one more [AddJob] succeeds. *)
Theorem AddJob_admits_iff_room (c q : Z) (wp0 : WorkerPool) :
  1 <= q ->
  NewWorkerPool c q = Ok wp0 ->
  (forall ops, exists wp, run_ops ops wp0 = Ok wp)
  /\ (forall ops wp job,
        run_ops ops wp0 = Ok wp ->
        (queue_len wp < q -> AddJob job wp = Ok (true, enqueued job wp))
        /\ (~ queue_len wp < q -> AddJob job wp = Ok (false, wp)))
  /\ (forall ops wp jobs extra1 extra2 extra3,
        run_ops ops wp0 = Ok wp ->
        buf (JobQueue wp) = [] ->
        Z.of_nat (length jobs) = q ->
        exists wp1 wp2,
          add_all jobs wp = Ok (repeat true (length jobs), wp1)
          /\ AddJob extra1 wp1 = Ok (false, wp1)
          /\ dequeue wp1 = (head jobs, wp2)
          /\ head jobs <> None
          /\ AddJob extra2 wp2 = Ok (true, enqueued extra2 wp2)
          /\ AddJob extra3 (enqueued extra2 wp2) = Ok (false, enqueued extra2 wp2)).
Proof.
  intros Hq Hnew. apply NewWorkerPool_open in Hnew as [Hopen0 _].
  split; [|split].
  - intros ops. destruct (run_ops_open q ops wp0 Hopen0) as (wp & E & _). eauto.
  - intros ops wp job E.
    destruct (run_ops_open q ops wp0 Hopen0) as (wp' & E' & Ho).
    rewrite E in E'. inversion E'; subst wp'.
    rewrite (AddJob_open q) by assumption.
    destruct (Z.ltb_spec (queue_len wp) q); split; intros; (reflexivity || lia).
  - intros ops wp jobs e1 e2 e3 E Hempty Hlen.
    destruct (run_ops_open q ops wp0 Hopen0) as (wp' & E' & Ho).
    rewrite E in E'. inversion E'; subst wp'.
    destruct (add_all_room q jobs wp Ho) as (wp1 & Hadd & Ho1 & Hb1).
    { unfold queue_len. rewrite Hempty. simpl. lia. }
    rewrite Hempty in Hb1. simpl in Hb1.
    destruct jobs as [|j1 rest]; [simpl in Hlen; lia|].
    exists wp1, (snd (dequeue wp1)).
    assert (Hl1 : queue_len wp1 = q) by (unfold queue_len; rewrite Hb1; exact Hlen).
    assert (Hd : dequeue wp1 = (Some j1, snd (dequeue wp1))).
    { unfold dequeue, chan_recv. rewrite Hb1. reflexivity. }
    assert (Ho2 : open_pool q (snd (dequeue wp1))) by now apply dequeue_open.
    assert (Hl2 : queue_len (snd (dequeue wp1)) = q - 1).
    { unfold dequeue, chan_recv, queue_len. rewrite Hb1. simpl.
      simpl in Hlen. lia. }
    repeat split.
    + exact Hadd.
    + rewrite (AddJob_open q) by assumption.
      destruct (Z.ltb_spec (queue_len wp1) q); [lia | reflexivity].
    + exact Hd.
    + discriminate.
    + rewrite (AddJob_open q) by assumption.
      destruct (Z.ltb_spec (queue_len (snd (dequeue wp1))) q); [reflexivity | lia].
    + rewrite (AddJob_open q) by (apply enqueued_open; [assumption | lia]).
      rewrite queue_len_enqueued.
      destruct (Z.ltb_spec (queue_len (snd (dequeue wp1)) + 1) q); [lia | reflexivity].
Qed.

End AdmissionQueue.

Section AdmissionQueueExamples.

Import server.

Definition sample_job (n : string) : Job :=
  {| Filename := "uploads/video_" +:+ n; VideoID := "video_" +:+ n |}.

Definition pool_2_3 : WorkerPool :=
  {| JobQueue := {| buf := []; cap := 3; closed := false |};
     WorkerCount := 2; wg := 0 |}.

Lemma AddJob_admits_iff_room_witness :
  1 <= 3
  /\ NewWorkerPool 2 3 = Ok pool_2_3
  /\ exists wp1 wp2,
       add_all [sample_job "a"; sample_job "b"; sample_job "c"] pool_2_3
         = Ok ([true; true; true], wp1)
       /\ AddJob (sample_job "d") wp1 = Ok (false, wp1)
       /\ dequeue wp1 = (Some (sample_job "a"), wp2)
       /\ Some (sample_job "a") <> None
       /\ AddJob (sample_job "e") wp2 = Ok (true, enqueued (sample_job "e") wp2)
       /\ AddJob (sample_job "f") (enqueued (sample_job "e") wp2)
            = Ok (false, enqueued (sample_job "e") wp2).
Proof.
  split; [lia|]. split; [reflexivity|].
  refine (proj2 (proj2 (AddJob_admits_iff_room 2 3 pool_2_3 _ _))
            [] pool_2_3 [sample_job "a"; sample_job "b"; sample_job "c"]
            (sample_job "d") (sample_job "e") (sample_job "f") _ _ _);
    (lia || reflexivity).
Defined.

(** The pool of the default configuration ([-c 2 -q 5]) after [Stop] has
    closed its queue. *)
Definition pool_2_5_stopped : WorkerPool :=
  {| JobQueue := {| buf := []; cap := 5; closed := true |};
     WorkerCount := 2; wg := 0 |}.

(** C3, as stated, fails: on the queue that [Stop] has closed, [AddJob] does
    not return false; the send of its [select] panics. *)
Lemma AddJob_after_Stop_does_not_return :
  (exists wp0, NewWorkerPool 2 5 = Ok wp0 /\ Stop_close wp0 = Ok pool_2_5_stopped)
  /\ AddJob (sample_job "a") pool_2_5_stopped = Panic SendOnClosedChannel
  /\ ~ (exists wp, AddJob (sample_job "a") pool_2_5_stopped = Ok (false, wp)).
Proof.
  split; [eexists; split; reflexivity|].
  split; [reflexivity|]. intros [wp E]. discriminate E.
Qed.

(** C3, amended.  On a pool that was constructed with a queue capacity of
    at least one and has seen any sequence of [AddJob] and dequeue
    operations, [AddJob] does not fault: it returns a boolean, which is false
    exactly when the queue is full.  Once [Stop] has closed the queue,
    [AddJob] faults: the send panics instead of reporting an admission
    failure. *)
Theorem AddJob_faults_only_after_Stop (c q : Z) (wp0 wp : WorkerPool)
    (ops : list op) (job : Job) :
  1 <= q ->
  NewWorkerPool c q = Ok wp0 ->
  run_ops ops wp0 = Ok wp ->
  (exists added wp', AddJob job wp = Ok (added, wp')
                     /\ (added = false <-> q <= queue_len wp))
  /\ (forall stopped, Stop_close wp = Ok stopped ->
        AddJob job stopped = Panic SendOnClosedChannel).
Proof.
  intros _ Hnew Hrun. apply NewWorkerPool_open in Hnew as [Hopen0 _].
  destruct (run_ops_open q ops wp0 Hopen0) as (wp' & E' & Ho).
  rewrite Hrun in E'. inversion E'; subst wp'. split.
  - rewrite (AddJob_open q) by assumption.
    destruct (Z.ltb_spec (queue_len wp) q); do 2 eexists; (split; [reflexivity|]).
    + split; [discriminate | lia].
    + split; [intros _; assumption | reflexivity].
  - intros stopped Hs. unfold Stop_close, chan_close in Hs.
    destruct Ho as (Hc & _). rewrite Hc in Hs. inversion Hs.
    reflexivity.
Qed.

Lemma AddJob_faults_only_after_Stop_witness :
  1 <= 3
  /\ NewWorkerPool 2 3 = Ok pool_2_3
  /\ run_ops [OpAddJob (sample_job "a"); OpDequeue] pool_2_3 = Ok pool_2_3
  /\ (exists added wp', AddJob (sample_job "b") pool_2_3 = Ok (added, wp')
                        /\ (added = false <-> 3 <= queue_len pool_2_3))
  /\ (forall stopped, Stop_close pool_2_3 = Ok stopped ->
        AddJob (sample_job "b") stopped = Panic SendOnClosedChannel).
Proof.
  split; [lia|]. split; [reflexivity|]. split; [reflexivity|].
  apply (AddJob_faults_only_after_Stop 2 3 pool_2_3 pool_2_3
           [OpAddJob (sample_job "a"); OpDequeue]); [lia | reflexivity | reflexivity].
Defined.

End AdmissionQueueExamples.

(** ** The worker pool under concurrency: [Start], [worker], [Stop] *)

Section Lifecycle.

Import server.

Definition is_running (st : worker_state) : bool :=
  match st with
  | Exited => false
  | _ => true
  end.

(** The number of workers that have not returned. *)
Definition running (ws : list worker_state) : Z :=
  Z.of_nat (length (List.filter is_running ws)).

(** What the system keeps true from [Start] on. *)
Record pool_inv (c : Z) (s : system) : Prop := mkPoolInv {
  inv_fifo : admitted s = dequeued s ++ buf (sys_chan s);
  inv_wg : wg (sys_pool s) = running (workers s);
  inv_exited : In Exited (workers s) ->
               closed (sys_chan s) = true /\ buf (sys_chan s) = [];
  inv_hand : dequeued s ≡ₚ finished s ++ in_hand (workers s);
  inv_size : length (workers s) = Z.to_nat c;
  inv_returned : stopper s = StopReturned -> running (workers s) = 0 }.

Lemma split_at (ws : list worker_state) i st x :
  ws !! i = Some st ->
  exists before after,
    ws = before ++ st :: after /\ <[i := x]> ws = before ++ x :: after.
Proof.
  intros H. exists (take i ws), (drop (S i) ws). split.
  - symmetry. now apply take_drop_middle.
  - apply insert_take_drop. now apply lookup_lt_Some in H.
Qed.

Lemma running_app ws1 ws2 : running (ws1 ++ ws2) = running ws1 + running ws2.
Proof. unfold running. rewrite List.filter_app, length_app. lia. Qed.

Lemma running_cons st ws :
  running (st :: ws) = (if is_running st then 1 else 0) + running ws.
Proof. unfold running. simpl. destruct (is_running st); simpl; lia. Qed.

Lemma running_insert ws i st x :
  ws !! i = Some st ->
  running (<[i := x]> ws) =
    running ws - (if is_running st then 1 else 0) + (if is_running x then 1 else 0).
Proof.
  intros H. destruct (split_at ws i st x H) as (before & after & E1 & E2).
  rewrite E2, E1. rewrite !running_app, !running_cons. lia.
Qed.

Lemma running_nonneg ws : 0 <= running ws.
Proof. unfold running. lia. Qed.

Lemma running_zero ws : running ws = 0 -> Forall (eq Exited) ws.
Proof.
  induction ws as [|st ws IH]; intros H; constructor.
  - rewrite running_cons in H. pose proof (running_nonneg ws).
    destruct st; simpl in H; (lia || reflexivity).
  - apply IH. rewrite running_cons in H. pose proof (running_nonneg ws).
    destruct (is_running st); lia.
Qed.

Lemma running_replicate n : running (replicate n AtReceive) = Z.of_nat n.
Proof.
  induction n as [|n IH]; [reflexivity|].
  change (replicate (S n) AtReceive) with (AtReceive :: replicate n AtReceive).
  rewrite running_cons, IH. simpl. lia.
Qed.

Lemma in_hand_insert ws i st x :
  ws !! i = Some st ->
  match hand st with Some j => [j] | None => [] end ++ in_hand (<[i := x]> ws)
  ≡ₚ match hand x with Some j => [j] | None => [] end ++ in_hand ws.
Proof.
  intros H. destruct (split_at ws i st x H) as (before & after & E1 & E2).
  rewrite E2, E1. unfold in_hand. rewrite !omap_app. simpl.
  destruct (hand st) as [j|], (hand x) as [j'|]; simpl.
  - rewrite <- !Permutation_middle. apply perm_swap.
  - now rewrite <- Permutation_middle.
  - now rewrite <- Permutation_middle.
  - reflexivity.
Qed.

Lemma In_insert_worker ws i (x : worker_state) st :
  In st (<[i := x]> ws) -> st = x \/ In st ws.
Proof.
  revert i. induction ws as [|a ws IH]; intros i H; [now right|].
  destruct i as [|i]; simpl in H.
  - destruct H as [<-|H]; [now left | right; now right].
  - destruct H as [<-|H]; [right; now left|].
    destruct (IH i H) as [->|H']; [now left | right; now right].
Qed.

Lemma In_replicate_AtReceive n st : In st (replicate n AtReceive) -> st = AtReceive.
Proof.
  induction n as [|n IH]; simpl; [tauto|]. intros [<-|H]; [reflexivity | auto].
Qed.

Lemma started_inv c q s0 : started c q = Ok s0 -> pool_inv c s0.
Proof.
  unfold started. destruct (NewWorkerPool c q) as [wp|p] eqn:Hnew; [|discriminate].
  apply NewWorkerPool_Ok in Hnew as [Hq ->]. intros E; inversion E; subst s0; clear E.
  constructor; simpl.
  - reflexivity.
  - rewrite running_replicate. unfold Start; simpl. lia.
  - intros H. apply In_replicate_AtReceive in H. discriminate H.
  - assert (E : in_hand (replicate (Z.to_nat c) AtReceive) = []).
    { induction (Z.to_nat c) as [|n IH]; [reflexivity | exact IH]. }
    now rewrite E.
  - apply length_replicate.
  - discriminate.
Qed.

Lemma step_inv c s s' : pool_inv c s -> step s s' -> pool_inv c s'.
Proof.
  intros [Hfifo Hwg Hex Hhand Hsize Hret] Hstep.
  destruct Hstep as
    [s job ch Hcr Hsend | s job i Hcr Hopen Hempty Hw | s job Hcr Hsend
    | s job rec Hcr Hsend | s i job ch Hcr Hw Hrecv | s i job Hcr Hw
    | s i Hcr Hw Hrecv | s wp Hcr Hst Hclose | s Hcr Hst Hzero];
    unfold sys_chan in *; simpl in *.
  - (* AddJob returns true *)
    unfold chan_try_send in Hsend.
    destruct (closed (JobQueue (sys_pool s))) eqn:Hc; [discriminate|].
    destruct (_ <? _); [|discriminate]. inversion Hsend; subst ch; clear Hsend.
    constructor; unfold sys_chan; simpl; try assumption.
    + rewrite Hfifo. now rewrite <- app_assoc.
    + intros H. destruct (Hex H) as [Hc' _]. congruence.
  - (* AddJob hands the job to a parked worker *)
    constructor; unfold sys_chan; simpl.
    + rewrite Hfifo, Hempty. now rewrite !app_nil_r.
    + rewrite (running_insert _ _ _ _ Hw). simpl. lia.
    + intros H. apply In_insert_worker in H as [H|H]; [discriminate | auto].
    + pose proof (in_hand_insert _ _ _ (InBody job) Hw) as P. simpl in P.
      rewrite P, Hhand. rewrite <- !Permutation_middle, app_nil_r.
      reflexivity.
    + now rewrite length_insert.
    + intros H. specialize (Hret H).
      rewrite (running_insert _ _ _ _ Hw). simpl. lia.
  - (* AddJob returns false *)
    constructor; assumption.
  - (* AddJob panics *)
    constructor; assumption.
  - (* a worker receives *)
    unfold chan_recv in Hrecv.
    destruct (buf (JobQueue (sys_pool s))) as [|v rest] eqn:Hb.
    { destruct (closed _); discriminate. }
    inversion Hrecv; subst v ch; clear Hrecv.
    constructor; unfold sys_chan; simpl.
    + rewrite Hfifo. now rewrite <- app_assoc.
    + rewrite (running_insert _ _ _ _ Hw). simpl. lia.
    + intros H. apply In_insert_worker in H as [H|H]; [discriminate|].
      destruct (Hex H) as [_ Hnil]. discriminate Hnil.
    + pose proof (in_hand_insert _ _ _ (InBody job) Hw) as P. simpl in P.
      rewrite P, Hhand. rewrite <- !Permutation_middle, app_nil_r.
      reflexivity.
    + now rewrite length_insert.
    + intros H. specialize (Hret H).
      rewrite (running_insert _ _ _ _ Hw). simpl. lia.
  - (* a worker finishes its job *)
    constructor; unfold sys_chan; simpl; try assumption.
    + rewrite (running_insert _ _ _ _ Hw). simpl. lia.
    + intros H. apply In_insert_worker in H as [H|H]; [discriminate | auto].
    + pose proof (in_hand_insert _ _ _ AtReceive Hw) as P. simpl in P.
      rewrite Hhand, <- P. rewrite <- app_assoc. simpl.
      now rewrite <- Permutation_middle.
    + now rewrite length_insert.
    + intros H. specialize (Hret H).
      rewrite (running_insert _ _ _ _ Hw). simpl. lia.
  - (* a worker returns *)
    unfold chan_recv in Hrecv.
    destruct (buf (JobQueue (sys_pool s))) as [|v rest] eqn:Hb; [|discriminate].
    destruct (closed (JobQueue (sys_pool s))) eqn:Hc; [|discriminate].
    constructor; unfold sys_chan; simpl; try assumption.
    + rewrite Hfifo, Hb. reflexivity.
    + rewrite (running_insert _ _ _ _ Hw). simpl. lia.
    + intros _. rewrite Hb. auto.
    + pose proof (in_hand_insert _ _ _ Exited Hw) as P. simpl in P.
      now rewrite P.
    + now rewrite length_insert.
    + intros H. specialize (Hret H).
      pose proof (running_nonneg (<[i := Exited]> (workers s))) as Hn.
      rewrite (running_insert _ _ _ _ Hw) in *. simpl in *. lia.
  - (* Stop closes the queue *)
    unfold Stop_close, chan_close in Hclose.
    destruct (closed (JobQueue (sys_pool s))) eqn:Hc; [discriminate|].
    inversion Hclose; subst wp; clear Hclose.
    constructor; unfold sys_chan; simpl; try assumption.
    + intros H. destruct (Hex H) as [Hc' _]. congruence.
    + discriminate.
  - (* Stop returns *)
    constructor; unfold sys_chan; simpl; try assumption.
    intros _. now rewrite <- Hwg.
Qed.

Lemma steps_inv c s s' : pool_inv c s -> steps s s' -> pool_inv c s'.
Proof.
  intros H Hs. induction Hs as [|s1 s2 s3 _ IH Hstep]; [assumption|].
  eapply step_inv; [apply IH; assumption | exact Hstep].
Qed.

(** C2. A pool started with [c >= 1] workers: in every execution, once
    [Stop] has returned, every job that was admitted has been dequeued (in
    the order admitted, the queue is empty), every dequeued job has had its
    loop body finished, and every one of the [c] workers has returned. *)
Theorem Stop_returns_after_drain (c q : Z) (s0 s : system) :
  1 <= c ->
  started c q = Ok s0 ->
  steps s0 s ->
  stopper s = StopReturned ->
  dequeued s = admitted s
  /\ buf (sys_chan s) = []
  /\ finished s ≡ₚ admitted s
  /\ Forall (eq Exited) (workers s)
  /\ Z.of_nat (length (workers s)) = c.
Proof.
  intros Hc Hstart Hsteps Hstop.
  pose proof (steps_inv c s0 s (started_inv c q s0 Hstart) Hsteps)
    as [Hfifo Hwg Hex Hhand Hsize Hret].
  pose proof (running_zero _ (Hret Hstop)) as Hall.
  assert (Hin : In Exited (workers s)).
  { destruct (workers s) as [|st ws]; [simpl in Hsize; lia|].
    inversion Hall; subst. now left. }
  destruct (Hex Hin) as [_ Hnil].
  assert (Hnone : in_hand (workers s) = []).
  { clear -Hall. induction Hall as [|st ws <- _ IH]; [reflexivity | exact IH]. }
  rewrite Hnil, app_nil_r in Hfifo. rewrite Hnone, app_nil_r in Hhand.
  repeat split; try assumption.
  - now symmetry.
  - rewrite Hfifo. now symmetry.
  - lia.
Qed.

End Lifecycle.

Section LifecycleExample.

Import server.

(** One worker, a queue of one: a job is admitted, dequeued and processed;
    [Stop] closes the queue, the worker returns, [Stop] returns. *)
Definition run_state (jobs : list Job) (is_closed : bool) (counter : Z)
    (ws : list worker_state) (st : stop_state) (adm deq fin : list Job) : system :=
  {| sys_pool := {| JobQueue := {| buf := jobs; cap := 1; closed := is_closed |};
                    WorkerCount := 1; wg := counter |};
     workers := ws; stopper := st;
     admitted := adm; dequeued := deq; finished := fin; crashed := false |}.

Definition job_a : Job := sample_job "a".

Definition run_0 := run_state [] false 1 [AtReceive] NotCalled [] [] [].
Definition run_1 := run_state [job_a] false 1 [AtReceive] NotCalled [job_a] [] [].
Definition run_2 := run_state [] false 1 [InBody job_a] NotCalled [job_a] [job_a] [].
Definition run_3 := run_state [] false 1 [AtReceive] NotCalled [job_a] [job_a] [job_a].
Definition run_4 := run_state [] true 1 [AtReceive] AtWait [job_a] [job_a] [job_a].
Definition run_5 := run_state [] true 0 [Exited] AtWait [job_a] [job_a] [job_a].
Definition run_6 := run_state [] true 0 [Exited] StopReturned [job_a] [job_a] [job_a].

Lemma run_0_to_6 : steps run_0 run_6.
Proof.
  apply (steps_step _ run_5); [|exact (step_Stop_return run_5 eq_refl eq_refl eq_refl)].
  apply (steps_step _ run_4);
    [|exact (step_worker_exit run_4 0%nat eq_refl eq_refl eq_refl)].
  apply (steps_step _ run_3);
    [|exact (step_Stop_close run_3 (sys_pool run_4) eq_refl eq_refl eq_refl)].
  apply (steps_step _ run_2);
    [|exact (step_worker_body_done run_2 0%nat job_a eq_refl eq_refl)].
  apply (steps_step _ run_1);
    [|exact (step_worker_receive run_1 0%nat job_a (sys_chan run_2)
               eq_refl eq_refl eq_refl)].
  apply (steps_step _ run_0);
    [|exact (step_AddJob_true run_0 job_a (sys_chan run_1) eq_refl eq_refl)].
  apply steps_refl.
Defined.

Lemma Stop_returns_after_drain_witness :
  1 <= 1
  /\ started 1 1 = Ok run_0
  /\ steps run_0 run_6
  /\ stopper run_6 = StopReturned
  /\ dequeued run_6 = admitted run_6
  /\ buf (sys_chan run_6) = []
  /\ finished run_6 ≡ₚ admitted run_6
  /\ Forall (eq Exited) (workers run_6)
  /\ Z.of_nat (length (workers run_6)) = 1.
Proof.
  split; [lia|]. split; [reflexivity|]. split; [exact run_0_to_6|].
  split; [reflexivity|].
  apply (Stop_returns_after_drain 1 1 run_0 run_6);
    [lia | reflexivity | exact run_0_to_6 | reflexivity].
Defined.

End LifecycleExample.

(** ** The worker: the two-step pipeline and its failure policy *)

(** Views of the log of calls. *)
Definition execs (tr : list Event) : list (list string * bool) :=
  omap (λ e, match e with EvExec argv ok => Some (argv, ok) | _ => None end) tr.

Definition removals (tr : list Event) : list string :=
  omap (λ e, match e with EvRemove path _ => Some path | _ => None end) tr.

Definition admissions (tr : list Event) : list (Job * bool) :=
  omap (λ e, match e with EvAddJob job added => Some (job, added) | _ => None end) tr.

Definition is_processing_log (e : Event) : bool :=
  match e with
  | EvLog Info msg => String.eqb msg "Processing Video"
  | _ => false
  end.

(** The number of jobs whose processing was started. *)
Definition jobs_started (tr : list Event) : nat :=
  length (List.filter is_processing_log tr).

Section WorkerPipeline.

Import server.

Variable run_command : list string -> gmap string node -> bool * gmap string node.
Variable id : Z.

Local Abbreviation body := (worker_body run_command id).

(** The three ways the loop body can go, by the outcomes of the transcoder. *)
Lemma worker_body_cases job w :
  let r1 := run_command (gif_command job) (fs w) in
  let r2 := run_command (jpg_command job) (snd r1) in
  body job w =
    {| fs := if fst r1 then snd r2 else snd r1;
       free := free w; open_files := open_files w; next_file := next_file w;
       pool := pool w;
       trace :=
         trace w
         ++ [EvLog Info "Processing Video"; EvExec (gif_command job) (fst r1)]
         ++ (if fst r1
             then [EvExec (jpg_command job) (fst r2);
                   if fst r2 then EvLog Info "Video Processed"
                   else EvLog Error "FFmpeg JPG generation failed"]
             else [EvLog Error "FFmpeg GIF generation failed"]) |}.
Proof.
  intros r1 r2. subst r1 r2. unfold worker_body, exec_Run, slog, emit, set_fs. simpl.
  destruct (run_command (gif_command job) (fs w)) as [ok1 m1]. simpl.
  destruct ok1; simpl.
  - destruct (run_command (jpg_command job) m1) as [ok2 m2]. simpl.
    destruct ok2; simpl; rewrite <- !app_assoc; reflexivity.
  - rewrite <- !app_assoc. reflexivity.
Qed.

Lemma worker_body_pool job w : pool (body job w) = pool w.
Proof. now rewrite worker_body_cases. Qed.

Lemma jobs_started_app tr1 tr2 :
  jobs_started (tr1 ++ tr2) = (jobs_started tr1 + jobs_started tr2)%nat.
Proof. unfold jobs_started. now rewrite List.filter_app, length_app. Qed.

Lemma worker_body_started job w :
  jobs_started (trace (body job w)) = S (jobs_started (trace w)).
Proof.
  rewrite worker_body_cases. simpl. rewrite jobs_started_app.
  destruct (fst (run_command (gif_command job) (fs w))); simpl.
  - destruct (fst (run_command (jpg_command job) _)); unfold jobs_started; simpl; lia.
  - unfold jobs_started; simpl; lia.
Qed.

(** The loop takes the next job whatever became of the one before. *)
Lemma worker_next job rest w :
  buf (JobQueue (pool w)) = job :: rest ->
  worker run_command id w =
    worker run_command id
      (body job (set_pool (set_JobQueue {| buf := rest;
                                          cap := cap (JobQueue (pool w));
                                          closed := closed (JobQueue (pool w)) |}
                                        (pool w)) w)).
Proof.
  intros Hb. unfold worker at 1. rewrite Hb. simpl.
  unfold chan_recv. rewrite Hb. unfold worker.
  rewrite worker_body_pool. reflexivity.
Qed.

Lemma worker_drains jobs : forall w,
  buf (JobQueue (pool w)) = jobs ->
  let w' := fst (worker run_command id w) in
  buf (JobQueue (pool w')) = []
  /\ jobs_started (trace w') = (jobs_started (trace w) + length jobs)%nat
  /\ snd (worker run_command id w) = closed (JobQueue (pool w)).
Proof.
  induction jobs as [|job rest IH]; intros w Hb.
  - unfold worker. rewrite Hb. simpl. unfold chan_recv. rewrite Hb.
    destruct (closed (JobQueue (pool w))) eqn:Hc; simpl.
    + rewrite Hb. repeat split. lia.
    + rewrite Hb. repeat split. lia.
  - rewrite (worker_next job rest w Hb).
    match goal with |- context [worker _ _ ?x] => set (w1 := x) end.
    assert (Hb1 : buf (JobQueue (pool w1)) = rest).
    { subst w1. rewrite worker_body_pool. reflexivity. }
    destruct (IH w1 Hb1) as (H1 & H2 & H3). simpl.
    split; [exact H1|]. split.
    + rewrite H2. subst w1. rewrite worker_body_started. simpl. lia.
    + rewrite H3. subst w1. rewrite worker_body_pool. reflexivity.
Qed.

(** C8. For every job a worker processes, whatever the transcoder does: the
    thumbnail step is run only if the preview step succeeded, and no step is
    run twice; the worker removes nothing (the file system is left exactly as
    the transcoder runs left it, so neither the original file nor the preview
    of a successful step 1 is deleted by the worker) and does not touch the
    queue (the job is not enqueued again); and whatever the outcome, the
    worker goes on with the next job of the queue, so that a worker running
    on a queue of [n] jobs starts all [n] of them and leaves the queue
    empty. *)
Theorem worker_failure_policy (job : Job) (rest : list Job) (w : World) :
  let r1 := run_command (gif_command job) (fs w) in
  let r2 := run_command (jpg_command job) (snd r1) in
  let w' := body job w in
  execs (trace w') =
    execs (trace w)
    ++ (if fst r1
        then [(gif_command job, true); (jpg_command job, fst r2)]
        else [(gif_command job, false)])
  /\ fs w' = (if fst r1 then snd r2 else snd r1)
  /\ removals (trace w') = removals (trace w)
  /\ admissions (trace w') = admissions (trace w)
  /\ pool w' = pool w
  /\ (forall v : World,
        buf (JobQueue (pool v)) = job :: rest ->
        let v1 := set_pool (set_JobQueue {| buf := rest;
                                            cap := cap (JobQueue (pool v));
                                            closed := closed (JobQueue (pool v)) |}
                                          (pool v)) v in
        worker run_command id v = worker run_command id (body job v1)
        /\ buf (JobQueue (pool (body job v1))) = rest
        /\ buf (JobQueue (pool (fst (worker run_command id v)))) = []
        /\ jobs_started (trace (fst (worker run_command id v)))
           = (jobs_started (trace v) + S (length rest))%nat).
Proof.
  intros r1 r2 w'. subst w'. rewrite worker_body_cases. fold r1 r2. simpl.
  unfold execs, removals, admissions. rewrite !omap_app. simpl.
  repeat split.
  - destruct (fst r1); [destruct (fst r2)|]; reflexivity.
  - destruct (fst r1); [destruct (fst r2)|]; simpl; now rewrite app_nil_r.
  - destruct (fst r1); [destruct (fst r2)|]; simpl; now rewrite app_nil_r.
  - now apply worker_next.
  - rewrite worker_body_pool. reflexivity.
  - now destruct (worker_drains (job :: rest) v H) as (H1 & _).
  - now destruct (worker_drains (job :: rest) v H) as (_ & H2 & _).
Qed.

End WorkerPipeline.

(** ** Naming: [video_id] and the destination path *)

Section Naming.

Import filepath.

(** Whether a string contains a path separator. *)
Definition has_separator (s : string) : bool :=
  existsb is_sep (list_ascii_of_string s).

Definition chars_of (s : string) : list ascii := list_ascii_of_string s.

Lemma append_cons c s t : String c s +:+ t = String c (s +:+ t).
Proof. reflexivity. Qed.

Lemma chars_of_append s1 s2 : chars_of (s1 +:+ s2) = chars_of s1 ++ chars_of s2.
Proof.
  unfold chars_of. induction s1 as [|c s1 IH]; [reflexivity|].
  rewrite append_cons. simpl. now rewrite IH.
Qed.

Lemma append_empty_r s : s +:+ "" = s.
Proof.
  induction s as [|c s IH]; [reflexivity|]. now rewrite append_cons, IH.
Qed.

Lemma Sprintf_s_prefix prefix arg : Sprintf_s prefix arg "" = prefix +:+ arg.
Proof. unfold Sprintf_s. now rewrite append_empty_r. Qed.

Lemma string_of_chars_append l1 l2 :
  string_of_list_ascii (l1 ++ l2) = string_of_list_ascii l1 +:+ string_of_list_ascii l2.
Proof.
  induction l1 as [|c l1 IH]; simpl; [reflexivity|]. now rewrite append_cons, IH.
Qed.

Lemma take_while_all p l :
  forallb p l = true -> take_while p l = l /\ drop_while p l = [].
Proof.
  induction l as [|c l IH]; simpl; [auto|].
  destruct (p c); simpl; [|discriminate]. intros H.
  destruct (IH H) as [-> ->]. auto.
Qed.

Lemma take_while_holds p l : forallb p (take_while p l) = true.
Proof.
  induction l as [|c l IH]; simpl; [reflexivity|].
  destruct (p c) eqn:E; simpl; [now rewrite E | reflexivity].
Qed.

Lemma forallb_rev (p : ascii -> bool) l : forallb p (rev l) = forallb p l.
Proof.
  induction l as [|c l IH]; simpl; [reflexivity|].
  rewrite forallb_app, IH. simpl. destruct (p c), (forallb p l); reflexivity.
Qed.

Lemma no_sep_forallb l : existsb is_sep l = false <-> forallb not_sep l = true.
Proof.
  unfold not_sep. induction l as [|c l IH]; simpl; [tauto|].
  destruct (is_sep c); simpl; [split; discriminate | exact IH].
Qed.

(** [Base] returns either the lone separator (for a path of separators only)
    or a non-empty element without separator. *)
Lemma Base_chars_cases path :
  Base_chars path = ["/"%char]
  \/ (Base_chars path <> [] /\ existsb is_sep (Base_chars path) = false).
Proof.
  destruct path as [|c path]; [right; split; [discriminate | reflexivity]|].
  unfold Base_chars.
  destruct (take_while not_sep (drop_while is_sep (rev (c :: path))))
    as [|d last] eqn:E; [now left | right].
  split.
  - intros H. apply (f_equal (@length ascii)) in H.
    rewrite length_rev in H. discriminate H.
  - apply no_sep_forallb. rewrite forallb_rev, <- E. apply take_while_holds.
Qed.

(** [Base] leaves a non-empty name without separator as it is. *)
Lemma Base_chars_name l :
  l <> [] -> existsb is_sep l = false -> Base_chars l = l.
Proof.
  intros Hne Hns. apply no_sep_forallb in Hns.
  destruct l as [|c l]; [contradiction|]. unfold Base_chars.
  assert (Hrev : forallb not_sep (rev (c :: l)) = true) by now rewrite forallb_rev.
  assert (Hd : drop_while is_sep (rev (c :: l)) = rev (c :: l)).
  { destruct (rev (c :: l)) as [|d r] eqn:E; [reflexivity|].
    simpl in Hrev. unfold not_sep in Hrev at 1. simpl.
    destruct (is_sep d); [discriminate | reflexivity]. }
  rewrite Hd. destruct (take_while_all not_sep _ Hrev) as [-> _].
  destruct (rev (c :: l)) as [|d r] eqn:E.
  - apply (f_equal (@length ascii)) in E. rewrite length_rev in E. discriminate E.
  - rewrite <- E. apply rev_involutive.
Qed.

Lemma existsb_app_false (l1 l2 : list ascii) :
  existsb is_sep l1 = false -> existsb is_sep l2 = false ->
  existsb is_sep (l1 ++ l2) = false.
Proof. intros H1 H2. now rewrite existsb_app, H1, H2. Qed.

Lemma Clean_loop_done fuel rooted out dotdot :
  Clean_loop fuel rooted [] out dotdot = out.
Proof. destruct fuel; reflexivity. Qed.

Lemma Clean_loop_separator fuel rooted rest out dotdot :
  Clean_loop (S fuel) rooted ("/"%char :: rest) out dotdot
  = Clean_loop fuel rooted rest out dotdot.
Proof. reflexivity. Qed.

Lemma Clean_loop_element fuel c rest out dotdot :
  is_sep c = false ->
  Ascii.eqb c "."%char = false ->
  Clean_loop (S fuel) false (c :: rest) out dotdot
  = Clean_loop fuel false (drop_while not_sep (c :: rest))
      ((if (length out =? 0)%nat then out else out ++ ["/"%char])
       ++ take_while not_sep (c :: rest)) dotdot.
Proof.
  intros Hs Hd. cbn [Clean_loop]. rewrite Hs, Hd.
  cbn [andb orb negb]. destruct (length out =? 0)%nat; reflexivity.
Qed.

(** [Clean] of a separator-free name (starting with [v], as all derived
    identifiers do) under [uploads] is the name under [uploads]. *)
Lemma Clean_under_uploads name :
  existsb is_sep name = false ->
  Clean_chars (chars_of "uploads/" ++ "v"%char :: name)
  = chars_of "uploads/" ++ "v"%char :: name.
Proof.
  intros Hns. apply no_sep_forallb in Hns.
  destruct (take_while_all not_sep name Hns) as [Ht Hd].
  unfold Clean_chars, chars_of.
  cbn [list_ascii_of_string app is_sep Ascii.eqb Bool.eqb length].
  rewrite Clean_loop_element by reflexivity.
  cbn [drop_while take_while not_sep is_sep Ascii.eqb Bool.eqb negb length Nat.eqb app].
  rewrite Clean_loop_separator.
  rewrite Clean_loop_element by reflexivity.
  cbn [drop_while take_while not_sep is_sep Ascii.eqb Bool.eqb negb length Nat.eqb app].
  rewrite Ht, Hd, Clean_loop_done. reflexivity.
Qed.

Lemma chars_of_string l : chars_of (string_of_list_ascii l) = l.
Proof. apply list_ascii_of_string_of_list_ascii. Qed.

Lemma string_of_chars s : string_of_list_ascii (chars_of s) = s.
Proof. apply string_of_list_ascii_of_string. Qed.

Lemma Join_uploads_name name :
  existsb is_sep name = false ->
  Join [main.uploads; string_of_list_ascii ("v"%char :: name)]
  = "uploads/" +:+ string_of_list_ascii ("v"%char :: name).
Proof.
  intros Hns. unfold Join, main.uploads.
  change (String.eqb "uploads" "") with false. cbv iota.
  unfold strings_Join, Clean. fold chars_of.
  rewrite !chars_of_append, chars_of_string.
  change (chars_of "uploads" ++ chars_of "/" ++ "v"%char :: name)
    with (chars_of "uploads/" ++ "v"%char :: name).
  rewrite (Clean_under_uploads name Hns).
  now rewrite string_of_chars_append, string_of_chars.
Qed.

Lemma prefix_append p s : String.prefix p (p +:+ s) = true.
Proof.
  induction p as [|c p IH]; [now destruct s|].
  rewrite append_cons. simpl. destruct (ascii_dec c c); [exact IH | contradiction].
Qed.

Lemma Base_cases path :
  Base path = "/"
  \/ exists b, Base path = string_of_list_ascii b
               /\ b <> [] /\ existsb is_sep b = false.
Proof.
  unfold Base. destruct (Base_chars_cases (list_ascii_of_string path)) as [E | [Hne Hns]].
  - left. now rewrite E.
  - right. eauto.
Qed.

(** C7, as stated, fails on a file name made of separators only: its base
    component is the separator itself, so the identifier of the HTTP path
    contains a separator, and the identifier of the streaming path is the
    bare prefix, not the prefix followed by the base component. *)
Lemma video_id_of_root_name :
  Base "/" = "/"
  /\ main.web_video_id "/" = "video_web_/"
  /\ has_separator (main.web_video_id "/") = true
  /\ main.stream_video_id "/" = "video_"
  /\ main.stream_video_id "/" <> "video_" +:+ Base "/".
Proof. repeat split; try reflexivity. vm_compute. discriminate. Qed.

(** C7, amended.  For every client-supplied file name (also with
    separators, [..] or an absolute path): the identifier of the streaming
    path contains no separator and starts with the fixed prefix, and on both
    paths the destination path is [uploads/] followed by one non-empty
    component that has no separator and starts with the prefix, so it cannot
    leave the storage root.  For every file name whose base component is not
    the lone separator (that is, which does not consist of separators only),
    the identifier is the fixed prefix followed by the base component of the
    file name and contains no separator, on both paths. *)
Theorem video_id_stays_under_uploads (filename : string) :
  (has_separator (main.stream_video_id filename) = false
   /\ String.prefix "video_" (main.stream_video_id filename) = true
   /\ main.save_path (main.stream_video_id filename)
      = "uploads/" +:+ main.stream_video_id filename)
  /\ (exists name,
        main.save_path (main.web_video_id filename) = "uploads/" +:+ name
        /\ has_separator name = false
        /\ String.prefix "video_web_" name = true)
  /\ (Base filename <> "/" ->
      main.stream_video_id filename = "video_" +:+ Base filename
      /\ main.web_video_id filename = "video_web_" +:+ Base filename
      /\ has_separator (main.web_video_id filename) = false
      /\ main.save_path (main.web_video_id filename)
         = "uploads/" +:+ main.web_video_id filename).
Proof.
  unfold main.save_path, main.stream_video_id, main.web_video_id. rewrite !Sprintf_s_prefix.
  destruct (Base_cases filename) as [E | (b & E & Hne & Hns)]; rewrite E.
  - (* separators only *)
    split; [|split].
    + repeat split; vm_compute; reflexivity.
    + exists "video_web_". repeat split; vm_compute; reflexivity.
    + intros H. now contradiction H.
  - (* a proper base component *)
    assert (Hs : Base ("video_" +:+ string_of_list_ascii b)
                 = "video_" +:+ string_of_list_ascii b).
    { unfold Base. fold chars_of. rewrite chars_of_append, chars_of_string.
      rewrite Base_chars_name.
      - now rewrite string_of_chars_append, string_of_chars.
      - discriminate.
      - now apply existsb_app_false. }
    assert (Hstream : has_separator ("video_" +:+ string_of_list_ascii b) = false).
    { unfold has_separator. fold chars_of. rewrite chars_of_append, chars_of_string.
      now apply existsb_app_false. }
    assert (Hweb : has_separator ("video_web_" +:+ string_of_list_ascii b) = false).
    { unfold has_separator. fold chars_of. rewrite chars_of_append, chars_of_string.
      now apply existsb_app_false. }
    assert (Jstream : Join [main.uploads; "video_" +:+ string_of_list_ascii b]
                      = "uploads/" +:+ "video_" +:+ string_of_list_ascii b).
    { change ("video_" +:+ string_of_list_ascii b)
        with (string_of_list_ascii ("v"%char :: chars_of "ideo_" ++ b)).
      apply Join_uploads_name. now apply existsb_app_false. }
    assert (Jweb : Join [main.uploads; "video_web_" +:+ string_of_list_ascii b]
                   = "uploads/" +:+ "video_web_" +:+ string_of_list_ascii b).
    { change ("video_web_" +:+ string_of_list_ascii b)
        with (string_of_list_ascii ("v"%char :: chars_of "ideo_web_" ++ b)).
      apply Join_uploads_name. now apply existsb_app_false. }
    rewrite Hs. split; [|split].
    + split; [exact Hstream|]. split; [apply prefix_append | exact Jstream].
    + exists ("video_web_" +:+ string_of_list_ascii b).
      split; [exact Jweb|]. split; [exact Hweb | apply prefix_append].
    + intros _. repeat split; [exact Hweb | exact Jweb].
Qed.

End Naming.

(** ** Upload sessions: the streaming path *)

(** More views of the log of calls. *)
Definition File_eqb (f g : File) : bool :=
  Nat.eqb (file_id f) (file_id g) && String.eqb (file_name f) (file_name g).

(** The file objects that [os.Create] returned. *)
Definition creations (tr : list Event) : list File :=
  omap (λ e, match e with EvCreate _ (Some f) => Some f | _ => None end) tr.

(** The number of [Close] calls on [f], and of those that closed it. *)
Definition close_calls (f : File) (tr : list Event) : nat :=
  length (List.filter (λ e, match e with EvClose g _ => File_eqb f g | _ => false end) tr).

Definition closings (f : File) (tr : list Event) : nat :=
  length (List.filter (λ e, match e with EvClose g true => File_eqb f g | _ => false end) tr).

(** The calls made between two states of the world. *)
Definition calls_between (w w' : World) : list Event :=
  drop (length (trace w)) (trace w').

(** The log of the successful writes of chunks of the given sizes. *)
Definition writes (f : File) (sizes : list nat) : list Event :=
  map (λ n, EvWrite f n true) sizes.

(** Projections of a world built by the operations. *)
Ltac world_simpl :=
  cbn [fs free open_files next_file pool trace emit set_pool set_fs slog fst snd].

(** Equations between logs: reassociate, then compare. *)
Ltac trace_eq :=
  repeat rewrite <- app_assoc; simpl; repeat rewrite <- app_assoc; reflexivity.

Section StreamingSession.

Import main.

#[local] Arguments os.Create : simpl never.
#[local] Arguments os.Write : simpl never.
#[local] Arguments os.Close : simpl never.
#[local] Arguments os.Remove : simpl never.
#[local] Arguments filepath.Join : simpl never.
#[local] Arguments filepath.Base : simpl never.
#[local] Arguments Sprintf_s : simpl never.
#[local] Arguments wrap_int : simpl never.

Lemma File_eqb_refl f : File_eqb f f = true.
Proof. unfold File_eqb. now rewrite Nat.eqb_refl, String.eqb_refl. Qed.

Lemma calls_between_app w w' evs :
  trace w' = trace w ++ evs -> calls_between w w' = evs.
Proof. intros E. unfold calls_between. rewrite E. apply drop_app_length. Qed.

Lemma writes_views f g sizes :
  creations (writes f sizes) = []
  /\ close_calls g (writes f sizes) = O
  /\ closings g (writes f sizes) = O
  /\ admissions (writes f sizes) = []
  /\ removals (writes f sizes) = [].
Proof. induction sizes as [|n sizes IH]; simpl; auto. Qed.

Lemma Close_open f w :
  file_id f ∈ open_files w ->
  os.Close f w =
    (true, emit (EvClose f true)
             {| fs := fs w; free := free w;
                open_files := open_files w ∖ {[file_id f]};
                next_file := next_file w; pool := pool w; trace := trace w |}).
Proof. intros H. unfold os.Close. now rewrite bool_decide_true. Qed.

Lemma Close_closed f w :
  file_id f ∉ open_files w -> os.Close f w = (false, emit (EvClose f false) w).
Proof. intros H. unfold os.Close. now rewrite bool_decide_false. Qed.

Lemma Write_errno_cases f b w :
((file_id f ∉ open_files w) /\ os.Write_errno f b w = Some os.ErrClosed)
  \/ (file_id f ∈ open_files w /\ (length b <= free w)%nat
      /\ os.Write_errno f b w = None)
  \/ (file_id f ∈ open_files w /\ (free w < length b)%nat
      /\ os.Write_errno f b w = Some os.ENOSPC).
Proof.
  unfold os.Write_errno.
  destruct (bool_decide (file_id f ∈ open_files w)) eqn:E; cbn [negb].
  - apply bool_decide_eq_true in E. right.
    destruct (Nat.leb_spec (length b) (free w)); [left | right]; auto.
  - apply bool_decide_eq_false in E. left. auto.
Qed.

Lemma Write_ok f b w n w1 :
  os.Write f b w = ((n, true), w1) ->
  file_id f ∈ open_files w
  /\ w1 = emit (EvWrite f n true)
            {| fs := alter (os.append_content b) (file_name f) (fs w);
               free := (free w - length b)%nat;
               open_files := open_files w; next_file := next_file w;
               pool := pool w; trace := trace w |}.
Proof.
  unfold os.Write.
  destruct (Write_errno_cases f b w) as [[_ E] | [(Ho & _ & E) | (_ & _ & E)]];
    rewrite E; intros H; inversion H; subst.
  split; [exact Ho | reflexivity].
Qed.

(** What a write changes, whether it succeeds or not: the content of the
    file grows by the [n] bytes written, and the call is logged. *)
Lemma Write_effect f b w n ok w2 :
  os.Write f b w = ((n, ok), w2) ->
  open_files w2 = open_files w
  /\ pool w2 = pool w
  /\ next_file w2 = next_file w
  /\ trace w2 = trace w ++ [EvWrite f n ok]
  /\ (forall c, fs w !! file_name f = Some (Regular c) ->
                fs w2 !! file_name f = Some (Regular (c ++ take n b)))
  /\ (forall p, p <> file_name f -> fs w2 !! p = fs w !! p)
  /\ (ok = true -> n = length b /\ (length b <= free w)%nat)
  /\ (ok = false -> file_id f ∈ open_files w ->
      n = free w /\ (free w < length b)%nat).
Proof.
  unfold os.Write.
  destruct (Write_errno_cases f b w) as [[Ho E] | [(Ho & Hl & E) | (Ho & Hl & E)]];
    rewrite E; intros H; inversion H; subst; clear H; world_simpl;
    (split; [reflexivity|]); (split; [reflexivity|]); (split; [reflexivity|]);
    (split; [reflexivity|]).
  - split; [intros c Hc; now rewrite Hc, take_0, app_nil_r|].
    split; [reflexivity|]. split; [discriminate|]. intros _ Hin. contradiction.
  - split; [intros c Hc; now rewrite lookup_alter_eq, Hc, firstn_all|].
    split; [intros p Hp; now apply lookup_alter_ne|].
    split; [auto | discriminate].
  - split; [intros c Hc; now rewrite lookup_alter_eq, Hc|].
    split; [intros p Hp; now apply lookup_alter_ne|].
    split; [discriminate | auto].
Qed.

Lemma Create_errno_None path m :
  os.Create_errno path m = None ->
  os.has_NUL path = false
  /\ (String.length path < os.PATH_MAX)%nat
  /\ (String.length (os.last_component path) <= os.NAME_MAX)%nat
  /\ os.parent_errno path m = None
  /\ m !! path <> Some Directory.
Proof.
  unfold os.Create_errno. destruct (os.has_NUL path); [discriminate|].
  destruct (Nat.leb_spec os.PATH_MAX (String.length path)); [discriminate|].
  destruct (String.eqb path ""); [discriminate|].
  destruct (os.parent_errno path m); [discriminate|].
  destruct (Nat.ltb_spec os.NAME_MAX (String.length (os.last_component path)));
    [discriminate|].
  destruct (m !! path) as [[c|]|]; intros Hnone; try discriminate Hnone;
    repeat split; (assumption || discriminate).
Qed.

Lemma Create_result path w :
  (exists reclaimed,
     os.Create_errno path (fs w) = None
     /\ os.Create path w =
        (Some (mkFile (next_file w) path),
         emit (EvCreate path (Some (mkFile (next_file w) path)))
           {| fs := <[path := Regular []]> (fs w);
              free := (free w + reclaimed)%nat;
              open_files := {[next_file w]} ∪ open_files w;
              next_file := S (next_file w);
              pool := pool w; trace := trace w |})
     /\ fs w !! path <> Some Directory)
  \/ (exists e,
        os.Create_errno path (fs w) = Some e
        /\ os.Create path w = (None, emit (EvCreate path None) w)).
Proof.
  unfold os.Create. destruct (os.Create_errno path (fs w)) as [e|] eqn:E.
  - right. eauto.
  - left. eexists. split; [reflexivity|]. split; [reflexivity|].
    now apply Create_errno_None in E.
Qed.

(** The world after the chunks of a session were written to [f]: only the
    content of the file and the log have changed. *)
Record wrote (f : File) (w w1 : World) : Prop := mkWrote {
  wrote_open : open_files w1 = open_files w;
  wrote_pool : pool w1 = pool w;
  wrote_next : next_file w1 = next_file w;
  wrote_trace : exists sizes, trace w1 = trace w ++ writes f sizes;
  wrote_file : forall c, fs w !! file_name f = Some (Regular c) ->
                         exists c', fs w1 !! file_name f = Some (Regular c');
  wrote_others : forall p, p <> file_name f -> fs w1 !! p = fs w !! p }.

Lemma wrote_refl f w : wrote f w w.
Proof.
  constructor; try reflexivity; eauto.
  exists []. simpl. now rewrite app_nil_r.
Qed.

Lemma wrote_step f b w n w1 w2 :
  os.Write f b w = ((n, true), w1) -> wrote f w1 w2 -> wrote f w w2.
Proof.
  intros Hw [Ho Hp Hn [sizes Ht] Hf Hoth]. apply Write_ok in Hw as [_ ->].
  simpl in *. constructor; try assumption.
  - exists (n :: sizes). rewrite Ht. simpl. now rewrite <- app_assoc.
  - intros c Hc. apply (Hf (c ++ b)). rewrite lookup_alter_eq, Hc. reflexivity.
  - intros p Hne. rewrite (Hoth p Hne). now rewrite lookup_alter_ne.
Qed.

(** One iteration of the loop on a message. *)
Definition write_chunk (content : list byte) (rest : list recv) (se : option code)
    (f : File) (l : locals) (w : World) : exit rpc_result * locals * World :=
  match os.Write f content w with
  | ((n, false), w') =>
      (Returns (Status Internal ("Write error: " +:+ os.Write_error f content w)), l, w')
  | ((n, true), w) =>
      UploadVideo_loop rest se
        {| file := file l; videoID := videoID l;
           fileSize := wrap_int (fileSize l + Z.of_nat n);
           deferred := deferred l |} w
  end.

Lemma UploadVideo_loop_Msg filename content rest se l w :
  UploadVideo_loop (Msg filename content :: rest) se l w =
    match file l with
    | None =>
        match os.Create (save_path (stream_video_id filename)) w with
        | (None, w') =>
            (Returns (Status Internal
                        ("Failed to create file: "
                         +:+ os.Create_error (save_path (stream_video_id filename)) w)),
             {| file := None; videoID := stream_video_id filename;
                fileSize := fileSize l; deferred := deferred l |}, w')
        | (Some f, w) =>
            write_chunk content rest se f
              {| file := Some f; videoID := stream_video_id filename;
                 fileSize := fileSize l;
                 deferred := f :: deferred l |} w
        end
    | Some f => write_chunk content rest se f l w
    end.
Proof. reflexivity. Qed.

Definition same_session (l l1 : locals) : Prop :=
  file l1 = file l /\ videoID l1 = videoID l /\ deferred l1 = deferred l.

(** Once the file is created, the loop writes chunks until one of three
    things happens: end of stream, a transport error, a write error. *)
Lemma receiving_summary f recvs : forall se l w,
  file l = Some f ->
  exists l1 w1,
    wrote f w w1 /\ same_session l l1
    /\ (UploadVideo_loop recvs se l w = UploadVideo_eof se l1 w1
        \/ (exists err,
              UploadVideo_loop recvs se l w
              = (Returns (Status Unknown ("Stream error: " +:+ err)), l1, w1))
        \/ (exists b,
              snd (fst (os.Write f b w1)) = false
              /\ UploadVideo_loop recvs se l w
                 = (Returns (Status Internal
                               ("Write error: " +:+ os.Write_error f b w1)), l1,
                    snd (os.Write f b w1)))).
Proof.
  induction recvs as [|[filename content|err] rest IH]; intros se l w Hf;
    destruct l as [fl vid sz ds]; simpl in Hf; subst fl.
  - eexists _, w. split; [apply wrote_refl|]. split; [now repeat split|].
    left. reflexivity.
  - rewrite UploadVideo_loop_Msg. cbn [file]. unfold write_chunk. cbn [file videoID fileSize deferred].
    destruct (os.Write f content w) as [[n ok] w2] eqn:Hw. destruct ok.
    + destruct (IH se {| file := Some f; videoID := vid;
                         fileSize := wrap_int (sz + Z.of_nat n);
                         deferred := ds |} w2 eq_refl)
        as (l1 & w1 & Hwr & Hsame & Hcases).
      exists l1, w1. split; [exact (wrote_step f content w n w2 w1 Hw Hwr)|].
      split; [exact Hsame | exact Hcases].
    + eexists _, w. split; [apply wrote_refl|]. split; [now repeat split|].
      right. right. exists content. rewrite Hw. split; reflexivity.
  - eexists _, w. split; [apply wrote_refl|]. split; [now repeat split|].
    right. left. exists err. reflexivity.
Qed.

Lemma AddJob_results job wp :
  (closed (JobQueue wp) = true /\ server.AddJob job wp = Panic SendOnClosedChannel)
  \/ (closed (JobQueue wp) = false /\ cap (JobQueue wp) <= server.queue_len wp
      /\ server.AddJob job wp = Ok (false, wp))
  \/ (closed (JobQueue wp) = false /\ server.queue_len wp < cap (JobQueue wp)
      /\ server.AddJob job wp = Ok (true, server.enqueued job wp)).
Proof.
  unfold server.AddJob, chan_try_send, server.queue_len, server.enqueued.
  destruct (closed (JobQueue wp)); [left; auto | right].
  destruct (Z.ltb_spec (Z.of_nat (length (buf (JobQueue wp)))) (cap (JobQueue wp)));
    [right | left]; auto.
Qed.

(** How a session that has created its file [f] can end, with the calls it
    makes after the last chunk written ([suffix]), the pool and the
    destination file it leaves. *)
Inductive session_exit (f : File) (id : string) (w w' : World)
    : exit rpc_result -> list Event -> Prop :=
  | exit_stream_error err :
      pool w' = pool w ->
      session_exit f id w w'
        (Returns (Status Unknown ("Stream error: " +:+ err)))
        [EvClose f true]
  | exit_write_error n err :
      pool w' = pool w ->
      session_exit f id w w'
        (Returns (Status Internal ("Write error: " +:+ err)))
        [EvWrite f n false; EvClose f true]
  | exit_queue_closed :
      pool w' = pool w ->
      closed (JobQueue (pool w)) = true ->
      session_exit f id w w'
        (Panics SendOnClosedChannel)
        [EvClose f true; EvClose f false]
  | exit_rejected :
      pool w' = pool w ->
      server.AddJob (mkJob (file_name f) id) (pool w) = Ok (false, pool w) ->
      fs w' !! file_name f = None ->
      session_exit f id w w'
        (Returns (Status ResourceExhausted "Server busy, queue full"))
        [EvClose f true; EvAddJob (mkJob (file_name f) id) false;
         EvLog Warn "Queue full, dropping video"; EvRemove (file_name f) true;
         EvClose f false]
  | exit_admitted r :
      server.AddJob (mkJob (file_name f) id) (pool w) = Ok (true, pool w') ->
      pool w' = server.enqueued (mkJob (file_name f) id) (pool w) ->
      (exists c, fs w' !! file_name f = Some (Regular c)) ->
      (r = UploadStatus "Upload successful" true id
       \/ exists c, r = Status c "SendAndClose") ->
      session_exit f id w w'
        (Returns r)
        [EvClose f true; EvAddJob (mkJob (file_name f) id) true;
         EvLog Info "Upload Queued"; EvClose f false].

Lemma first_chunk_created filename content rest se w f w0 :
  os.Create (save_path (stream_video_id filename)) w = (Some f, w0) ->
  UploadVideo_loop (Msg filename content :: rest) se no_locals w
  = UploadVideo_loop (Msg filename content :: rest) se
      {| file := Some f; videoID := stream_video_id filename;
         fileSize := 0; deferred := [f] |} w0.
Proof.
  intros Hc. rewrite !UploadVideo_loop_Msg. cbn [file no_locals].
  rewrite Hc. reflexivity.
Qed.

Lemma first_chunk_failed filename content rest se w w0 :
  os.Create (save_path (stream_video_id filename)) w = (None, w0) ->
  UploadVideo (Msg filename content :: rest) se w
  = (Returns (Status Internal
                ("Failed to create file: "
                 +:+ os.Create_error (save_path (stream_video_id filename)) w)), w0).
Proof.
  intros Hc. unfold UploadVideo. rewrite UploadVideo_loop_Msg. cbn [file no_locals].
  rewrite Hc. reflexivity.
Qed.

(** The handler, once its loop is left: the deferred calls run. *)
Lemma UploadVideo_run recvs se w e l w1 :
  UploadVideo_loop recvs se no_locals w = (e, l, w1) ->
  UploadVideo recvs se w = (e, run_deferred (deferred l) w1).
Proof. intros H. unfold UploadVideo. now rewrite H. Qed.

Lemma not_in_after_removal (x : nat) (X : gset nat) : x ∉ X ∖ {[x]}.
Proof.
  intros H. apply elem_of_difference in H as [_ H]. apply H.
  now apply elem_of_singleton.
Qed.

Lemma in_after_insertion (x : nat) (X : gset nat) : x ∈ {[x]} ∪ X.
Proof. apply elem_of_union_l. now apply elem_of_singleton. Qed.

Lemma Create_ok path w f w0 :
  os.Create path w = (Some f, w0) ->
  file_name f = path
  /\ file_id f = next_file w
  /\ open_files w0 = {[file_id f]} ∪ open_files w
  /\ fs w0 = <[path := Regular []]> (fs w)
  /\ trace w0 = trace w ++ [EvCreate path (Some f)]
  /\ pool w0 = pool w
  /\ next_file w0 = S (next_file w)
  /\ fs w !! path <> Some Directory
  /\ os.Create_errno path (fs w) = None.
Proof.
  intros Hc. destruct (Create_result path w)
    as [(reclaimed & He & Hcr & Hnd) | (e & _ & Hcr)]; rewrite Hcr in Hc; [|discriminate].
  injection Hc as <- <-. now repeat split.
Qed.

(** A session that has created its file: what it logs, what it leaves. *)
Lemma session_after_create filename content rest se w f w0 :
  os.Create (save_path (stream_video_id filename)) w = (Some f, w0) ->
  exists e w' sizes suffix,
    UploadVideo (Msg filename content :: rest) se w = (e, w')
    /\ trace w' = trace w
                  ++ EvCreate (save_path (stream_video_id filename)) (Some f)
                     :: writes f sizes ++ suffix
    /\ open_files w' = ({[file_id f]} ∪ open_files w) ∖ {[file_id f]}
    /\ session_exit f (stream_video_id filename) w w' e suffix.
Proof.
  intros Hc. pose proof (first_chunk_created filename content rest se w f w0 Hc) as Hloop.
  apply Create_ok in Hc as (Hname & Hid & Hopen0 & Hfs0 & Htr0 & Hpool0 & _).
  set (id := stream_video_id filename) in *.
  destruct (receiving_summary f (Msg filename content :: rest) se
              {| file := Some f; videoID := id; fileSize := 0; deferred := [f] |}
              w0 eq_refl)
    as (l1 & w1 & [Ho Hp Hn [sizes Ht] Hfile Hoth] & (Hf1 & Hv1 & Hd1) & Hcases).
  destruct l1 as [fl vid sz ds]. cbn [file videoID deferred] in Hf1, Hv1, Hd1.
  subst fl vid ds.
  assert (Hopen : file_id f ∈ open_files w1).
  { rewrite Ho, Hopen0. apply in_after_insertion. }
  assert (Hreg : exists c, fs w1 !! file_name f = Some (Regular c)).
  { apply (Hfile []). rewrite Hfs0, Hname. apply lookup_insert_eq. }
  assert (Ht0 : trace w1 = trace w ++ EvCreate (save_path id) (Some f)
                                     :: writes f sizes).
  { rewrite Ht, Htr0. now rewrite <- app_assoc. }
  assert (Ho0 : open_files w1 = {[file_id f]} ∪ open_files w).
  { now rewrite Ho. }
  assert (Hp0 : pool w1 = pool w).
  { now rewrite Hp. }
  clear Ho Hp Hn Ht Hfile Hoth Hopen0 Hfs0 Htr0 Hpool0.
  unfold UploadVideo. rewrite Hloop. clear Hloop.
  destruct Hcases as [E | [[err E] | (b & Hb & E)]]; rewrite E; clear E.
  - (* end of stream *)
    unfold UploadVideo_eof. cbn [file videoID]. rewrite (Close_open f w1 Hopen).
    cbn [snd]. unfold AddJob. world_simpl.
    destruct (AddJob_results (mkJob (file_name f) id) (pool w1))
      as [[Hcl E] | [(Hcl & Hfull & E) | (Hcl & Hroom & E)]]; rewrite E.
    + (* the queue was closed *)
      cbn [deferred run_deferred].
      rewrite Close_closed by apply not_in_after_removal.
      eexists _, _, sizes, _. split; [reflexivity|]. world_simpl. rewrite Ht0, Ho0.
      split; [|split; [reflexivity|]].
      * trace_eq.
      * apply exit_queue_closed; [world_simpl; exact Hp0 | now rewrite <- Hp0].
    + (* the queue was full *)
      destruct Hreg as [c Hreg].
      unfold os.Remove. world_simpl. cbn [Filename]. rewrite Hreg.
      cbn [deferred run_deferred snd].
      rewrite Close_closed by apply not_in_after_removal.
      eexists _, _, sizes, _. split; [reflexivity|]. world_simpl. rewrite Ht0, Ho0.
      split; [|split; [reflexivity|]].
      * trace_eq.
      * apply exit_rejected; world_simpl;
          [exact Hp0 | now rewrite <- Hp0 | apply lookup_delete_eq].
    + (* admitted *)
      assert (Hexit : forall r,
        (r = UploadStatus "Upload successful" true id
         \/ exists c, r = Status c "SendAndClose") ->
        exists e w' sizes0 suffix,
          (Returns r,
           run_deferred [f]
             (slog Info "Upload Queued"
                (emit (EvAddJob (mkJob (file_name f) id) true)
                   (set_pool (server.enqueued (mkJob (file_name f) id) (pool w1))
                      (emit (EvClose f true)
                         {| fs := fs w1; free := free w1;
                            open_files := open_files w1 ∖ {[file_id f]};
                            next_file := next_file w1; pool := pool w1;
                            trace := trace w1 |})))))
          = (e, w')
          /\ trace w' = trace w ++ EvCreate (save_path id) (Some f)
                                  :: writes f sizes0 ++ suffix
          /\ open_files w' = ({[file_id f]} ∪ open_files w) ∖ {[file_id f]}
          /\ session_exit f id w w' e suffix).
      { intros r Hr. cbn [run_deferred].
        rewrite Close_closed by apply not_in_after_removal.
        eexists _, _, sizes, _. split; [reflexivity|]. world_simpl. rewrite Ht0, Ho0.
        split; [|split; [reflexivity|]].
        - trace_eq.
        - apply exit_admitted; world_simpl.
          + rewrite <- Hp0. exact E.
          + now rewrite <- Hp0.
          + exact Hreg.
          + exact Hr. }
      destruct se as [c|]; cbn [deferred]; apply Hexit; [right; eauto | now left].
  - (* transport error *)
    cbn [deferred run_deferred]. rewrite (Close_open f w1 Hopen).
    eexists _, _, sizes, _. split; [reflexivity|]. world_simpl. rewrite Ht0, Ho0.
    split; [|split; [reflexivity|]].
    + trace_eq.
    + apply exit_stream_error. world_simpl. exact Hp0.
  - (* write error *)
    destruct (os.Write f b w1) as [[n ok] w2] eqn:Hw. cbn [fst snd] in Hb. subst ok.
    destruct (Write_effect f b w1 n false w2 Hw) as (Ho2 & Hp2 & _ & Ht2 & _).
    cbn [deferred run_deferred snd].
    rewrite Close_open by (rewrite Ho2; exact Hopen).
    eexists _, _, sizes, _. split; [reflexivity|]. world_simpl.
    rewrite Ht2, Ht0, Ho2, Ho0.
    split; [|split; [reflexivity|]].
    + trace_eq.
    + apply exit_write_error. world_simpl. now rewrite Hp2.
Qed.

Lemma calls_between_same w : calls_between w w = [].
Proof. unfold calls_between. apply drop_all. Qed.

Lemma UploadVideo_no_chunk se w :
  UploadVideo [] se w = (Panics NilDereference, w).
Proof. reflexivity. Qed.

Lemma UploadVideo_stream_error err rest se w :
  UploadVideo (RecvErr err :: rest) se w
  = (Returns (Status Unknown ("Stream error: " +:+ err)), w).
Proof. reflexivity. Qed.

(** C10. When the stream ends before any chunk was received, [file] is
    still nil and building the job reads [file.Name()] on it: the handler
    panics with a nil dereference.  In every other case (a first result that
    is a chunk or a transport error) the handler does not fault this
    way: the nil-handle fault happens exactly when no chunk was received. *)
Theorem nil_file_fault_iff_no_chunk (recvs : list recv) (se : option code) (w : World) :
  UploadVideo [] se w = (Panics NilDereference, w)
  /\ (fst (UploadVideo recvs se w) = Panics NilDereference <-> recvs = []).
Proof.
  split; [reflexivity|]. split.
  - destruct recvs as [|[filename content|err] rest]; [reflexivity | | discriminate].
    intros H. exfalso.
    destruct (os.Create (save_path (stream_video_id filename)) w) as [[f|] w0] eqn:Hc.
    + destruct (session_after_create filename content rest se w f w0 Hc)
        as (e & w' & sizes & suffix & E & _ & _ & Hexit).
      rewrite E in H. cbn [fst] in H. subst e. inversion Hexit.
    + rewrite (first_chunk_failed filename content rest se w w0 Hc) in H.
      discriminate H.
  - intros ->. reflexivity.
Qed.

Lemma closings_app f tr1 tr2 :
  closings f (tr1 ++ tr2) = (closings f tr1 + closings f tr2)%nat.
Proof. unfold closings. now rewrite List.filter_app, length_app. Qed.

Lemma creations_app tr1 tr2 : creations (tr1 ++ tr2) = creations tr1 ++ creations tr2.
Proof. unfold creations. apply omap_app. Qed.

Lemma admissions_app tr1 tr2 :
  admissions (tr1 ++ tr2) = admissions tr1 ++ admissions tr2.
Proof. unfold admissions. apply omap_app. Qed.

Lemma close_calls_app f tr1 tr2 :
  close_calls f (tr1 ++ tr2) = (close_calls f tr1 + close_calls f tr2)%nat.
Proof. unfold close_calls. now rewrite List.filter_app, length_app. Qed.

(** The views of the calls a session makes after its last chunk. *)
Lemma session_exit_views f id w w' e suffix :
  session_exit f id w w' e suffix ->
  creations suffix = []
  /\ closings f suffix = 1%nat
  /\ (admissions suffix = []
      \/ (admissions suffix = [(mkJob (file_name f) id, false)]
          /\ e = Returns (Status ResourceExhausted "Server busy, queue full")
          /\ pool w' = pool w
          /\ fs w' !! file_name f = None)
      \/ (admissions suffix = [(mkJob (file_name f) id, true)]
          /\ pool w' = server.enqueued (mkJob (file_name f) id) (pool w))).
Proof.
  intros H. destruct H; unfold closings; cbn [creations admissions omap list_omap List.filter];
    rewrite ?File_eqb_refl; cbn [length]; (split; [reflexivity|]); (split; [reflexivity|]).
  - now left.
  - now left.
  - now left.
  - right; left. auto.
  - right; right. auto.
Qed.

(** The [Close] calls of a session: one when it ends on a transport or write
    error (the deferred call), two when it reaches the end of the stream (the
    end-of-stream block, then the deferred call).  The two kinds of exit are
    told apart by what the session did: after a transport or write error it
    returns an [Unknown] or [Internal] status without an admission attempt;
    at the end of the stream it makes an admission attempt, which is logged
    unless [AddJob] panics. *)
Lemma session_exit_close_calls f id w w' e suffix :
  session_exit f id w w' e suffix ->
  (close_calls f suffix = 1%nat
   /\ last suffix = Some (EvClose f true)
   /\ admissions suffix = []
   /\ exists c msg, e = Returns (Status c msg) /\ (c = Unknown \/ c = Internal))
  \/ (close_calls f suffix = 2%nat
      /\ head suffix = Some (EvClose f true)
      /\ last suffix = Some (EvClose f false)
      /\ (admissions suffix <> [] \/ exists p, e = Panics p)).
Proof.
  intros H. destruct H; unfold close_calls; cbn [List.filter admissions omap list_omap];
    rewrite ?File_eqb_refl; cbn [length List.filter].
  - left. split; [reflexivity|]. split; [reflexivity|]. split; [reflexivity|]. eauto.
  - left. split; [reflexivity|]. split; [reflexivity|]. split; [reflexivity|]. eauto.
  - right. split; [reflexivity|]. split; [reflexivity|]. split; [reflexivity|].
    right. eauto.
  - right. split; [reflexivity|]. split; [reflexivity|]. split; [reflexivity|].
    left. discriminate.
  - right. split; [reflexivity|]. split; [reflexivity|]. split; [reflexivity|].
    left. discriminate.
Qed.

(** C5, amended.  In every streaming session the destination file object
    is created at most once, by the first call the session makes, on its
    first chunk; and on every way out of the session (end of stream with the
    job admitted or rejected or the queue closed, transport error, write
    error) a file object that was created has been released exactly once
    (exactly one [Close] call found it open) and is not open when the handler
    is left.  [Close] itself is called once or twice.  It is called once
    exactly on the transport-error and write-error exits (the handler returns
    an [Unknown] or [Internal] status and has made no admission attempt): by
    the deferred call, which closes the file.  It is called twice exactly on
    the end-of-stream exits (an admission attempt was made: the job was
    admitted or rejected, or [AddJob] panicked on the closed queue): by the
    end-of-stream block first, and by the deferred call last, on the file
    already closed. *)
Theorem file_created_once_released_once
    (recvs : list recv) (se : option code) (w : World) :
  let w' := snd (UploadVideo recvs se w) in
  let calls := calls_between w w' in
  (length (creations calls) <= 1)%nat
  /\ forall f, In f (creations calls) ->
       (exists filename content rest,
          recvs = Msg filename content :: rest
          /\ head calls = Some (EvCreate (save_path (stream_video_id filename)) (Some f)))
       /\ closings f calls = 1%nat
       /\ (file_id f ∉ open_files w')
       /\ (close_calls f calls = 1%nat \/ close_calls f calls = 2%nat)
       /\ (close_calls f calls = 1%nat
           <-> admissions calls = []
               /\ exists c msg, fst (UploadVideo recvs se w) = Returns (Status c msg)
                                /\ (c = Unknown \/ c = Internal))
       /\ (close_calls f calls = 2%nat
           <-> admissions calls <> []
               \/ exists p, fst (UploadVideo recvs se w) = Panics p)
       /\ (close_calls f calls = 1%nat -> last calls = Some (EvClose f true))
       /\ (close_calls f calls = 2%nat -> last calls = Some (EvClose f false)).
Proof.
  intros w' calls. subst w' calls.
  destruct recvs as [|[filename content|err] rest].
  - rewrite UploadVideo_no_chunk. cbn [snd]. rewrite calls_between_same.
    split; [simpl; lia | intros f []].
  - destruct (os.Create (save_path (stream_video_id filename)) w) as [[f|] w0] eqn:Hc.
    + destruct (session_after_create filename content rest se w f w0 Hc)
        as (e & w' & sizes & suffix & E & Ht & Ho & Hexit).
      rewrite E. cbn [fst snd]. rewrite (calls_between_app _ _ _ Ht).
      destruct (session_exit_views _ _ _ _ _ _ Hexit) as (Hcs & Hcl & _).
      destruct (writes_views f f sizes) as (Wc & Wcc & Wcl & Wa & _).
      assert (Hcre : creations (EvCreate (save_path (stream_video_id filename)) (Some f)
                                  :: writes f sizes ++ suffix) = [f]).
      { change (EvCreate ?p ?r :: ?l) with ([EvCreate p r] ++ l).
        rewrite !creations_app, Wc, Hcs. reflexivity. }
      rewrite Hcre. split; [simpl; lia|].
      intros g [<-|[]]. split; [|split; [|split]].
      * exists filename, content, rest. split; reflexivity.
      * change (EvCreate ?p ?r :: ?l) with ([EvCreate p r] ++ l).
        rewrite !closings_app, Wcl, Hcl. reflexivity.
      * rewrite Ho. apply not_in_after_removal.
      * assert (Hcc : close_calls f (EvCreate (save_path (stream_video_id filename)) (Some f)
                                       :: writes f sizes ++ suffix)
                      = close_calls f suffix).
        { change (EvCreate ?p ?r :: ?l) with ([EvCreate p r] ++ l).
          now rewrite !close_calls_app, Wcc. }
        assert (Had : admissions (EvCreate (save_path (stream_video_id filename)) (Some f)
                                    :: writes f sizes ++ suffix)
                      = admissions suffix).
        { change (EvCreate ?p ?r :: ?l) with ([EvCreate p r] ++ l).
          now rewrite !admissions_app, Wa. }
        assert (Hlast : forall ev, last suffix = Some ev ->
                  last (EvCreate (save_path (stream_video_id filename)) (Some f)
                          :: writes f sizes ++ suffix) = Some ev).
        { intros ev Hev. change (EvCreate ?p ?r :: ?l) with ([EvCreate p r] ++ l).
          rewrite app_assoc. destruct suffix as [|ev' suffix]; [discriminate Hev|].
          rewrite last_app_cons. exact Hev. }
        rewrite Hcc, Had.
        destruct (session_exit_close_calls _ _ _ _ _ _ Hexit)
          as [(Hn & Hl & Ha & (c & msg & He & Hc')) | (Hn & _ & Hl & Hwhy)]; rewrite Hn.
        -- split; [now left|]. split; [|split; [|split]].
           ++ split; [intros _; split; [exact Ha | eauto] | reflexivity].
           ++ split; [discriminate|]. intros [Hne | [p Hp]];
                [contradiction | rewrite He in Hp; discriminate Hp].
           ++ intros _. now apply Hlast.
           ++ discriminate.
        -- split; [now right|]. split; [|split; [|split]].
           ++ split; [discriminate|]. intros [Ha (c & msg & He & _)].
              destruct Hwhy as [Hne | [p Hp]];
                [contradiction | rewrite He in Hp; discriminate Hp].
           ++ split; [intros _; exact Hwhy | reflexivity].
           ++ discriminate.
           ++ intros _. now apply Hlast.
    + rewrite (first_chunk_failed filename content rest se w w0 Hc). cbn [snd].
      destruct (Create_result (save_path (stream_video_id filename)) w)
        as [(r & _ & Hcr & _) | (e & _ & Hcr)]; rewrite Hcr in Hc; [discriminate|].
      injection Hc as <-.
      rewrite (calls_between_app w _ [EvCreate (save_path (stream_video_id filename)) None])
        by reflexivity.
      split; [simpl; lia | intros f []].
  - rewrite UploadVideo_stream_error. cbn [snd]. rewrite calls_between_same.
    split; [simpl; lia | intros f []].
Qed.

End StreamingSession.

(** ** Upload sessions: the HTTP path *)

Section WebSession.

Import main.

#[local] Arguments os.Create : simpl never.
#[local] Arguments os.Write : simpl never.
#[local] Arguments os.Close : simpl never.
#[local] Arguments os.Remove : simpl never.
#[local] Arguments filepath.Join : simpl never.
#[local] Arguments filepath.Base : simpl never.
#[local] Arguments Sprintf_s : simpl never.

(** How an HTTP upload that has created its file can end, with the calls it
    makes after closing the file. *)
Inductive web_exit (path id : string) (w w' : World)
    : bool -> exit Response -> list Event -> Prop :=
  | web_copy_failed :
      pool w' = pool w ->
      web_exit path id w w' false
        (Returns (http_Error "Failed to save file" StatusInternalServerError)) []
  | web_queue_closed :
      pool w' = pool w ->
      closed (JobQueue (pool w)) = true ->
      web_exit path id w w' true (Panics SendOnClosedChannel) []
  | web_rejected :
      pool w' = pool w ->
      server.AddJob (mkJob path id) (pool w) = Ok (false, pool w) ->
      fs w' !! path = None ->
      web_exit path id w w' true
        (Returns (http_Error "Server busy (Queue Full)" StatusServiceUnavailable))
        [EvAddJob (mkJob path id) false;
         EvLog Warn "Web upload dropped (Queue Full)"; EvRemove path true]
  | web_admitted :
      pool w' = server.enqueued (mkJob path id) (pool w) ->
      (exists c, fs w' !! path = Some (Regular c)) ->
      web_exit path id w w' true
        (Returns {| StatusCode := StatusOK; Body := Text "Upload successful" |})
        [EvAddJob (mkJob path id) true; EvLog Info "Web Upload Queued"].

Lemma handleWebUpload_POST r w filename content :
  Method r = "POST" ->
  FormFile_video r = Some (filename, content) ->
  handleWebUpload r w =
    match os.Create (save_path (web_video_id filename)) w with
    | (None, w) =>
        (Returns (http_Error "Failed to create file" StatusInternalServerError), w)
    | (Some dst, w) =>
        let '((_, copied), w) := os.Write dst content w in
        let w := snd (os.Close dst w) in
        if negb copied then
          (Returns (http_Error "Failed to save file" StatusInternalServerError), w)
        else
          match AddJob {| Filename := save_path (web_video_id filename);
                          VideoID := web_video_id filename |} w with
          | (Panic p, w) => (Panics p, w)
          | (Ok false, w) =>
              (Returns (http_Error "Server busy (Queue Full)" StatusServiceUnavailable),
               snd (os.Remove (save_path (web_video_id filename))
                      (slog Warn "Web upload dropped (Queue Full)" w)))
          | (Ok true, w) =>
              (Returns {| StatusCode := StatusOK; Body := Text "Upload successful" |},
               slog Info "Web Upload Queued" w)
          end
    end.
Proof.
  intros Hm Hf. unfold handleWebUpload. rewrite Hm, Hf. reflexivity.
Qed.

Lemma web_after_create r w filename content dst w0 :
  Method r = "POST" ->
  FormFile_video r = Some (filename, content) ->
  os.Create (save_path (web_video_id filename)) w = (Some dst, w0) ->
  exists e w' n copied suffix,
    handleWebUpload r w = (e, w')
    /\ trace w' = trace w
                  ++ EvCreate (save_path (web_video_id filename)) (Some dst)
                     :: EvWrite dst n copied :: EvClose dst true :: suffix
    /\ open_files w' = ({[file_id dst]} ∪ open_files w) ∖ {[file_id dst]}
    /\ web_exit (save_path (web_video_id filename)) (web_video_id filename)
         w w' copied e suffix.
Proof.
  intros Hm Hf Hc. rewrite (handleWebUpload_POST r w filename content Hm Hf), Hc.
  apply Create_ok in Hc as (Hname & Hid & Hopen0 & Hfs0 & Htr0 & Hpool0 & _).
  set (id := web_video_id filename) in *. set (path := save_path id) in *.
  assert (Hopen : file_id dst ∈ open_files w0).
  { rewrite Hopen0. apply in_after_insertion. }
  destruct (os.Write dst content w0) as [[n copied] w1] eqn:Hw. destruct copied.
  - (* the content was copied *)
    apply Write_ok in Hw as [_ ->]. cbn [negb].
    rewrite Close_open by (world_simpl; exact Hopen). cbn [snd].
    unfold AddJob. world_simpl.
    assert (Hreg : (alter (os.append_content content) (file_name dst) (fs w0)) !! path
                   = Some (Regular content)).
    { rewrite Hname, lookup_alter_eq, Hfs0, lookup_insert_eq. reflexivity. }
    destruct (AddJob_results (mkJob path id) (pool w0))
      as [[Hcl E] | [(Hcl & Hfull & E) | (Hcl & Hroom & E)]]; rewrite E.
    + eexists _, _, n, true, _. split; [reflexivity|]. world_simpl.
      rewrite Htr0, Hopen0. split; [|split; [reflexivity|]].
      * trace_eq.
      * apply web_queue_closed; [world_simpl; exact Hpool0 | now rewrite <- Hpool0].
    + unfold os.Remove. world_simpl. rewrite Hreg. cbn [snd].
      eexists _, _, n, true, _. split; [reflexivity|]. world_simpl.
      rewrite Htr0, Hopen0. split; [|split; [reflexivity|]].
      * trace_eq.
      * apply web_rejected; world_simpl;
          [exact Hpool0 | now rewrite <- Hpool0 | apply lookup_delete_eq].
    + eexists _, _, n, true, _. split; [reflexivity|]. world_simpl.
      rewrite Htr0, Hopen0. split; [|split; [reflexivity|]].
      * trace_eq.
      * apply web_admitted; world_simpl; [now rewrite <- Hpool0 | eauto].
  - (* the copy failed *)
    destruct (Write_effect dst content w0 n false w1 Hw) as (Ho1 & Hp1 & _ & Ht1 & _).
    cbn [negb]. rewrite Close_open by (rewrite Ho1; exact Hopen). cbn [snd].
    eexists _, _, n, false, _. split; [reflexivity|]. world_simpl.
    rewrite Ht1, Htr0, Ho1, Hopen0. split; [|split; [reflexivity|]].
    + trace_eq.
    + apply web_copy_failed. world_simpl. now rewrite Hp1.
Qed.

End WebSession.

(** ** Admission rejection and file creation, on both paths *)

Section UploadOutcomes.

Import main.

#[local] Arguments os.Create : simpl never.
#[local] Arguments filepath.Join : simpl never.
#[local] Arguments filepath.Base : simpl never.
#[local] Arguments Sprintf_s : simpl never.

Lemma Create_failed path w w0 :
  os.Create path w = (None, w0) -> w0 = emit (EvCreate path None) w.
Proof.
  intros Hc. destruct (Create_result path w) as [(r & _ & Hcr & _) | (e & _ & Hcr)];
    rewrite Hcr in Hc; [discriminate | now injection Hc as <-].
Qed.

Lemma stream_rejected recvs se w job :
  In (job, false) (admissions (calls_between w (snd (UploadVideo recvs se w)))) ->
  fst (UploadVideo recvs se w)
  = Returns (Status ResourceExhausted "Server busy, queue full")
  /\ fs (snd (UploadVideo recvs se w)) !! Filename job = None
  /\ pool (snd (UploadVideo recvs se w)) = pool w
  /\ admissions (calls_between w (snd (UploadVideo recvs se w))) = [(job, false)]
  /\ exists filename content rest,
       recvs = Msg filename content :: rest
       /\ job = mkJob (save_path (stream_video_id filename)) (stream_video_id filename).
Proof.
  destruct recvs as [|[filename content|err] rest].
  - rewrite UploadVideo_no_chunk. cbn [snd]. rewrite calls_between_same. intros [].
  - destruct (os.Create (save_path (stream_video_id filename)) w) as [[f|] w0] eqn:Hc.
    + destruct (session_after_create filename content rest se w f w0 Hc)
        as (e & w' & sizes & suffix & E & Ht & Ho & Hexit).
      apply Create_ok in Hc as (Hname & _).
      rewrite E. cbn [fst snd]. rewrite (calls_between_app _ _ _ Ht).
      destruct (writes_views f f sizes) as (_ & _ & _ & Wa & _).
      change (EvCreate ?p ?r :: ?l) with ([EvCreate p r] ++ l).
      rewrite !admissions_app, Wa. cbn [admissions omap list_omap app].
      destruct (session_exit_views _ _ _ _ _ _ Hexit)
        as (_ & _ & [Ha | [(Ha & He & Hp & Hfs) | (Ha & Hp)]]); rewrite Ha.
      * intros [].
      * intros [Hj|[]]. injection Hj as <-. cbn [Filename].
        rewrite Hname in *. repeat split; try assumption.
        exists filename, content, rest. split; reflexivity.
      * intros [Hj|[]]. discriminate Hj.
    + rewrite (first_chunk_failed filename content rest se w w0 Hc). cbn [snd].
      apply Create_failed in Hc as ->.
      rewrite (calls_between_app w _ [EvCreate (save_path (stream_video_id filename)) None])
        by reflexivity.
      intros [].
  - rewrite UploadVideo_stream_error. cbn [snd]. rewrite calls_between_same. intros [].
Qed.

Lemma web_rejected_upload r w job :
  In (job, false) (admissions (calls_between w (snd (handleWebUpload r w)))) ->
  fst (handleWebUpload r w)
  = Returns (http_Error "Server busy (Queue Full)" StatusServiceUnavailable)
  /\ fs (snd (handleWebUpload r w)) !! Filename job = None
  /\ pool (snd (handleWebUpload r w)) = pool w
  /\ admissions (calls_between w (snd (handleWebUpload r w))) = [(job, false)]
  /\ exists filename content,
       FormFile_video r = Some (filename, content)
       /\ job = mkJob (save_path (web_video_id filename)) (web_video_id filename).
Proof.
  destruct (String.eqb (Method r) "POST") eqn:Hm.
  2:{ unfold handleWebUpload. rewrite Hm. cbn [negb snd].
      rewrite calls_between_same. intros []. }
  apply String.eqb_eq in Hm.
  destruct (FormFile_video r) as [[filename content]|] eqn:Hf.
  2:{ unfold handleWebUpload. rewrite Hm, Hf. cbn [snd].
      rewrite calls_between_same. intros []. }
  destruct (os.Create (save_path (web_video_id filename)) w) as [[dst|] w0] eqn:Hc.
  - destruct (web_after_create r w filename content dst w0 Hm Hf Hc)
      as (e & w' & n & copied & suffix & E & Ht & Ho & Hexit).
    rewrite E. cbn [fst snd]. rewrite (calls_between_app _ _ _ Ht).
    destruct Hexit; cbn [admissions omap list_omap].
    + intros [].
    + intros [].
    + intros [Hj|[]]. injection Hj as <-. cbn [Filename].
      repeat split; try assumption. exists filename, content. split; reflexivity.
    + intros [Hj|[]]. discriminate Hj.
  - rewrite (handleWebUpload_POST r w filename content Hm Hf), Hc. cbn [snd].
    apply Create_failed in Hc as ->.
    rewrite (calls_between_app w _ [EvCreate (save_path (web_video_id filename)) None])
      by reflexivity.
    intros [].
Qed.

(** C4. For every upload whose admission attempt is rejected ([AddJob]
    returned false), on the streaming path and on the HTTP path: the
    destination file that was written is gone from the file system; no job
    has entered the queue (the pool is as before, and the rejected attempt is
    the only one made); and the caller gets the resource-exhaustion status
    (gRPC [ResourceExhausted], HTTP 503), which differs from the statuses the
    handlers use for file-system errors ([Internal], 500) and for transport or
    malformed-input errors ([Unknown], 400). *)
Theorem rejected_upload_is_cleaned_up :
  (forall recvs se w job,
     In (job, false) (admissions (calls_between w (snd (UploadVideo recvs se w)))) ->
     fst (UploadVideo recvs se w)
     = Returns (Status ResourceExhausted "Server busy, queue full")
     /\ fs (snd (UploadVideo recvs se w)) !! Filename job = None
     /\ pool (snd (UploadVideo recvs se w)) = pool w
     /\ admissions (calls_between w (snd (UploadVideo recvs se w))) = [(job, false)]
     /\ exists filename content rest,
          recvs = Msg filename content :: rest
          /\ job = mkJob (save_path (stream_video_id filename)) (stream_video_id filename))
  /\ (forall r w job,
        In (job, false) (admissions (calls_between w (snd (handleWebUpload r w)))) ->
        fst (handleWebUpload r w)
        = Returns (http_Error "Server busy (Queue Full)" StatusServiceUnavailable)
        /\ fs (snd (handleWebUpload r w)) !! Filename job = None
        /\ pool (snd (handleWebUpload r w)) = pool w
        /\ admissions (calls_between w (snd (handleWebUpload r w))) = [(job, false)]
        /\ exists filename content,
             FormFile_video r = Some (filename, content)
             /\ job = mkJob (save_path (web_video_id filename)) (web_video_id filename))
  /\ code_number ResourceExhausted <> code_number Internal
  /\ code_number ResourceExhausted <> code_number Unknown
  /\ StatusServiceUnavailable <> StatusInternalServerError
  /\ StatusServiceUnavailable <> StatusBadRequest.
Proof.
  split; [exact stream_rejected|]. split; [exact web_rejected_upload|].
  repeat split; discriminate.
Qed.

Lemma parent_errno_is_dir path m :
  os.parent_errno path m = None <-> os.parent_is_dir path m = true.
Proof.
  unfold os.parent_errno, os.parent_is_dir.
  destruct (os.parent path) as [d|]; [|easy].
  destruct (String.eqb d ""); [easy|].
  destruct (m !! d) as [[c|]|]; easy.
Qed.

Lemma tl_drop_while_shorter (l : list ascii) :
  existsb filepath.is_sep l = true ->
  (length (tl (filepath.drop_while filepath.not_sep l)) < length l)%nat.
Proof.
  induction l as [|c l IH]; [discriminate|].
  cbn [existsb filepath.drop_while]. unfold filepath.not_sep at 1.
  destruct (filepath.is_sep c); cbn [orb negb tl length]; [lia|].
  intros H. specialize (IH H). lia.
Qed.

Lemma parent_is_shorter path d : os.parent path = Some d -> d <> path.
Proof.
  unfold os.parent.
  destruct (existsb filepath.is_sep (rev (list_ascii_of_string path))) eqn:E;
    [|discriminate].
  intros [= <-] Heq. apply (f_equal list_ascii_of_string) in Heq.
  rewrite list_ascii_of_string_of_list_ascii in Heq.
  apply (f_equal (@length ascii)) in Heq.
  apply tl_drop_while_shorter in E. rewrite !length_rev in *. lia.
Qed.

(** Whether the creation fails does not depend on the file being there. *)
Lemma Create_errno_ignores_the_file path m old :
  m !! path = Some (Regular old) ->
  os.Create_errno path (delete path m) = os.Create_errno path m.
Proof.
  intros Hold. unfold os.Create_errno.
  assert (Hp : os.parent_errno path (delete path m) = os.parent_errno path m).
  { unfold os.parent_errno. destruct (os.parent path) as [d|] eqn:Hd; [|reflexivity].
    rewrite lookup_delete_ne by (intros ->; now apply (parent_is_shorter _ _ Hd)).
    reflexivity. }
  now rewrite Hp, lookup_delete_eq, Hold.
Qed.

Lemma Create_fails_iff path w :
  fst (os.Create path w) = None <-> os.Create_errno path (fs w) <> None.
Proof.
  destruct (Create_result path w) as [(rc & He & Hcr & _) | (e & He & Hcr)];
    rewrite Hcr, He; cbn [fst]; split; (discriminate || congruence).
Qed.

(** C6, amended.  For every session receiving its first chunk, the
    destination file is opened by [os.Create], which is not exclusive.  The
    creation of the destination (of the streaming and of the HTTP upload)
    fails when the derived name is a directory, when its directory
    ([uploads]) does not exist or is not a directory, and when the name
    holds a NUL byte or is longer than a file name may be; whenever the
    creation fails, for these or other reasons, the session ends with an
    [Internal] failure carrying the text of the error (HTTP: 500) having
    made no other call and with no file object open.  An existing
    regular file with the derived name is not protected: the creation fails
    on it exactly when it would fail without it, and when it succeeds the
    file is truncated to empty and reused for this session. *)
Theorem first_chunk_creates_or_truncates
    (filename : string) (content : list byte) (rest : list recv)
    (se : option code) (r : Request) (w : World) :
  let path := save_path (stream_video_id filename) in
  let web_path := save_path (web_video_id filename) in
  let create_fails (p : string) :=
    fs w !! p = Some Directory
    \/ os.parent_is_dir p (fs w) = false
    \/ os.has_NUL p = true
    \/ (os.NAME_MAX < String.length (os.last_component p))%nat in
  (forall p, p = path \/ p = web_path ->
             create_fails p -> fst (os.Create p w) = None)
  /\ (fst (os.Create path w) = None ->
      UploadVideo (Msg filename content :: rest) se w
      = (Returns (Status Internal
                    ("Failed to create file: " +:+ os.Create_error path w)),
         emit (EvCreate path None) w)
      /\ open_files (snd (UploadVideo (Msg filename content :: rest) se w))
         = open_files w)
  /\ (Method r = "POST" -> FormFile_video r = Some (filename, content) ->
      fst (os.Create web_path w) = None ->
      handleWebUpload r w
      = (Returns (http_Error "Failed to create file" StatusInternalServerError),
         emit (EvCreate web_path None) w))
  /\ (forall old, fs w !! path = Some (Regular old) ->
      (fst (os.Create path w) = None
       <-> fst (os.Create path (set_fs (delete path (fs w)) w)) = None)
      /\ forall f w0,
           os.Create path w = (Some f, w0) ->
           fs w0 !! path = Some (Regular [])
           /\ head (calls_between w
                      (snd (UploadVideo (Msg filename content :: rest) se w)))
              = Some (EvCreate path (Some f))).
Proof.
  intros path web_path create_fails. subst create_fails. cbv beta.
  split; [|split; [|split]].
  - intros p _ Hfail. apply Create_fails_iff. intros Hnone.
    apply Create_errno_None in Hnone as (Hnul & _ & Hname & Hpar & Hnd).
    apply parent_errno_is_dir in Hpar.
    destruct Hfail as [H | [H | [H | H]]]; [contradiction | congruence | congruence | lia].
  - intros Hfail.
    destruct (os.Create path w) as [[f|] w0] eqn:Hc; [discriminate|].
    rewrite (first_chunk_failed filename content rest se w w0 Hc).
    apply Create_failed in Hc as ->. split; reflexivity.
  - intros Hm Hf Hfail.
    destruct (os.Create web_path w) as [[f|] w0] eqn:Hc; [discriminate|].
    rewrite (handleWebUpload_POST r w filename content Hm Hf).
    fold web_path. rewrite Hc. apply Create_failed in Hc as ->. reflexivity.
  - intros old Hold. split.
    + rewrite !Create_fails_iff. cbn [fs set_fs].
      now rewrite (Create_errno_ignores_the_file path (fs w) old Hold).
    + intros f w0 Hc.
      destruct (session_after_create filename content rest se w f w0 Hc)
        as (e & w' & sizes & suffix & E & Ht & _).
      apply Create_ok in Hc as (_ & _ & _ & Hfs0 & _).
      split; [rewrite Hfs0; apply lookup_insert_eq|].
      rewrite E. cbn [snd]. now rewrite (calls_between_app _ _ _ Ht).
Qed.

End UploadOutcomes.

(** ** The read path: [GET /api/videos] *)

Section ListVideos.

Import main.

(** The names the loop of [handleListVideos] keeps: the entries that are not
    directories and whose name ends in [.mp4], in the order of the listing. *)
Definition mp4_names (entries : list os.DirEntry) : list string :=
  map os.Name
    (List.filter (λ e, negb (os.IsDir e) && HasSuffix (os.Name e) ".mp4") entries).

Lemma collect_videos_Some entries : forall xs,
  collect_videos entries (Some xs) = Some (xs ++ mp4_names entries).
Proof.
  unfold mp4_names. induction entries as [|e entries IH]; intros xs; simpl.
  - now rewrite app_nil_r.
  - destruct (negb (os.IsDir e) && HasSuffix (os.Name e) ".mp4"); simpl.
    + rewrite IH. now rewrite <- app_assoc.
    + apply IH.
Qed.

Lemma collect_videos_None entries :
  collect_videos entries None =
    match mp4_names entries with
    | [] => None
    | names => Some names
    end.
Proof.
  unfold mp4_names. induction entries as [|e entries IH]; simpl; [reflexivity|].
  destruct (negb (os.IsDir e) && HasSuffix (os.Name e) ".mp4"); simpl.
  - now rewrite collect_videos_Some.
  - exact IH.
Qed.

(** An [uploads] directory without videos: a preview left by a worker and a
    directory whose name ends in [.mp4]. *)
Definition world_without_videos : World :=
  {| fs := <["uploads" := Directory]>
             (<["uploads/video_a_preview.gif" := Regular []]>
                (<["uploads/archive.mp4" := Directory]> ∅));
     free := 1000; open_files := ∅; next_file := 0;
     pool := pool_2_3; trace := [] |}.

(** C9.  When the listing of [uploads] has at least one entry that is not a
    directory and whose name ends in [.mp4], the response is the JSON array
    of exactly these names (in the order of the listing).  When it has none,
    the response is not the empty array: [videos] is still the nil slice that
    [var videos []string] declared, which encodes as [null]. *)
Theorem list_videos_without_mp4_is_null :
  (forall w entries,
     os_ReadDir uploads w = Some entries ->
     handleListVideos w =
       {| StatusCode := StatusOK;
          Body := JSON match mp4_names entries with
                       | [] => JNull
                       | names => JArray names
                       end |})
  /\ os_ReadDir uploads world_without_videos
     = Some [os.mkDirEntry "archive.mp4" true;
             os.mkDirEntry "video_a_preview.gif" false]
  /\ handleListVideos world_without_videos
     = {| StatusCode := StatusOK; Body := JSON JNull |}
  /\ JNull <> JArray [].
Proof.
  split; [|split; [|split]].
  - intros w entries Hr. unfold handleListVideos. rewrite Hr.
    rewrite collect_videos_None. now destruct (mp4_names entries).
  - vm_compute. reflexivity.
  - vm_compute. reflexivity.
  - discriminate.
Qed.

End ListVideos.

(** ** The properties on concrete runs *)

Section Runs.

Import main.

Definition job_of (id : string) : Job :=
  {| Filename := "uploads/" +:+ id; VideoID := id |}.

(** A world whose [uploads] directory already holds [video_a.mp4], with an
    empty queue of capacity 3. *)
Definition world_with_video : World :=
  {| fs := <["uploads" := Directory]>
             (<["uploads/video_a.mp4" := Regular [x41; x42; x43]]> ∅);
     free := 1000; open_files := ∅; next_file := 0;
     pool := pool_2_3; trace := [] |}.

(** The same, with the queue (of capacity 1) full. *)
Definition world_queue_full : World :=
  {| fs := fs world_with_video;
     free := 1000; open_files := ∅; next_file := 0;
     pool := {| JobQueue := {| buf := [job_of "video_a.mp4"]; cap := 1; closed := false |};
                WorkerCount := 2; wg := 2 |};
     trace := [] |}.

(** The same, without the [uploads] directory. *)
Definition world_without_uploads : World :=
  {| fs := ∅; free := 1000; open_files := ∅; next_file := 0;
     pool := pool_2_3; trace := [] |}.

Definition upload_a : list recv := [Msg "a.mp4" [x44]].
Definition upload_c : list recv := [Msg "../c.mp4" [x44; x45]; Msg "" [x46]].
Definition post_c : Request :=
  {| Method := "POST"; FormFile_video := Some ("c.mp4", [x44; x45]) |}.
Definition file_0 (path : string) : File := {| file_id := 0; file_name := path |}.

(** C6, as stated, fails: a session whose derived name is that of an
    existing file succeeds, and the content that the file had is gone. *)
Lemma existing_file_is_truncated_and_reused :
  fs world_with_video !! "uploads/video_a.mp4" = Some (Regular [x41; x42; x43])
  /\ fst (UploadVideo upload_a None world_with_video)
     = Returns (UploadStatus "Upload successful" true "video_a.mp4")
  /\ fs (snd (UploadVideo upload_a None world_with_video)) !! "uploads/video_a.mp4"
     = Some (Regular [x44])
  /\ creations (trace (snd (UploadVideo upload_a None world_with_video)))
     = [file_0 "uploads/video_a.mp4"].
Proof. vm_compute. repeat split. Qed.

Lemma first_chunk_creates_or_truncates_witness :
  save_path (stream_video_id "a.mp4") = "uploads/video_a.mp4"
  /\ fs world_with_video !! save_path (stream_video_id "a.mp4")
     = Some (Regular [x41; x42; x43])
  /\ os.Create (save_path (stream_video_id "a.mp4")) world_with_video
     = (Some (file_0 "uploads/video_a.mp4"),
        snd (os.Create (save_path (stream_video_id "a.mp4")) world_with_video))
  /\ fs (snd (os.Create (save_path (stream_video_id "a.mp4")) world_with_video))
       !! save_path (stream_video_id "a.mp4") = Some (Regular [])
  /\ head (calls_between world_with_video
             (snd (UploadVideo (Msg "a.mp4" [x44] :: []) None world_with_video)))
     = Some (EvCreate (save_path (stream_video_id "a.mp4"))
               (Some (file_0 "uploads/video_a.mp4")))
  /\ os.parent_is_dir (save_path (stream_video_id "a.mp4"))
       (fs world_without_uploads) = false
  /\ fst (os.Create (save_path (stream_video_id "a.mp4")) world_without_uploads) = None
  /\ UploadVideo (Msg "a.mp4" [x44] :: []) None world_without_uploads
     = (Returns (Status Internal
                   ("Failed to create file: "
                    +:+ os.Create_error (save_path (stream_video_id "a.mp4"))
                          world_without_uploads)),
        emit (EvCreate (save_path (stream_video_id "a.mp4")) None) world_without_uploads)
  /\ os.Create_error (save_path (stream_video_id "a.mp4")) world_without_uploads
     = "open uploads/video_a.mp4: no such file or directory"%string.
Proof.
  split; [vm_compute; reflexivity|].
  assert (Hold : fs world_with_video !! save_path (stream_video_id "a.mp4")
                 = Some (Regular [x41; x42; x43])) by (vm_compute; reflexivity).
  assert (Hc : os.Create (save_path (stream_video_id "a.mp4")) world_with_video
               = (Some (file_0 "uploads/video_a.mp4"),
                  snd (os.Create (save_path (stream_video_id "a.mp4")) world_with_video)))
    by (vm_compute; reflexivity).
  assert (Hdir : os.parent_is_dir (save_path (stream_video_id "a.mp4"))
                   (fs world_without_uploads) = false)
    by (vm_compute; reflexivity).
  split; [exact Hold|]. split; [exact Hc|].
  destruct (proj2 (proj2 (proj2 (proj2
              (first_chunk_creates_or_truncates "a.mp4" [x44] [] None post_c
                 world_with_video))) [x41; x42; x43] Hold)
              (file_0 "uploads/video_a.mp4") _ Hc) as [H1 H2].
  split; [exact H1|]. split; [exact H2|]. split; [exact Hdir|].
  pose proof (proj1 (first_chunk_creates_or_truncates "a.mp4" [x44] [] None post_c
                       world_without_uploads)
                (save_path (stream_video_id "a.mp4")) (or_introl eq_refl)
                (or_intror (or_introl Hdir)))
    as Hfail.
  split; [exact Hfail|].
  split; [|vm_compute; reflexivity].
  exact (proj1 (proj1 (proj2
    (first_chunk_creates_or_truncates "a.mp4" [x44] [] None post_c
       world_without_uploads)) Hfail)).
Defined.

Lemma rejected_upload_is_cleaned_up_witness :
  (In (job_of "video_c.mp4", false)
      (admissions (calls_between world_queue_full
                     (snd (UploadVideo upload_c None world_queue_full))))
   /\ fst (UploadVideo upload_c None world_queue_full)
      = Returns (Status ResourceExhausted "Server busy, queue full")
   /\ fs (snd (UploadVideo upload_c None world_queue_full))
        !! Filename (job_of "video_c.mp4") = None
   /\ pool (snd (UploadVideo upload_c None world_queue_full)) = pool world_queue_full)
  /\ (In (job_of "video_web_c.mp4", false)
         (admissions (calls_between world_queue_full
                        (snd (handleWebUpload post_c world_queue_full))))
      /\ fst (handleWebUpload post_c world_queue_full)
         = Returns (http_Error "Server busy (Queue Full)" StatusServiceUnavailable)
      /\ fs (snd (handleWebUpload post_c world_queue_full))
           !! Filename (job_of "video_web_c.mp4") = None
      /\ pool (snd (handleWebUpload post_c world_queue_full)) = pool world_queue_full).
Proof.
  split.
  - assert (H : In (job_of "video_c.mp4", false)
                  (admissions (calls_between world_queue_full
                                 (snd (UploadVideo upload_c None world_queue_full)))))
      by (vm_compute; left; reflexivity).
    split; [exact H|].
    destruct (proj1 rejected_upload_is_cleaned_up upload_c None world_queue_full
                (job_of "video_c.mp4") H) as (H1 & H2 & H3 & _).
    split; [exact H1|]. split; [exact H2 | exact H3].
  - assert (H : In (job_of "video_web_c.mp4", false)
                  (admissions (calls_between world_queue_full
                                 (snd (handleWebUpload post_c world_queue_full)))))
      by (vm_compute; left; reflexivity).
    split; [exact H|].
    destruct (proj1 (proj2 rejected_upload_is_cleaned_up) post_c world_queue_full
                (job_of "video_web_c.mp4") H) as (H1 & H2 & H3 & _).
    split; [exact H1|]. split; [exact H2 | exact H3].
Defined.

Lemma file_created_once_released_once_witness :
  In (file_0 "uploads/video_c.mp4")
     (creations (calls_between world_with_video
                   (snd (UploadVideo upload_c None world_with_video))))
  /\ closings (file_0 "uploads/video_c.mp4")
       (calls_between world_with_video
          (snd (UploadVideo upload_c None world_with_video))) = 1%nat
  /\ file_id (file_0 "uploads/video_c.mp4")
     ∉ open_files (snd (UploadVideo upload_c None world_with_video)).
Proof.
  assert (H : In (file_0 "uploads/video_c.mp4")
                (creations (calls_between world_with_video
                              (snd (UploadVideo upload_c None world_with_video)))))
    by (vm_compute; left; reflexivity).
  split; [exact H|].
  destruct (proj2 (file_created_once_released_once upload_c None world_with_video)
              (file_0 "uploads/video_c.mp4") H) as (_ & H1 & H2 & _).
  split; [exact H1 | exact H2].
Defined.

(** C5, as stated, fails on the end-of-stream exits: a session that reaches
    the end of its stream calls [Close] on its file twice, in the
    end-of-stream block and again in the deferred call; the second call finds
    the file closed, returns an error that is dropped, and closes nothing. *)
Lemma Close_called_twice_at_end_of_stream :
  fst (UploadVideo upload_c None world_with_video)
  = Returns (UploadStatus "Upload successful" true "video_c.mp4")
  /\ creations (trace (snd (UploadVideo upload_c None world_with_video)))
     = [file_0 "uploads/video_c.mp4"]
  /\ close_calls (file_0 "uploads/video_c.mp4")
       (trace (snd (UploadVideo upload_c None world_with_video))) = 2%nat
  /\ closings (file_0 "uploads/video_c.mp4")
       (trace (snd (UploadVideo upload_c None world_with_video))) = 1%nat.
Proof. vm_compute. repeat split. Qed.

Lemma video_id_stays_under_uploads_witness :
  filepath.Base "../../etc/passwd" <> "/"
  /\ stream_video_id "../../etc/passwd" = "video_passwd"
  /\ web_video_id "../../etc/passwd" = "video_web_passwd"
  /\ has_separator (web_video_id "../../etc/passwd") = false
  /\ save_path (web_video_id "../../etc/passwd") = "uploads/video_web_passwd".
Proof.
  assert (H : filepath.Base "../../etc/passwd" <> "/") by (vm_compute; discriminate).
  split; [exact H|].
  exact (proj2 (proj2 (video_id_stays_under_uploads "../../etc/passwd")) H).
Defined.

(** A transcoder that fails on the input [uploads/video_bad] and otherwise
    writes its output file (the last argument). *)
Definition picky_transcoder (argv : list string) (m : gmap string node)
    : bool * gmap string node :=
  if existsb (String.eqb "uploads/video_bad") argv then (false, m)
  else (true, <[List.last argv "" := Regular [x47]]> m).

Definition world_two_jobs : World :=
  {| fs := <["uploads" := Directory]>
             (<["uploads/video_bad" := Regular [x41]]>
                (<["uploads/video_ok" := Regular [x42]]> ∅));
     free := 1000; open_files := ∅; next_file := 0;
     pool := {| JobQueue := {| buf := [job_of "video_bad"; job_of "video_ok"];
                               cap := 3; closed := false |};
                WorkerCount := 2; wg := 2 |};
     trace := [] |}.

Lemma worker_failure_policy_witness :
  buf (JobQueue (pool world_two_jobs)) = [job_of "video_bad"; job_of "video_ok"]
  /\ buf (JobQueue (pool (fst (server.worker picky_transcoder 1 world_two_jobs)))) = []
  /\ jobs_started (trace (fst (server.worker picky_transcoder 1 world_two_jobs)))
     = (jobs_started (trace world_two_jobs) + 2)%nat.
Proof.
  split; [reflexivity|].
  destruct (proj2 (proj2 (proj2 (proj2 (proj2
              (worker_failure_policy picky_transcoder 1 (job_of "video_bad")
                 [job_of "video_ok"] world_two_jobs)))))
              world_two_jobs eq_refl) as (_ & _ & H1 & H2).
  split; [exact H1 | exact H2].
Defined.

(** The run of the worker above: the failed preview of the first job is not
    followed by its thumbnail step, and the second job gets both steps; the
    original files are still there. *)
Lemma worker_run_after_failed_preview :
  execs (trace (fst (server.worker picky_transcoder 1 world_two_jobs)))
  = [(server.gif_command (job_of "video_bad"), false);
     (server.gif_command (job_of "video_ok"), true);
     (server.jpg_command (job_of "video_ok"), true)]
  /\ fs (fst (server.worker picky_transcoder 1 world_two_jobs)) !! "uploads/video_bad"
     = Some (Regular [x41])
  /\ fs (fst (server.worker picky_transcoder 1 world_two_jobs))
       !! "uploads/video_ok_preview.gif" = Some (Regular [x47]).
Proof. vm_compute. repeat split. Qed.

End Runs.

(* ===================================================================== *)
(** * Part III: further properties of the code                            *)
(* ===================================================================== *)

(** ** The pool under concurrency: capacity, order, closure *)

Section PoolExecutions.

Import server.

(** What every execution keeps true besides [pool_inv]: the capacity is the
    one the queue was made with and is never exceeded, the queue is closed
    exactly when [Stop] has been called, and the process is only ever taken
    down by a panic after that. *)
Record queue_inv (q : Z) (s : system) : Prop := mkQueueInv {
  qi_cap : cap (sys_chan s) = q;
  qi_len : Z.of_nat (length (buf (sys_chan s))) <= q;
  qi_closed : closed (sys_chan s) = true <-> stopper s <> NotCalled;
  qi_crashed : crashed s = true -> closed (sys_chan s) = true }.

Lemma started_queue_inv c q s0 : started c q = Ok s0 -> queue_inv q s0.
Proof.
  unfold started. destruct (NewWorkerPool c q) as [wp|p] eqn:Hnew; [|discriminate].
  apply NewWorkerPool_Ok in Hnew as [Hq ->]. intros E; inversion E; subst s0; clear E.
  constructor; unfold sys_chan; simpl; try lia; try reflexivity; try discriminate.
  split; [discriminate | intros H; now contradiction H].
Qed.

Lemma step_queue_inv q s s' : queue_inv q s -> step s s' -> queue_inv q s'.
Proof.
  intros [Hcap Hlen Hcl Hcr] Hstep.
  destruct Hstep as
    [s job ch Hc Hsend | s job i Hc Hopen Hempty Hw | s job Hc Hsend
    | s job rec Hc Hsend | s i job ch Hc Hw Hrecv | s i job Hc Hw
    | s i Hc Hw Hrecv | s wp Hc Hst Hclose | s Hc Hst Hzero];
    unfold sys_chan in *; simpl in *.
  - (* AddJob returns true *)
    unfold chan_try_send in Hsend.
    destruct (closed (JobQueue (sys_pool s))) eqn:E; [discriminate|].
    destruct (Z.ltb_spec (Z.of_nat (length (buf (JobQueue (sys_pool s)))))
                (cap (JobQueue (sys_pool s)))); [|discriminate].
    inversion Hsend; subst ch; clear Hsend.
    constructor; unfold sys_chan; simpl; rewrite ?E;
      [assumption | rewrite length_app; simpl; lia | assumption | discriminate].
  - (* hand-off *)
    constructor; unfold sys_chan; simpl; [assumption .. | discriminate].
  - constructor; assumption.
  - (* AddJob panics *)
    unfold chan_try_send in Hsend.
    destruct (closed (JobQueue (sys_pool s))) eqn:E.
    + constructor; unfold sys_chan; simpl; rewrite ?E; (assumption || reflexivity).
    + destruct (_ <? _); discriminate.
  - (* a worker receives *)
    unfold chan_recv in Hrecv.
    destruct (buf (JobQueue (sys_pool s))) as [|v rest] eqn:Hb.
    { destruct (closed _); discriminate. }
    inversion Hrecv; subst v ch; clear Hrecv.
    constructor; unfold sys_chan; simpl;
      [assumption | simpl in Hlen; lia | assumption | discriminate].
  - constructor; unfold sys_chan; simpl; [assumption .. | discriminate].
  - constructor; unfold sys_chan; simpl; [assumption .. | discriminate].
  - (* Stop closes the queue *)
    unfold Stop_close, chan_close in Hclose.
    destruct (closed (JobQueue (sys_pool s))) eqn:E; [discriminate|].
    inversion Hclose; subst wp; clear Hclose.
    constructor; unfold sys_chan; simpl;
      [assumption | assumption | split; [discriminate | reflexivity] | discriminate].
  - (* Stop returns *)
    constructor; unfold sys_chan; simpl; [assumption | assumption | | discriminate].
    split; [discriminate|]. intros _. apply Hcl. rewrite Hst. discriminate.
Qed.

Lemma steps_queue_inv q s s' : queue_inv q s -> steps s s' -> queue_inv q s'.
Proof.
  intros H Hs. induction Hs as [|s1 s2 s3 _ IH Hstep]; [assumption|].
  eapply step_queue_inv; [apply IH; assumption | exact Hstep].
Qed.

(** X1. Under any interleaving of producers, workers and [Stop], the queue
    keeps the capacity it was made with and never holds more jobs than
    that. *)
Theorem queue_never_exceeds_capacity (c q : Z) (s0 s : system) :
  started c q = Ok s0 ->
  steps s0 s ->
  cap (sys_chan s) = q
  /\ 0 <= Z.of_nat (length (buf (sys_chan s))) <= q.
Proof.
  intros Hstart Hsteps.
  destruct (steps_queue_inv q s0 s (started_queue_inv c q s0 Hstart) Hsteps)
    as [Hcap Hlen _ _].
  split; [exact Hcap | lia].
Qed.

(** X2. Under any interleaving, the jobs admitted so far are, in admission
    order, the jobs dequeued so far followed by the jobs still queued; and the
    dequeued jobs are, counted with multiplicity, the finished ones and the
    ones in the hands of the workers.  So an admitted job is dequeued at most
    once, in its turn, and by one worker. *)
Theorem jobs_dequeued_once_in_order (c q : Z) (s0 s : system) :
  started c q = Ok s0 ->
  steps s0 s ->
  admitted s = dequeued s ++ buf (sys_chan s)
  /\ dequeued s ≡ₚ finished s ++ in_hand (workers s)
  /\ (length (in_hand (workers s)) <= length (workers s))%nat
  /\ length (workers s) = Z.to_nat c.
Proof.
  intros Hstart Hsteps.
  destruct (steps_inv c s0 s (started_inv c q s0 Hstart) Hsteps)
    as [Hfifo _ _ Hhand Hsize _].
  repeat split; try assumption.
  unfold in_hand. clear. induction (workers s) as [|st ws IH]; [reflexivity|].
  cbn [omap list_omap]. destruct (hand st); cbn [length]; lia.
Qed.



Lemma step_after_close s s' :
  step s s' ->
  closed (sys_chan s) = true ->
  closed (sys_chan s') = true
  /\ admitted s' = admitted s
  /\ (length (buf (sys_chan s')) <= length (buf (sys_chan s)))%nat.
Proof.
  intros Hstep Hcl.
  destruct Hstep as
    [s job ch Hc Hsend | s job i Hc Hopen Hempty Hw | s job Hc Hsend
    | s job rec Hc Hsend | s i job ch Hc Hw Hrecv | s i job Hc Hw
    | s i Hc Hw Hrecv | s wp Hc Hst Hclose | s Hc Hst Hzero];
    unfold sys_chan in *; simpl in *; try (repeat split; (assumption || lia)).
  - unfold chan_try_send in Hsend. rewrite Hcl in Hsend. discriminate.
  - congruence.
  - unfold chan_recv in Hrecv.
    destruct (buf (JobQueue (sys_pool s))) as [|v rest] eqn:Hb.
    { destruct (closed _); discriminate. }
    inversion Hrecv; subst v ch; clear Hrecv. simpl.
    repeat split; (assumption || lia).
  - unfold Stop_close, chan_close in Hclose. rewrite Hcl in Hclose. discriminate.
Qed.

(** X4. Closing is final: from any state in which the queue is closed on,
    whatever happens, the queue stays closed, no further job is admitted, and
    the queue only gets shorter. *)
Theorem nothing_admitted_after_close (s s' : system) :
  closed (sys_chan s) = true ->
  steps s s' ->
  closed (sys_chan s') = true
  /\ admitted s' = admitted s
  /\ (length (buf (sys_chan s')) <= length (buf (sys_chan s)))%nat.
Proof.
  intros Hcl Hs. induction Hs as [|s1 s2 s3 _ IH Hstep].
  - repeat split; (assumption || lia).
  - destruct (IH Hcl) as (H1 & H2 & H3).
    destruct (step_after_close s2 s3 Hstep H1) as (K1 & K2 & K3).
    repeat split; [assumption | congruence | lia].
Qed.

Lemma steps_trans s1 s2 s3 : steps s1 s2 -> steps s2 s3 -> steps s1 s3.
Proof.
  intros H12 H23. induction H23 as [|s2 s3 s4 _ IH Hstep]; [assumption|].
  eapply steps_step; [apply IH; assumption | exact Hstep].
Qed.

Lemma steps_first s1 s2 s3 : step s1 s2 -> steps s2 s3 -> steps s1 s3.
Proof.
  intros H12 H23. apply (steps_trans s1 s2 s3); [|assumption].
  eapply steps_step; [apply steps_refl | exact H12].
Qed.

(** Some worker is in its loop body, or some worker is at its receive, or
    every worker has returned. *)
Lemma worker_census (ws : list worker_state) :
  (exists i job, ws !! i = Some (InBody job))
  \/ (exists i, ws !! i = Some AtReceive)
  \/ running ws = 0.
Proof.
  induction ws as [|st ws IH]; [right; right; reflexivity|].
  destruct st as [|job|].
  - right. left. now exists O.
  - left. now exists O, job.
  - destruct IH as [(i & job & H) | [(i & H) | H]].
    + left. now exists (S i), job.
    + right. left. now exists (S i).
    + right. right. now rewrite running_cons.
Qed.

(** What is left to do before [Stop] can return. *)
Definition work_left (s : system) : nat :=
  (2 * length (buf (sys_chan s)) + length (in_hand (workers s))
   + Z.to_nat (running (workers s)))%nat.

Lemma in_hand_insert_length ws i st x :
  ws !! i = Some st ->
  (match hand st with Some _ => 1 | None => 0 end + length (in_hand (<[i := x]> ws))
   = match hand x with Some _ => 1 | None => 0 end + length (in_hand ws))%nat.
Proof.
  intros H. pose proof (in_hand_insert ws i st x H) as P.
  apply Permutation_length in P. rewrite !length_app in P.
  destruct (hand st), (hand x); simpl in *; lia.
Qed.

(** After the queue is closed the workers can finish what they hold, drain
    the queue and return, after which [Stop] returns. *)
Lemma shutdown_completes (n : nat) : forall s,
  (work_left s <= n)%nat ->
  crashed s = false ->
  stopper s = AtWait ->
  closed (sys_chan s) = true ->
  wg (sys_pool s) = running (workers s) ->
  exists s', steps s s' /\ stopper s' = StopReturned /\ crashed s' = false.
Proof.
  induction n as [|n IH]; intros s Hn Hcr Hst Hcl Hwg;
    destruct (worker_census (workers s)) as [(i & job & Hw) | [(i & Hw) | Hzero]].
  - exfalso. pose proof (in_hand_insert_length _ _ _ AtReceive Hw) as P.
    simpl in P. unfold work_left in Hn. lia.
  - exfalso. pose proof (running_insert _ _ _ Exited Hw) as P.
    pose proof (running_nonneg (<[i := Exited]> (workers s))).
    simpl in P. unfold work_left in Hn. lia.
  - exists {| sys_pool := sys_pool s; workers := workers s;
              stopper := StopReturned; admitted := admitted s;
              dequeued := dequeued s; finished := finished s; crashed := false |}.
    split; [|split; reflexivity].
    eapply steps_first; [|apply steps_refl].
    apply step_Stop_return; [assumption | assumption | congruence].
  - (* a worker finishes its body *)
    pose proof (in_hand_insert_length _ _ _ AtReceive Hw) as P.
    pose proof (running_insert _ _ _ AtReceive Hw) as R. simpl in P, R.
    edestruct IH as (s' & Hs' & Hret); cycle 5.
    + exists s'. split; [|exact Hret].
      eapply steps_first; [exact (step_worker_body_done s i job Hcr Hw) | exact Hs'].
    + unfold work_left, sys_chan in *. simpl. lia.
    + reflexivity.
    + exact Hst.
    + exact Hcl.
    + simpl. lia.
  - (* a worker at its receive takes a job, or returns *)
    unfold sys_chan in *.
    destruct (buf (JobQueue (sys_pool s))) as [|job rest] eqn:Hb.
    + pose proof (in_hand_insert_length _ _ _ Exited Hw) as P.
      pose proof (running_insert _ _ _ Exited Hw) as R.
      pose proof (running_nonneg (<[i := Exited]> (workers s))) as N.
      simpl in P, R.
      assert (Hrecv : chan_recv (sys_chan s) = RecvClosed).
      { unfold chan_recv, sys_chan. now rewrite Hb, Hcl. }
      edestruct IH as (s' & Hs' & Hret); cycle 5.
      * exists s'. split; [|exact Hret].
        eapply steps_first; [exact (step_worker_exit s i Hcr Hw Hrecv) | exact Hs'].
      * unfold work_left, sys_chan in *. simpl. rewrite Hb in *. simpl in *. lia.
      * reflexivity.
      * exact Hst.
      * exact Hcl.
      * simpl. lia.
    + pose proof (in_hand_insert_length _ _ _ (InBody job) Hw) as P.
      pose proof (running_insert _ _ _ (InBody job) Hw) as R. simpl in P, R.
      assert (Hrecv : chan_recv (sys_chan s)
                      = Received job {| buf := rest; cap := cap (sys_chan s);
                                        closed := closed (sys_chan s) |}).
      { unfold chan_recv, sys_chan. now rewrite Hb. }
      edestruct IH as (s' & Hs' & Hret); cycle 5.
      * exists s'. split; [|exact Hret].
        eapply steps_first;
          [exact (step_worker_receive s i job _ Hcr Hw Hrecv) | exact Hs'].
      * unfold work_left, sys_chan in *. simpl. rewrite Hb in *. simpl in *. lia.
      * reflexivity.
      * exact Hst.
      * unfold sys_chan. simpl. exact Hcl.
      * simpl. lia.
  - exists {| sys_pool := sys_pool s; workers := workers s;
              stopper := StopReturned; admitted := admitted s;
              dequeued := dequeued s; finished := finished s; crashed := false |}.
    split; [|split; reflexivity].
    eapply steps_first; [|apply steps_refl].
    apply step_Stop_return; [assumption | assumption | congruence].
Qed.

(** X5. Shutdown cannot get stuck: from every state an execution can reach
    without a crash, there is a continuation (the workers finish the jobs in
    hand, drain the queue and return) at the end of which [Stop] has
    returned. *)
Theorem Stop_can_always_return (c q : Z) (s0 s : system) :
  started c q = Ok s0 ->
  steps s0 s ->
  crashed s = false ->
  exists s', steps s s' /\ stopper s' = StopReturned /\ crashed s' = false.
Proof.
  intros Hstart Hsteps Hcr.
  destruct (steps_queue_inv q s0 s (started_queue_inv c q s0 Hstart) Hsteps)
    as [_ _ Hcl _].
  destruct (steps_inv c s0 s (started_inv c q s0 Hstart) Hsteps)
    as [_ Hwg _ _ _ _].
  destruct (stopper s) eqn:Hst.
  - (* Stop has not been called: it closes the queue first *)
    assert (Hopen : closed (sys_chan s) = false).
    { destruct (closed (sys_chan s)) eqn:E; [|reflexivity].
      exfalso. now apply (proj1 Hcl). }
    assert (Hclose : Stop_close (sys_pool s)
                     = Ok (set_JobQueue {| buf := buf (sys_chan s);
                                           cap := cap (sys_chan s);
                                           closed := true |} (sys_pool s))).
    { unfold Stop_close, chan_close. unfold sys_chan in Hopen. now rewrite Hopen. }
    pose proof (step_Stop_close s _ Hcr Hst Hclose) as Hstep.
    match type of Hstep with step _ ?s1 =>
      destruct (shutdown_completes (work_left s1) s1 (le_n _) eq_refl eq_refl eq_refl Hwg)
        as (s' & Hs' & Hret)
    end.
    exists s'. split; [|exact Hret]. eapply steps_first; [exact Hstep | exact Hs'].
  - apply (shutdown_completes (work_left s) s (le_n _) Hcr Hst); [|exact Hwg].
    apply Hcl. discriminate.
  - exists s. split; [apply steps_refl | split; assumption].
Qed.

Lemma Stop_can_always_return_witness :
  started 1 1 = Ok run_0
  /\ steps run_0 run_2
  /\ crashed run_2 = false
  /\ exists s', steps run_2 s' /\ stopper s' = StopReturned /\ crashed s' = false.
Proof.
  assert (H : steps run_0 run_2).
  { apply (steps_step _ run_1);
      [|exact (step_worker_receive run_1 0%nat job_a (sys_chan run_2)
                 eq_refl eq_refl eq_refl)].
    apply (steps_step _ run_0);
      [|exact (step_AddJob_true run_0 job_a (sys_chan run_1) eq_refl eq_refl)].
    apply steps_refl. }
  split; [reflexivity|]. split; [exact H|]. split; [reflexivity|].
  exact (Stop_can_always_return 1 1 run_0 run_2 eq_refl H eq_refl).
Defined.

(** A pool without workers: nothing is ever taken from the queue. *)
Record idle_inv (s : system) : Prop := mkIdleInv {
  ii_workers : workers s = [];
  ii_dequeued : dequeued s = [];
  ii_finished : finished s = [];
  ii_queue : buf (sys_chan s) = admitted s }.

Lemma step_idle_inv s s' : idle_inv s -> step s s' -> idle_inv s'.
Proof.
  intros [Hw Hd Hf Hb] Hstep.
  destruct Hstep as [s job ch Hcr Hsend | s job i Hcr Hcl Hbuf Hi | s job Hcr Hsend
                    | s job rec Hcr Hsend | s i job ch Hcr Hi Hrecv | s i job Hcr Hi
                    | s i Hcr Hi Hrecv | s wp Hcr Hst Hclose | s Hcr Hst Hwg];
    try (rewrite Hw in Hi; discriminate Hi).
  - constructor; cbn [workers dequeued finished admitted sys_pool]; try assumption.
    unfold sys_chan in *. cbn [sys_pool JobQueue set_JobQueue].
    unfold chan_try_send in Hsend. destruct (closed (JobQueue (sys_pool s))); [discriminate|].
    destruct (_ <? _); [|discriminate]. injection Hsend as <-. cbn [buf].
    now rewrite Hb.
  - now constructor.
  - now constructor.
  - constructor; cbn [workers dequeued finished admitted sys_pool]; try assumption.
    unfold sys_chan, Stop_close, chan_close in *.
    destruct (closed (JobQueue (sys_pool s))); [discriminate|].
    injection Hclose as <-. exact Hb.
  - now constructor.
Qed.

Lemma steps_idle_inv s s' : idle_inv s -> steps s s' -> idle_inv s'.
Proof.
  intros Hinv Hsteps. induction Hsteps as [|s1 s2 s3 _ IH Hstep]; [assumption|].
  exact (step_idle_inv _ _ (IH Hinv) Hstep).
Qed.

(** X6. Without workers nothing drains the queue: in a pool started with a
    worker count of zero or less, no execution ever dequeues or processes a
    job (the queue holds every job admitted so far), and there is an
    execution in which a job is admitted and [Stop] then returns at once,
    with the job still in the queue. *)
Theorem Stop_without_workers_drops_jobs (c q : Z) (s0 : system) (job : Job) :
  c <= 0 ->
  1 <= q ->
  started c q = Ok s0 ->
  (forall s, steps s0 s ->
     workers s = [] /\ dequeued s = [] /\ finished s = []
     /\ buf (sys_chan s) = admitted s)
  /\ exists s,
       steps s0 s
       /\ stopper s = StopReturned
       /\ admitted s = [job]
       /\ buf (sys_chan s) = [job].
Proof.
  intros Hc Hq Hstart. unfold started in Hstart.
  destruct (NewWorkerPool c q) as [wp|p] eqn:Hnew; [|discriminate].
  apply NewWorkerPool_Ok in Hnew as [_ ->]. injection Hstart as <-.
  unfold Start, set_wg. cbn [wg WorkerCount JobQueue].
  replace (Z.to_nat c) with O by lia. cbn [replicate].
  set (ch1 := {| buf := [job]; cap := q; closed := false |}).
  set (ch2 := {| buf := [job]; cap := q; closed := true |}).
  set (k := 0 + Z.max 0 c).
  set (s0 := {| sys_pool := {| JobQueue := {| buf := []; cap := q; closed := false |};
                               WorkerCount := c; wg := k |};
                workers := []; stopper := NotCalled;
                admitted := []; dequeued := []; finished := []; crashed := false |}).
  set (s1 := {| sys_pool := {| JobQueue := ch1; WorkerCount := c; wg := k |};
                workers := []; stopper := NotCalled;
                admitted := [job]; dequeued := []; finished := []; crashed := false |}).
  set (s2 := {| sys_pool := {| JobQueue := ch2; WorkerCount := c; wg := k |};
                workers := []; stopper := AtWait;
                admitted := [job]; dequeued := []; finished := []; crashed := false |}).
  set (s3 := {| sys_pool := {| JobQueue := ch2; WorkerCount := c; wg := k |};
                workers := []; stopper := StopReturned;
                admitted := [job]; dequeued := []; finished := []; crashed := false |}).
  split.
  - intros s Hsteps.
    assert (Hinv : idle_inv s0) by now constructor.
    destruct (steps_idle_inv s0 s Hinv Hsteps) as [Hw Hd Hf Hb]. auto.
  - exists s3. split; [|now repeat split].
    apply (steps_step _ s2);
      [|apply (step_Stop_return s2 eq_refl eq_refl); subst k; cbn; lia].
    apply (steps_step _ s1);
      [|exact (step_Stop_close s1 (sys_pool s2) eq_refl eq_refl eq_refl)].
    apply (steps_step _ s0); [apply steps_refl|].
    apply (step_AddJob_true s0 job ch1 eq_refl).
    unfold chan_try_send, sys_chan. simpl.
    change (Z.of_nat 0) with 0.
    destruct (Z.ltb_spec 0 q); [reflexivity | lia].
Qed.

(** A pool started with no worker and a queue of capacity 1. *)
Definition idle_0 : system :=
  {| sys_pool := {| JobQueue := {| buf := []; cap := 1; closed := false |};
                    WorkerCount := 0; wg := 0 |};
     workers := []; stopper := NotCalled;
     admitted := []; dequeued := []; finished := []; crashed := false |}.

Lemma Stop_without_workers_drops_jobs_witness :
  0 <= 0
  /\ 1 <= 1
  /\ started 0 1 = Ok idle_0
  /\ (forall s, steps idle_0 s ->
        workers s = [] /\ dequeued s = [] /\ finished s = []
        /\ buf (sys_chan s) = admitted s)
  /\ exists s,
       steps idle_0 s
       /\ stopper s = StopReturned
       /\ admitted s = [job_a]
       /\ buf (sys_chan s) = [job_a].
Proof.
  split; [lia|]. split; [lia|]. split; [reflexivity|].
  apply (Stop_without_workers_drops_jobs 0 1 idle_0 job_a); [lia | lia | reflexivity].
Defined.

Lemma queue_never_exceeds_capacity_witness :
  started 1 1 = Ok run_0
  /\ steps run_0 run_6
  /\ cap (sys_chan run_6) = 1
  /\ 0 <= Z.of_nat (length (buf (sys_chan run_6))) <= 1.
Proof.
  split; [reflexivity|]. split; [exact run_0_to_6|].
  exact (queue_never_exceeds_capacity 1 1 run_0 run_6 eq_refl run_0_to_6).
Defined.

Lemma jobs_dequeued_once_in_order_witness :
  started 1 1 = Ok run_0
  /\ steps run_0 run_6
  /\ admitted run_6 = dequeued run_6 ++ buf (sys_chan run_6)
  /\ dequeued run_6 ≡ₚ finished run_6 ++ in_hand (workers run_6)
  /\ (length (in_hand (workers run_6)) <= length (workers run_6))%nat
  /\ length (workers run_6) = Z.to_nat 1.
Proof.
  split; [reflexivity|]. split; [exact run_0_to_6|].
  exact (jobs_dequeued_once_in_order 1 1 run_0 run_6 eq_refl run_0_to_6).
Defined.


Lemma run_4_to_6 : steps run_4 run_6.
Proof.
  apply (steps_step _ run_5); [|exact (step_Stop_return run_5 eq_refl eq_refl eq_refl)].
  apply (steps_step _ run_4);
    [|exact (step_worker_exit run_4 0%nat eq_refl eq_refl eq_refl)].
  apply steps_refl.
Defined.

Lemma nothing_admitted_after_close_witness :
  closed (sys_chan run_4) = true
  /\ steps run_4 run_6
  /\ closed (sys_chan run_6) = true
  /\ admitted run_6 = admitted run_4
  /\ (length (buf (sys_chan run_6)) <= length (buf (sys_chan run_4)))%nat.
Proof.
  split; [reflexivity|]. split; [exact run_4_to_6|].
  exact (nothing_admitted_after_close run_4 run_6 eq_refl run_4_to_6).
Defined.

End PoolExecutions.

(** ** The queue and the worker, one at a time *)

Section QueueOrder.

Import server.

(** [n] dequeues in a row, with the jobs they return. *)
Fixpoint dequeue_n (n : nat) (wp : WorkerPool) : list Job * WorkerPool :=
  match n with
  | O => ([], wp)
  | S n' =>
      match dequeue wp with
      | (Some job, wp') => let (jobs, wp'') := dequeue_n n' wp' in (job :: jobs, wp'')
      | (None, wp') => ([], wp')
      end
  end.

Lemma dequeue_n_all wp : forall n,
  (length (buf (JobQueue wp)) <= n)%nat ->
  dequeue_n n wp
  = (buf (JobQueue wp),
     set_JobQueue {| buf := []; cap := cap (JobQueue wp);
                     closed := closed (JobQueue wp) |} wp).
Proof.
  destruct wp as [[jobs k cl] c g]. unfold set_JobQueue. simpl.
  revert k cl c g. induction jobs as [|job jobs IH]; intros k cl c g n Hn.
  - destruct n; simpl; [reflexivity|].
    unfold dequeue, chan_recv. simpl. destruct cl; reflexivity.
  - destruct n; simpl in Hn; [lia|]. simpl.
    unfold dequeue, chan_recv. simpl. unfold set_JobQueue. simpl.
    rewrite (IH k cl c g n) by lia. reflexivity.
Qed.

Lemma add_all_counts jobs : forall wp bs wp1,
  add_all jobs wp = Ok (bs, wp1) ->
  WorkerCount wp1 = WorkerCount wp /\ wg wp1 = wg wp.
Proof.
  induction jobs as [|job jobs IH]; intros wp bs wp1 H; simpl in H.
  - inversion H. auto.
  - unfold AddJob in H. destruct (chan_try_send job (JobQueue wp)) as [ch| |];
      try discriminate.
    + destruct (add_all jobs (set_JobQueue ch wp)) as [[bs' wp']|] eqn:E;
        [|discriminate]. inversion H; subst.
      destruct (IH _ _ _ E) as [A B]. simpl in A, B. auto.
    + destruct (add_all jobs wp) as [[bs' wp']|] eqn:E; [|discriminate].
      inversion H; subst. exact (IH _ _ _ E).
Qed.

(** X7. First in, first out: on a new pool, [AddJob] of at most [q] jobs in
    a row admits them all, and as many dequeues (or more) then return exactly
    these jobs in the order they were added and leave the queue empty and
    open. *)
Theorem jobs_come_out_in_the_order_added
    (c q : Z) (wp0 : WorkerPool) (jobs : list Job) (n : nat) :
  NewWorkerPool c q = Ok wp0 ->
  Z.of_nat (length jobs) <= q ->
  (length jobs <= n)%nat ->
  exists wp1,
    add_all jobs wp0 = Ok (repeat true (length jobs), wp1)
    /\ dequeue_n n wp1 = (jobs, wp0).
Proof.
  intros Hnew Hq Hn. pose proof Hnew as Hnew'.
  apply NewWorkerPool_open in Hnew as [Hopen Hempty].
  destruct (add_all_room q jobs wp0 Hopen) as (wp1 & Hadd & (Hc1 & Hq1 & _) & Hb).
  { unfold queue_len. rewrite Hempty. simpl. lia. }
  exists wp1. split; [exact Hadd|].
  rewrite Hempty in Hb. simpl in Hb.
  rewrite dequeue_n_all by (rewrite Hb; exact Hn).
  rewrite Hb, Hc1, Hq1. f_equal.
  apply NewWorkerPool_Ok in Hnew' as [_ ->]. unfold set_JobQueue.
  destruct (add_all_counts jobs _ _ _ Hadd) as [Hw Hg]. simpl in Hw, Hg.
  rewrite Hw, Hg. reflexivity.
Qed.

Lemma jobs_come_out_in_the_order_added_witness :
  NewWorkerPool 2 3 = Ok pool_2_3
  /\ Z.of_nat (length [sample_job "a"; sample_job "b"]) <= 3
  /\ (length [sample_job "a"; sample_job "b"] <= 5)%nat
  /\ exists wp1,
       add_all [sample_job "a"; sample_job "b"] pool_2_3
       = Ok (repeat true (length [sample_job "a"; sample_job "b"]), wp1)
       /\ dequeue_n 5 wp1 = ([sample_job "a"; sample_job "b"], pool_2_3).
Proof.
  split; [reflexivity|]. split; [simpl; lia|]. split; [simpl; lia|].
  apply (jobs_come_out_in_the_order_added 2 3 pool_2_3); [reflexivity | simpl; lia..].
Defined.

End QueueOrder.

Section WorkerRun.

Import server.

Variable run_command : list string -> gmap string node -> bool * gmap string node.
Variable id : Z.

(** The transcoder runs that a queue of jobs gives rise to, in order, with
    the file system they leave: for each job the preview, and the thumbnail
    if the preview succeeded. *)
Fixpoint pipeline (jobs : list Job) (m : gmap string node)
    : list (list string * bool) * gmap string node :=
  match jobs with
  | [] => ([], m)
  | job :: rest =>
      let r1 := run_command (gif_command job) m in
      if fst r1 then
        let r2 := run_command (jpg_command job) (snd r1) in
        let (runs, m') := pipeline rest (snd r2) in
        ((gif_command job, true) :: (jpg_command job, fst r2) :: runs, m')
      else
        let (runs, m') := pipeline rest (snd r1) in
        ((gif_command job, false) :: runs, m')
  end.

Lemma execs_app tr1 tr2 : execs (tr1 ++ tr2) = execs tr1 ++ execs tr2.
Proof. unfold execs. apply omap_app. Qed.

Lemma removals_app tr1 tr2 : removals (tr1 ++ tr2) = removals tr1 ++ removals tr2.
Proof. unfold removals. apply omap_app. Qed.

Lemma worker_run_jobs jobs : forall w,
  buf (JobQueue (pool w)) = jobs ->
  let w' := fst (worker run_command id w) in
  execs (trace w') = execs (trace w) ++ fst (pipeline jobs (fs w))
  /\ fs w' = snd (pipeline jobs (fs w))
  /\ removals (trace w') = removals (trace w)
  /\ admissions (trace w') = admissions (trace w)
  /\ open_files w' = open_files w
  /\ cap (JobQueue (pool w')) = cap (JobQueue (pool w))
  /\ closed (JobQueue (pool w')) = closed (JobQueue (pool w))
  /\ wg (pool w') = wg (pool w) - (if closed (JobQueue (pool w)) then 1 else 0).
Proof.
  induction jobs as [|job rest IH]; intros w Hb.
  - unfold worker. rewrite Hb. simpl. unfold chan_recv. rewrite Hb.
    destruct (closed (JobQueue (pool w))) eqn:Hc; simpl; rewrite ?Hc, ?app_nil_r;
      repeat split; lia.
  - rewrite (worker_next run_command id job rest w Hb).
    match goal with |- context [worker _ _ ?x] => set (w1 := x) end.
    assert (Hb1 : buf (JobQueue (pool w1)) = rest).
    { subst w1. rewrite worker_body_pool. reflexivity. }
    destruct (IH w1 Hb1) as (H1 & H2 & H3 & H4 & H5 & H6 & H7 & H8).
    cbv zeta. rewrite H1, H2, H3, H4, H5, H6, H7, H8. clear H1 H2 H3 H4 H5 H6 H7 H8.
    subst w1. rewrite worker_body_cases. cbn [fs trace pool open_files set_pool set_JobQueue
                                               JobQueue cap closed wg].
    rewrite !execs_app, !removals_app, !admissions_app. cbn [pipeline].
    destruct (run_command (gif_command job) (fs w)) as [ok1 m1]. cbn [fst snd].
    destruct ok1.
    + destruct (run_command (jpg_command job) m1) as [ok2 m2]. cbn [fst snd].
      destruct (pipeline rest m2) as [runs m']. cbn [fst snd].
      destruct ok2; cbn; rewrite ?app_nil_r, <- ?app_assoc; repeat split.
    + destruct (pipeline rest m1) as [runs m']. cbn [fst snd].
      cbn; rewrite ?app_nil_r, <- ?app_assoc; repeat split.
Qed.

(** X8. A worker running on a queue takes the jobs in queue order and runs,
    for each job in turn, the preview and then (only after a successful
    preview) the thumbnail, before it turns to the next job.  It makes no
    other change: the file system is what these runs leave, no file is
    removed, nothing is enqueued, and the wait-group counter is decremented,
    by one, exactly when the queue was closed (the worker then returns;
    otherwise it is left waiting at its receive). *)
Theorem worker_runs_queue_in_order (w : World) :
  let w' := fst (worker run_command id w) in
  let jobs := buf (JobQueue (pool w)) in
  execs (trace w') = execs (trace w) ++ fst (pipeline jobs (fs w))
  /\ fs w' = snd (pipeline jobs (fs w))
  /\ removals (trace w') = removals (trace w)
  /\ admissions (trace w') = admissions (trace w)
  /\ buf (JobQueue (pool w')) = []
  /\ snd (worker run_command id w) = closed (JobQueue (pool w))
  /\ wg (pool w') = wg (pool w) - (if closed (JobQueue (pool w)) then 1 else 0).
Proof.
  intros w' jobs. subst w' jobs.
  destruct (worker_run_jobs _ w eq_refl) as (H1 & H2 & H3 & H4 & _ & _ & _ & H8).
  destruct (worker_drains run_command id _ w eq_refl) as (D1 & _ & D3).
  repeat split; assumption.
Qed.

End WorkerRun.

(** ** Streaming uploads: what is stored *)

Section StreamingUploads.

Import main.

#[local] Arguments os.Create : simpl never.
#[local] Arguments os.Write : simpl never.
#[local] Arguments os.Close : simpl never.
#[local] Arguments os.Remove : simpl never.
#[local] Arguments filepath.Join : simpl never.
#[local] Arguments filepath.Base : simpl never.
#[local] Arguments Sprintf_s : simpl never.
#[local] Arguments wrap_int : simpl never.

(** A stream made of chunks only: the file name and the content of each
    message. *)
Definition messages (chunks : list (string * list byte)) : list recv :=
  map (λ chunk, Msg (fst chunk) (snd chunk)) chunks.

Definition payload (chunks : list (string * list byte)) : list byte :=
  concat (map snd chunks).

Lemma Write_succeeds f b w :
  file_id f ∈ open_files w ->
  (length b <= free w)%nat ->
  os.Write f b w =
    ((length b, true),
     emit (EvWrite f (length b) true)
       {| fs := alter (os.append_content b) (file_name f) (fs w);
          free := (free w - length b)%nat;
          open_files := open_files w; next_file := next_file w;
          pool := pool w; trace := trace w |}).
Proof.
  intros Ho Hl. unfold os.Write.
  destruct (Write_errno_cases f b w) as [[Hc _] | [(_ & _ & E) | (_ & Hf & _)]];
    [contradiction | now rewrite E | lia].
Qed.

(** With room on the volume every chunk is appended to the file, and the
    loop reaches the end-of-stream block. *)
Lemma receiving_writes f chunks : forall se l w,
  file l = Some f ->
  file_id f ∈ open_files w ->
  (length (payload chunks) <= free w)%nat ->
  exists l1 w1,
    same_session l l1
    /\ UploadVideo_loop (messages chunks) se l w = UploadVideo_eof se l1 w1
    /\ open_files w1 = open_files w
    /\ pool w1 = pool w
    /\ trace w1 = trace w ++ writes f (map (λ chunk, length (snd chunk)) chunks)
    /\ (forall c, fs w !! file_name f = Some (Regular c) ->
                  fs w1 !! file_name f = Some (Regular (c ++ payload chunks)))
    /\ (forall p, p <> file_name f -> fs w1 !! p = fs w !! p).
Proof.
  induction chunks as [|[filename content] chunks IH]; intros se l w Hf Ho Hl;
    destruct l as [fl vid sz ds]; cbn [file] in Hf; subst fl.
  - eexists _, w. split; [now repeat split|]. split; [reflexivity|].
    repeat split; try reflexivity.
    + cbn. now rewrite app_nil_r.
    + intros c Hc. unfold payload. cbn. now rewrite app_nil_r.
  - unfold payload in Hl. cbn [map concat snd] in Hl. rewrite length_app in Hl.
    cbn [messages map fst snd]. rewrite UploadVideo_loop_Msg. cbn [file].
    unfold write_chunk. rewrite (Write_succeeds f content w Ho) by lia.
    cbn [file videoID fileSize deferred].
    match goal with |- context [UploadVideo_loop _ _ ?l2 ?w2] =>
      destruct (IH se l2 w2 eq_refl) as (l1 & w1 & Hsame & Hloop & Ho1 & Hp1 & Ht1 & Hf1 & Hoth1)
    end.
    { exact Ho. }
    { cbn [free emit]. unfold payload. lia. }
    exists l1, w1. split; [exact Hsame|]. split; [exact Hloop|].
    cbn [open_files pool trace fs emit] in *.
    split; [exact Ho1|]. split; [exact Hp1|]. split; [|split].
    + rewrite Ht1. cbn [map writes snd]. now rewrite <- app_assoc.
    + intros c Hc. unfold payload. cbn [map concat snd]. rewrite app_assoc.
      apply Hf1. rewrite lookup_alter_eq, Hc. reflexivity.
    + intros p Hne. rewrite (Hoth1 p Hne). now rewrite lookup_alter_ne.
Qed.

Lemma Create_keeps_room path w f w0 :
  os.Create path w = (Some f, w0) -> (free w <= free w0)%nat.
Proof.
  intros Hc. destruct (Create_result path w)
    as [(reclaimed & _ & Hcr & _) | (e & _ & Hcr)]; rewrite Hcr in Hc; [|discriminate].
  injection Hc as _ <-. cbn. lia.
Qed.

Lemma Create_succeeds path w :
  fst (os.Create path w) <> None ->
  exists f w0, os.Create path w = (Some f, w0).
Proof.
  intros H. destruct (os.Create path w) as [[f|] w0]; [eauto | now contradiction H].
Qed.

(** The run of the handler on a stream of chunks that meets no obstacle. *)
Lemma stream_upload_stored
    (filename : string) (content : list byte) (rest : list (string * list byte))
    (se : option code) (w : World) :
  let chunks := (filename, content) :: rest in
  let id := stream_video_id filename in
  let path := save_path id in
  let r := UploadVideo (messages chunks) se w in
  fst (os.Create path w) <> None ->
  (length (payload chunks) <= free w)%nat ->
  closed (JobQueue (pool w)) = false ->
  server.queue_len (pool w) < cap (JobQueue (pool w)) ->
  fst r = match se with
          | None => Returns (UploadStatus "Upload successful" true id)
          | Some c => Returns (Status c "SendAndClose")
          end
  /\ fs (snd r) !! path = Some (Regular (payload chunks))
  /\ (forall p, p <> path -> fs (snd r) !! p = fs w !! p)
  /\ pool (snd r) = server.enqueued (mkJob path id) (pool w)
  /\ next_file w ∉ open_files (snd r).
Proof.
  intros chunks id path r. subst r chunks id path. intros Hcreate Hroom Hopen Hslot.
  destruct (Create_succeeds _ w Hcreate) as (f & w0 & Hc).
  pose proof (Create_keeps_room _ w f w0 Hc) as Hfree.
  pose proof (first_chunk_created filename content (messages rest) se w f w0 Hc) as Hloop.
  set (id := stream_video_id filename) in *. set (path := save_path id) in *.
  apply Create_ok in Hc as (Hname & Hid & Hopen0 & Hfs0 & Htr0 & Hpool0 & _).
  destruct (receiving_writes f ((filename, content) :: rest) se
              {| file := Some f; videoID := id; fileSize := 0; deferred := [f] |} w0 eq_refl)
    as (l1 & w1 & (Hf1 & Hv1 & Hd1) & Hrecv & Ho1 & Hp1 & _ & Hfile & Hoth).
  { rewrite Hopen0. apply in_after_insertion. }
  { lia. }
  destruct l1 as [fl vid sz ds]. cbn [file videoID deferred] in Hf1, Hv1, Hd1.
  subst fl vid ds.
  assert (Hof : file_id f ∈ open_files w1).
  { rewrite Ho1, Hopen0. apply in_after_insertion. }
  assert (Hadd : server.AddJob (mkJob (file_name f) id) (pool w1)
                 = Ok (true, server.enqueued (mkJob (file_name f) id) (pool w))).
  { rewrite Hp1, Hpool0.
    destruct (AddJob_results (mkJob (file_name f) id) (pool w))
      as [[Hcl _] | [(_ & Hfull & _) | (_ & _ & E)]]; [congruence | lia | exact E]. }
  cbn [messages map fst snd] in Hrecv |- *. fold (messages rest) in Hrecv |- *.
  unfold UploadVideo. rewrite Hloop, Hrecv. unfold UploadVideo_eof. cbn [file videoID].
  rewrite (Close_open f w1 Hof). cbn [snd]. unfold AddJob. world_simpl. rewrite Hadd.
  assert (Hdata : fs w1 !! path
                  = Some (Regular (payload ((filename, content) :: rest)))).
  { rewrite <- Hname. rewrite (Hfile []); [reflexivity|].
    rewrite Hfs0, Hname. apply lookup_insert_eq. }
  assert (Hothers : forall p, p <> path -> fs w1 !! p = fs w !! p).
  { intros p Hne. rewrite Hoth by now rewrite Hname.
    rewrite Hfs0. now apply lookup_insert_ne. }
  destruct se as [c|]; cbn [deferred run_deferred fst snd];
    rewrite Close_closed by apply not_in_after_removal; world_simpl;
    (split; [reflexivity|]); (split; [exact Hdata|]); (split; [exact Hothers|]);
    (split; [now rewrite Hname|]); rewrite <- Hid; apply not_in_after_removal.
Qed.

(** X9. A streaming upload that meets no obstacle stores what was sent: when
    the creation of the destination file succeeds, the volume has room for
    all the chunks and the queue is open with a free slot, the handler
    acknowledges the upload (or returns the error of [SendAndClose], if that
    fails), the destination file holds exactly the concatenation of the
    chunks in the order received, every other path of the file system is
    untouched, the job for that file is at the tail of the queue, and the
    file is closed. *)
Theorem upload_stores_the_chunks
    (filename : string) (content : list byte) (rest : list (string * list byte))
    (se : option code) (w : World) :
  let chunks := (filename, content) :: rest in
  let id := stream_video_id filename in
  let path := save_path id in
  let r := UploadVideo (messages chunks) se w in
  fst (os.Create path w) <> None ->
  (length (payload chunks) <= free w)%nat ->
  closed (JobQueue (pool w)) = false ->
  server.queue_len (pool w) < cap (JobQueue (pool w)) ->
  fst r = match se with
          | None => Returns (UploadStatus "Upload successful" true id)
          | Some c => Returns (Status c "SendAndClose")
          end
  /\ fs (snd r) !! path = Some (Regular (payload chunks))
  /\ (forall p, p <> path -> fs (snd r) !! p = fs w !! p)
  /\ pool (snd r) = server.enqueued (mkJob path id) (pool w)
  /\ next_file w ∉ open_files (snd r).
Proof. exact (stream_upload_stored filename content rest se w). Qed.

End StreamingUploads.

(** ** Streaming uploads: what is ignored, what is left behind *)

Section StreamingAborts.

Import main.

#[local] Arguments os.Create : simpl never.
#[local] Arguments os.Write : simpl never.
#[local] Arguments os.Close : simpl never.
#[local] Arguments os.Remove : simpl never.
#[local] Arguments filepath.Join : simpl never.
#[local] Arguments filepath.Base : simpl never.
#[local] Arguments Sprintf_s : simpl never.
#[local] Arguments wrap_int : simpl never.

(** Two results of [stream.Recv()] that differ at most in the file name of
    the message. *)
Definition same_but_name (a b : recv) : Prop :=
  match a, b with
  | Msg _ c1, Msg _ c2 => c1 = c2
  | RecvErr e1, RecvErr e2 => e1 = e2
  | _, _ => False
  end.

Lemma loop_ignores_names recvs recvs' :
  Forall2 same_but_name recvs recvs' ->
  forall se l w f,
    file l = Some f ->
    UploadVideo_loop recvs se l w = UploadVideo_loop recvs' se l w.
Proof.
  induction 1 as [|a b recvs recvs' Hab _ IH]; intros se l w f Hf; [reflexivity|].
  destruct a as [n1 c1|e1], b as [n2 c2|e2]; simpl in Hab; try contradiction; subst.
  - rewrite !UploadVideo_loop_Msg, Hf. unfold write_chunk.
    destruct (os.Write f c2 w) as [[n ok] w2]. destruct ok; [|reflexivity].
    apply (IH se _ w2 f). exact Hf.
  - reflexivity.
Qed.

(** X10. Only the first message names the upload: the file names carried by
    the later messages of a stream are never read, so two streams that agree
    on the first message and on the contents (or errors) of the later ones
    have the same outcome and leave the same world. *)
Theorem later_file_names_are_ignored
    (filename : string) (content : list byte) (rest rest' : list recv)
    (se : option code) (w : World) :
  Forall2 same_but_name rest rest' ->
  UploadVideo (Msg filename content :: rest) se w
  = UploadVideo (Msg filename content :: rest') se w.
Proof.
  intros H. unfold UploadVideo. rewrite !UploadVideo_loop_Msg. cbn [file no_locals].
  destruct (os.Create (save_path (stream_video_id filename)) w) as [[f|] w0];
    [|reflexivity].
  unfold write_chunk. destruct (os.Write f content w0) as [[n ok] w2].
  destruct ok; [|reflexivity].
  cbn [file videoID fileSize deferred].
  erewrite (loop_ignores_names rest rest' H); reflexivity.
Qed.

(** The files of the admission attempts that were rejected. *)
Definition rejected_files (tr : list Event) : list string :=
  omap (λ e, match e with EvAddJob job false => Some (Filename job) | _ => None end) tr.

Lemma rejected_files_app tr1 tr2 :
  rejected_files (tr1 ++ tr2) = rejected_files tr1 ++ rejected_files tr2.
Proof. unfold rejected_files. apply omap_app. Qed.

Lemma removals_append tr1 tr2 : removals (tr1 ++ tr2) = removals tr1 ++ removals tr2.
Proof. unfold removals. apply omap_app. Qed.

Lemma writes_rejected f sizes : rejected_files (writes f sizes) = [].
Proof. induction sizes as [|n sizes IH]; [reflexivity | exact IH]. Qed.

Lemma stream_removals recvs se w :
  removals (calls_between w (snd (UploadVideo recvs se w)))
  = rejected_files (calls_between w (snd (UploadVideo recvs se w)))
  /\ (length (admissions (calls_between w (snd (UploadVideo recvs se w)))) <= 1)%nat.
Proof.
  destruct recvs as [|[filename content|err] rest].
  - rewrite UploadVideo_no_chunk. cbn [snd]. rewrite calls_between_same.
    split; [reflexivity | simpl; lia].
  - destruct (os.Create (save_path (stream_video_id filename)) w) as [[f|] w0] eqn:Hc.
    + destruct (session_after_create filename content rest se w f w0 Hc)
        as (e & w' & sizes & suffix & E & Ht & _ & Hexit).
      rewrite E. cbn [snd]. rewrite (calls_between_app _ _ _ Ht).
      destruct (writes_views f f sizes) as (_ & _ & _ & Wa & Wr).
      change (EvCreate ?p ?r :: ?l) with ([EvCreate p r] ++ l).
      rewrite !removals_append, !rejected_files_app, !admissions_app.
      rewrite Wa, Wr, writes_rejected.
      destruct Hexit; cbn; split; (reflexivity || lia).
    + rewrite (first_chunk_failed filename content rest se w w0 Hc). cbn [snd].
      apply Create_failed in Hc as ->.
      rewrite (calls_between_app w _ [EvCreate (save_path (stream_video_id filename)) None])
        by reflexivity.
      split; [reflexivity | simpl; lia].
  - rewrite UploadVideo_stream_error. cbn [snd]. rewrite calls_between_same.
    split; [reflexivity | simpl; lia].
Qed.

Lemma web_removals r w :
  removals (calls_between w (snd (handleWebUpload r w)))
  = rejected_files (calls_between w (snd (handleWebUpload r w)))
  /\ (length (admissions (calls_between w (snd (handleWebUpload r w)))) <= 1)%nat.
Proof.
  destruct (String.eqb (Method r) "POST") eqn:Hm.
  2:{ unfold handleWebUpload. rewrite Hm. cbn [negb snd].
      rewrite calls_between_same. split; [reflexivity | simpl; lia]. }
  apply String.eqb_eq in Hm.
  destruct (FormFile_video r) as [[filename content]|] eqn:Hf.
  2:{ unfold handleWebUpload. rewrite Hm, Hf. cbn [snd].
      rewrite calls_between_same. split; [reflexivity | simpl; lia]. }
  destruct (os.Create (save_path (web_video_id filename)) w) as [[dst|] w0] eqn:Hc.
  - destruct (web_after_create r w filename content dst w0 Hm Hf Hc)
      as (e & w' & n & copied & suffix & E & Ht & _ & Hexit).
    rewrite E. cbn [snd]. rewrite (calls_between_app _ _ _ Ht).
    destruct Hexit; cbn; split; (reflexivity || lia).
  - rewrite (handleWebUpload_POST r w filename content Hm Hf), Hc. cbn [snd].
    apply Create_failed in Hc as ->.
    rewrite (calls_between_app w _ [EvCreate (save_path (web_video_id filename)) None])
      by reflexivity.
    split; [reflexivity | simpl; lia].
Qed.

(** X11. On both upload paths a handler calls [AddJob] at most once, and the
    files it removes are exactly the files of the rejected admission
    attempts: nothing is removed when the upload is admitted, when it is
    aborted by a transport, creation or write error, or when the handler
    panics. *)
Theorem files_are_removed_only_on_rejection :
  (forall recvs se w,
     removals (calls_between w (snd (UploadVideo recvs se w)))
     = rejected_files (calls_between w (snd (UploadVideo recvs se w)))
     /\ (length (admissions (calls_between w (snd (UploadVideo recvs se w)))) <= 1)%nat)
  /\ (forall r w,
        removals (calls_between w (snd (handleWebUpload r w)))
        = rejected_files (calls_between w (snd (handleWebUpload r w)))
        /\ (length (admissions (calls_between w (snd (handleWebUpload r w)))) <= 1)%nat).
Proof. split; [exact stream_removals | exact web_removals]. Qed.

(** X12. An aborted streaming upload leaves its file behind: when the file
    was created and the handler then returns an [Unknown] (transport error)
    or [Internal] (write error) status, the partly written destination file
    is still there as a regular file, closed, and the handler has neither
    called [AddJob] nor removed anything. *)
Theorem aborted_upload_leaves_partial_file
    (filename : string) (content : list byte) (rest : list recv) (w : World)
    (c : code) (msg : string) :
  let path := save_path (stream_video_id filename) in
  let r := UploadVideo (Msg filename content :: rest) None w in
  fst (os.Create path w) <> None ->
  fst r = Returns (Status c msg) ->
  c = Unknown \/ c = Internal ->
  (exists data, fs (snd r) !! path = Some (Regular data))
  /\ admissions (calls_between w (snd r)) = []
  /\ removals (calls_between w (snd r)) = []
  /\ next_file w ∉ open_files (snd r).
Proof.
  intros path r. subst path r. intros Hcreate Hres Hc.
  destruct (os.Create (save_path (stream_video_id filename)) w) as [[f|] w0] eqn:Hcr;
    [clear Hcreate | now contradiction Hcreate].
  pose proof (first_chunk_created filename content rest None w f w0 Hcr) as Hloop.
  apply Create_ok in Hcr as (Hname & Hid & Hopen0 & Hfs0 & Htr0 & Hpool0 & _).
  destruct (receiving_summary f (Msg filename content :: rest) None
              {| file := Some f; videoID := stream_video_id filename;
                 fileSize := 0; deferred := [f] |} w0 eq_refl)
    as (l1 & w1 & [Hwo Hwp Hwn [sizes Hwt] Hwf Hwoth] & (Hf1 & Hv1 & Hd1) & Hcases).
  destruct l1 as [fl vid sz ds]. cbn [file videoID deferred] in Hf1, Hv1, Hd1.
  subst fl vid ds.
  assert (Hreg : exists data, fs w1 !! save_path (stream_video_id filename)
                              = Some (Regular data)).
  { rewrite <- Hname. apply (Hwf []). rewrite Hfs0, Hname. apply lookup_insert_eq. }
  assert (Hof : file_id f ∈ open_files w1).
  { rewrite Hwo, Hopen0. apply in_after_insertion. }
  destruct (writes_views f f sizes) as (_ & _ & _ & Wa & Wr).
  destruct Hcases as [K | [[err K] | (b & Hb & K)]].
  - (* end of stream: the status is neither Unknown nor Internal *)
    exfalso.
    destruct (UploadVideo_eof None
                {| file := Some f; videoID := stream_video_id filename;
                   fileSize := sz; deferred := [f] |} w1) as [[e l2] w2] eqn:Heof.
    rewrite (UploadVideo_run _ _ _ _ _ _ (eq_trans Hloop K)) in Hres.
    cbn [fst] in Hres. subst e.
    unfold UploadVideo_eof in Heof. cbn [file videoID] in Heof.
    rewrite (Close_open f w1 Hof) in Heof. cbn [snd] in Heof. unfold AddJob in Heof.
    cbn [fs free open_files next_file pool trace emit set_pool set_fs slog fst snd] in Heof.
    destruct (server.AddJob _ (pool w1)) as [[[|] wp']|p]; try discriminate Heof.
    injection Heof as <- _. destruct Hc; discriminate.
  - (* transport error *)
    rewrite (UploadVideo_run _ _ _ _ _ _ (eq_trans Hloop K)).
    cbn [deferred run_deferred snd]. rewrite (Close_open f w1 Hof). world_simpl.
    rewrite (calls_between_app w _
               ([EvCreate (save_path (stream_video_id filename)) (Some f)]
                ++ writes f sizes ++ [EvClose f true])).
    2:{ world_simpl. rewrite Hwt, Htr0. trace_eq. }
    rewrite !removals_append, !admissions_app, Wa, Wr.
    split; [exact Hreg|]. split; [reflexivity|]. split; [reflexivity|].
    rewrite Hwo, Hopen0, <- Hid. apply not_in_after_removal.
  - (* write error *)
    rewrite (UploadVideo_run _ _ _ _ _ _ (eq_trans Hloop K)).
    destruct (os.Write f b w1) as [[n ok] w2] eqn:Hw. cbn [fst snd] in Hb. subst ok.
    destruct (Write_effect f b w1 n false w2 Hw) as (Ho2 & _ & _ & Ht2 & Hf2 & _).
    cbn [deferred run_deferred snd].
    rewrite Close_open by (rewrite Ho2; exact Hof). world_simpl.
    rewrite (calls_between_app w _
               ([EvCreate (save_path (stream_video_id filename)) (Some f)]
                ++ writes f sizes ++ [EvWrite f n false; EvClose f true])).
    2:{ world_simpl. rewrite Ht2, Hwt, Htr0. trace_eq. }
    rewrite !removals_append, !admissions_app, Wa, Wr.
    split; [|split; [reflexivity|]; split; [reflexivity|]].
    + destruct Hreg as [data Hdata]. rewrite <- Hname in Hdata |- *.
      rewrite (Hf2 data Hdata). eauto.
    + rewrite Ho2, Hwo, Hopen0, <- Hid. apply not_in_after_removal.
Qed.

End StreamingAborts.

(** ** Uploads meeting a full queue or a full volume *)

Section UploadEdges.

Import main.

#[local] Arguments os.Create : simpl never.
#[local] Arguments os.Write : simpl never.
#[local] Arguments os.Close : simpl never.
#[local] Arguments os.Remove : simpl never.
#[local] Arguments filepath.Join : simpl never.
#[local] Arguments filepath.Base : simpl never.
#[local] Arguments Sprintf_s : simpl never.
#[local] Arguments wrap_int : simpl never.

(** X13. A rejected upload can destroy an earlier one: when a regular file
    with the derived name already exists (an earlier upload of the same file
    name, possibly still waiting in the queue), a streaming upload that
    arrives while the queue, of capacity at least one, is full and whose
    creation of the destination file succeeds truncates that file on its
    first chunk and removes it when it is rejected, so the earlier video is
    gone, although the caller is told that its upload was not accepted. *)
Theorem rejected_upload_deletes_earlier_video
    (filename : string) (content : list byte) (rest : list (string * list byte))
    (se : option code) (w : World) (earlier : list byte) :
  let path := save_path (stream_video_id filename) in
  let r := UploadVideo (messages ((filename, content) :: rest)) se w in
  fs w !! path = Some (Regular earlier) ->
  fst (os.Create path w) <> None ->
  (length (payload ((filename, content) :: rest)) <= free w)%nat ->
  closed (JobQueue (pool w)) = false ->
  1 <= cap (JobQueue (pool w)) ->
  cap (JobQueue (pool w)) <= server.queue_len (pool w) ->
  fst r = Returns (Status ResourceExhausted "Server busy, queue full")
  /\ fs (snd r) !! path = None
  /\ pool (snd r) = pool w.
Proof.
  intros path r. subst r path. intros Hold Hcreate Hroom Hopen Hcap Hfull.
  destruct (Create_succeeds _ w Hcreate) as (f & w0 & Hc).
  pose proof (Create_keeps_room _ w f w0 Hc) as Hfree.
  pose proof (first_chunk_created filename content (messages rest) se w f w0 Hc) as Hloop.
  set (id := stream_video_id filename) in *. set (path := save_path id) in *.
  apply Create_ok in Hc as (Hname & Hid & Hopen0 & Hfs0 & Htr0 & Hpool0 & _).
  destruct (receiving_writes f ((filename, content) :: rest) se
              {| file := Some f; videoID := id; fileSize := 0; deferred := [f] |} w0 eq_refl)
    as (l1 & w1 & (Hf1 & Hv1 & Hd1) & Hrecv & Ho1 & Hp1 & _ & Hfile & Hoth).
  { rewrite Hopen0. apply in_after_insertion. }
  { lia. }
  destruct l1 as [fl vid sz ds]. cbn [file videoID deferred] in Hf1, Hv1, Hd1.
  subst fl vid ds.
  assert (Hof : file_id f ∈ open_files w1).
  { rewrite Ho1, Hopen0. apply in_after_insertion. }
  assert (Hadd : server.AddJob (mkJob (file_name f) id) (pool w1) = Ok (false, pool w1)).
  { destruct (AddJob_results (mkJob (file_name f) id) (pool w1))
      as [[Hcl _] | [(_ & _ & E) | (_ & Hslot & _)]];
      [rewrite Hp1, Hpool0 in Hcl; congruence | exact E
      | rewrite Hp1, Hpool0 in Hslot; lia]. }
  cbn [messages map fst snd] in Hrecv |- *. fold (messages rest) in Hrecv |- *.
  unfold UploadVideo. rewrite Hloop, Hrecv. unfold UploadVideo_eof. cbn [file videoID].
  rewrite (Close_open f w1 Hof). cbn [snd]. unfold AddJob. world_simpl. rewrite Hadd.
  assert (Hdata : fs w1 !! file_name f
                  = Some (Regular (payload ((filename, content) :: rest)))).
  { rewrite (Hfile []); [reflexivity|]. rewrite Hfs0, Hname. apply lookup_insert_eq. }
  unfold os.Remove. world_simpl. cbn [Filename]. rewrite Hdata.
  cbn [deferred run_deferred fst snd].
  rewrite Close_closed by apply not_in_after_removal. world_simpl.
  split; [reflexivity|]. split; [rewrite <- Hname; apply lookup_delete_eq|].
  now rewrite Hp1.
Qed.

(** X14. An HTTP upload that meets no obstacle: a POST with a video part
    for which the creation of the destination file succeeds, with room on
    the volume and a free slot in the open queue, is answered 200; the
    destination file holds exactly the content of the part, every other path
    is untouched, the job for that file is at the tail of the queue, and the
    file is closed. *)
Theorem web_upload_stores_the_part
    (r : Request) (filename : string) (content : list byte) (w : World) :
  let id := web_video_id filename in
  let path := save_path id in
  Method r = "POST" ->
  FormFile_video r = Some (filename, content) ->
  fst (os.Create path w) <> None ->
  (length content <= free w)%nat ->
  closed (JobQueue (pool w)) = false ->
  server.queue_len (pool w) < cap (JobQueue (pool w)) ->
  fst (handleWebUpload r w)
  = Returns {| StatusCode := StatusOK; Body := Text "Upload successful" |}
  /\ fs (snd (handleWebUpload r w)) !! path = Some (Regular content)
  /\ (forall p, p <> path -> fs (snd (handleWebUpload r w)) !! p = fs w !! p)
  /\ pool (snd (handleWebUpload r w)) = server.enqueued (mkJob path id) (pool w)
  /\ next_file w ∉ open_files (snd (handleWebUpload r w)).
Proof.
  intros id path. subst id path. intros Hm Hf Hcreate Hroom Hopen Hslot.
  destruct (Create_succeeds _ w Hcreate) as (dst & w0 & Hc).
  pose proof (Create_keeps_room _ w dst w0 Hc) as Hfree.
  rewrite (handleWebUpload_POST r w filename content Hm Hf), Hc.
  set (id := web_video_id filename) in *. set (path := save_path id) in *.
  apply Create_ok in Hc as (Hname & Hid & Hopen0 & Hfs0 & Htr0 & Hpool0 & _).
  assert (Hof : file_id dst ∈ open_files w0).
  { rewrite Hopen0. apply in_after_insertion. }
  rewrite (Write_succeeds dst content w0 Hof) by lia. cbn [negb].
  rewrite Close_open by (world_simpl; exact Hof). cbn [snd].
  unfold AddJob. world_simpl.
  assert (Hadd : server.AddJob (mkJob path id) (pool w0)
                 = Ok (true, server.enqueued (mkJob path id) (pool w))).
  { rewrite Hpool0.
    destruct (AddJob_results (mkJob path id) (pool w))
      as [[Hcl _] | [(_ & Hfull & _) | (_ & _ & E)]]; [congruence | lia | exact E]. }
  rewrite Hadd. world_simpl. cbn [fst].
  split; [reflexivity|]. split; [|split; [|split]].
  - rewrite Hname, lookup_alter_eq, Hfs0, lookup_insert_eq. reflexivity.
  - intros p Hne. rewrite lookup_alter_ne by now rewrite Hname.
    rewrite Hfs0. now apply lookup_insert_ne.
  - reflexivity.
  - rewrite Hopen0, <- Hid. apply not_in_after_removal.
Qed.

Lemma Create_free path w f w0 :
  os.Create path w = (Some f, w0) ->
  free w0 = (free w + match fs w !! path with
                      | Some (Regular old) => length old
                      | _ => O
                      end)%nat.
Proof.
  unfold os.Create. destruct (os.Create_errno path (fs w)); [discriminate|].
  intros H. injection H as _ <-. reflexivity.
Qed.

Lemma Write_short f b w :
  file_id f ∈ open_files w ->
  (free w < length b)%nat ->
  os.Write f b w =
    ((free w, false),
     emit (EvWrite f (free w) false)
       {| fs := alter (os.append_content (take (free w) b)) (file_name f) (fs w);
          free := O;
          open_files := open_files w; next_file := next_file w;
          pool := pool w; trace := trace w |}).
Proof.
  intros Ho Hl. unfold os.Write.
  destruct (Write_errno_cases f b w) as [[Hc _] | [(_ & Hf & _) | (_ & _ & E)]];
    [contradiction | lia | now rewrite E].
Qed.

(** X15. An HTTP upload that does not fit on the volume leaves an orphan:
    when the derived name is new, the creation of the destination file
    succeeds and the part is larger than the room left, the copy fails and
    the handler answers 500, but the destination file it created stays in
    [uploads], closed, holding the part of the content that fitted (less
    than the whole); the handler does not remove it and does not call
    [AddJob]. *)
Theorem web_upload_copy_failure_leaves_file
    (r : Request) (filename : string) (content : list byte) (w : World) :
  let path := save_path (web_video_id filename) in
  Method r = "POST" ->
  FormFile_video r = Some (filename, content) ->
  fs w !! path = None ->
  fst (os.Create path w) <> None ->
  (free w < length content)%nat ->
  fst (handleWebUpload r w)
  = Returns (http_Error "Failed to save file" StatusInternalServerError)
  /\ fs (snd (handleWebUpload r w)) !! path = Some (Regular (take (free w) content))
  /\ (length (take (free w) content) < length content)%nat
  /\ admissions (calls_between w (snd (handleWebUpload r w))) = []
  /\ removals (calls_between w (snd (handleWebUpload r w))) = []
  /\ pool (snd (handleWebUpload r w)) = pool w
  /\ next_file w ∉ open_files (snd (handleWebUpload r w)).
Proof.
  intros path. subst path. intros Hm Hf Hnone Hcreate Hbig.
  rewrite (handleWebUpload_POST r w filename content Hm Hf).
  destruct (Create_succeeds _ w Hcreate) as (dst & w0 & Hc). rewrite Hc.
  pose proof (Create_free _ w dst w0 Hc) as Hfree0. rewrite Hnone, Nat.add_0_r in Hfree0.
  set (path := save_path (web_video_id filename)) in *.
  apply Create_ok in Hc as (Hname & Hid & Hopen0 & Hfs0 & Htr0 & Hpool0 & _).
  assert (Hof : file_id dst ∈ open_files w0).
  { rewrite Hopen0. apply in_after_insertion. }
  rewrite (Write_short dst content w0 Hof) by lia. cbn [negb].
  rewrite Close_open by (world_simpl; exact Hof). world_simpl. cbn [fst].
  split; [reflexivity|].
  split; [rewrite Hname, lookup_alter_eq, Hfs0, lookup_insert_eq, Hfree0; reflexivity|].
  split; [rewrite length_take; lia|].
  rewrite (calls_between_app w _
             [EvCreate path (Some dst); EvWrite dst (free w0) false; EvClose dst true])
    by (world_simpl; rewrite Htr0; trace_eq).
  split; [reflexivity|]. split; [reflexivity|]. split; [exact Hpool0|].
  rewrite Hopen0, <- Hid. apply not_in_after_removal.
Qed.

End UploadEdges.

(** ** Naming: which uploads share a destination *)

Section NameCollisions.

Import filepath.
Import main.

Lemma Base_idempotent path : Base (Base path) = Base path.
Proof.
  destruct (Base_cases path) as [E | (b & E & Hne & Hns)]; rewrite E.
  - reflexivity.
  - unfold Base. fold chars_of. rewrite chars_of_string.
    now rewrite (Base_chars_name b Hne Hns).
Qed.

Lemma Base_of_name b :
  b <> [] -> existsb is_sep b = false ->
  Base (string_of_list_ascii b) = string_of_list_ascii b.
Proof.
  intros Hne Hns. unfold Base. fold chars_of. rewrite chars_of_string.
  now rewrite (Base_chars_name b Hne Hns).
Qed.

(** The identifier of the streaming path, by the base component of the file
    name. *)
Lemma stream_video_id_cases filename :
  (Base filename = "/" /\ stream_video_id filename = "video_")
  \/ (exists b, Base filename = string_of_list_ascii b
                /\ b <> [] /\ existsb is_sep b = false
                /\ stream_video_id filename = "video_" +:+ string_of_list_ascii b).
Proof.
  unfold stream_video_id. rewrite Sprintf_s_prefix.
  destruct (Base_cases filename) as [E | (b & E & Hne & Hns)]; rewrite E.
  - left. split; reflexivity.
  - right. exists b. repeat split; try assumption.
    change ("video_" +:+ string_of_list_ascii b)
      with (string_of_list_ascii (chars_of "video_" ++ b)).
    apply Base_of_name; [discriminate | now apply existsb_app_false].
Qed.

Lemma save_path_stream filename :
  save_path (stream_video_id filename) = "uploads/" +:+ stream_video_id filename.
Proof.
  destruct (stream_video_id_cases filename) as [[_ E] | (b & _ & Hne & Hns & E)];
    rewrite E.
  - vm_compute. reflexivity.
  - change ("video_" +:+ string_of_list_ascii b)
      with (string_of_list_ascii ("v"%char :: chars_of "ideo_" ++ b)).
    apply Join_uploads_name. now apply existsb_app_false.
Qed.

Lemma string_of_chars_nonempty b : b <> [] -> string_of_list_ascii b <> "".
Proof. destruct b; [contradiction | discriminate]. Qed.

Lemma append_inj_l p s t : p +:+ s = p +:+ t -> s = t.
Proof.
  induction p as [|c p IH]; [auto|]. rewrite !append_cons. intros H.
  injection H as H. auto.
Qed.

(** X16. The identifier of an upload depends only on the base component of
    the file name sent: a client that sends [filepath.Base(path)], as the
    load generator does, gets the identifier it would get for the whole
    path, on both upload paths. *)
Theorem video_id_depends_on_base_name (path : string) :
  stream_video_id (Base path) = stream_video_id path
  /\ web_video_id (Base path) = web_video_id path
  /\ (Base path <> "/" -> stream_video_id (Base path) = "video_" +:+ Base path).
Proof.
  unfold stream_video_id, web_video_id. rewrite Base_idempotent.
  split; [reflexivity|]. split; [reflexivity|].
  intros Hroot. fold (stream_video_id path).
  destruct (stream_video_id_cases path) as [[E _] | (b & E & _ & _ & Eid)];
    [contradiction | now rewrite Eid, E].
Qed.

(** X17. Two streaming uploads are written to the same destination file
    exactly when their file names have the same base component: names that
    differ only in their directories collide (the later upload truncates the
    file of the earlier one), and names with different base components never
    do. *)
Theorem same_destination_iff_same_base_name (name1 name2 : string) :
  save_path (stream_video_id name1) = save_path (stream_video_id name2)
  <-> Base name1 = Base name2.
Proof.
  rewrite !save_path_stream. split.
  - intros H. apply append_inj_l in H.
    destruct (stream_video_id_cases name1) as [[B1 E1] | (b1 & B1 & N1 & _ & E1)],
             (stream_video_id_cases name2) as [[B2 E2] | (b2 & B2 & N2 & _ & E2)];
      rewrite E1, E2 in H; rewrite B1, B2.
    + reflexivity.
    + exfalso. change "video_" with ("video_" +:+ "") in H at 1.
      apply append_inj_l in H. symmetry in H.
      now apply (string_of_chars_nonempty b2 N2).
    + exfalso. change "video_" with ("video_" +:+ "") in H at 2.
      apply append_inj_l in H. now apply (string_of_chars_nonempty b1 N1).
    + now apply append_inj_l in H.
  - intros H. unfold stream_video_id. now rewrite H.
Qed.

(** X18. The two upload paths share one name space: a streaming upload of a
    file named [web_] followed by a name gets the identifier, and hence the
    destination file, of the HTTP upload of that name. *)
Theorem stream_and_web_uploads_can_collide (name : string) :
  Base name <> "/" ->
  stream_video_id ("web_" +:+ Base name) = web_video_id name
  /\ save_path (stream_video_id ("web_" +:+ Base name)) = save_path (web_video_id name).
Proof.
  intros Hroot.
  assert (E : stream_video_id ("web_" +:+ Base name) = web_video_id name).
  { unfold web_video_id. rewrite Sprintf_s_prefix.
    destruct (Base_cases name) as [B | (b & B & Hne & Hns)]; [contradiction|].
    rewrite B. unfold stream_video_id. rewrite Sprintf_s_prefix.
    change ("web_" +:+ string_of_list_ascii b)
      with (string_of_list_ascii (chars_of "web_" ++ b)).
    rewrite Base_of_name by (discriminate || now apply existsb_app_false).
    change ("video_" +:+ string_of_list_ascii (chars_of "web_" ++ b))
      with (string_of_list_ascii (chars_of "video_web_" ++ b)).
    rewrite Base_of_name by (discriminate || now apply existsb_app_false).
    reflexivity. }
  split; [exact E | now rewrite E].
Qed.

Lemma base_name_collision_example :
  save_path (stream_video_id "cam1/clip.mp4") = save_path (stream_video_id "cam2/clip.mp4")
  /\ save_path (stream_video_id "clip.mp4") <> save_path (stream_video_id "clip2.mp4").
Proof. split; [vm_compute; reflexivity | vm_compute; discriminate]. Qed.

Lemma stream_and_web_uploads_can_collide_witness :
  Base "dir/x.mp4" <> "/"
  /\ stream_video_id ("web_" +:+ Base "dir/x.mp4") = web_video_id "dir/x.mp4"
  /\ save_path (stream_video_id ("web_" +:+ Base "dir/x.mp4"))
     = save_path (web_video_id "dir/x.mp4").
Proof.
  assert (H : Base "dir/x.mp4" <> "/") by (vm_compute; discriminate).
  split; [exact H|]. exact (stream_and_web_uploads_can_collide "dir/x.mp4" H).
Defined.

End NameCollisions.

(** ** The video listing, in terms of the file system *)

Section VideoListing.

Import main.

Lemma ascii_compare_refl c : Ascii.compare c c = Eq.
Proof. unfold Ascii.compare. apply N.compare_refl. Qed.

Lemma String_leb_trans a : forall b c,
  String.leb a b = true -> String.leb b c = true -> String.leb a c = true.
Proof.
  unfold String.leb.
  induction a as [|c1 a IH]; intros [|c2 b] [|c3 c]; simpl; try easy.
  destruct (Ascii.compare c1 c2) eqn:E12; [| |easy].
  - apply Ascii.compare_eq_iff in E12 as ->.
    destruct (Ascii.compare c2 c3); [apply IH | easy | easy].
  - destruct (Ascii.compare c2 c3) eqn:E23; [| |easy].
    + apply Ascii.compare_eq_iff in E23 as <-. now rewrite E12.
    + unfold Ascii.compare in *. rewrite N.compare_lt_iff in E12, E23.
      replace (N_of_ascii c1 ?= N_of_ascii c3)%N with Lt; [easy|].
      symmetry. apply N.compare_lt_iff. lia.
Qed.

Lemma substring_all s : substring 0 (String.length s) s = s.
Proof. induction s as [|c s IH]; simpl; [reflexivity | now rewrite IH]. Qed.

Lemma length_append p s : String.length (p +:+ s) = (String.length p + String.length s)%nat.
Proof.
  induction p as [|c p IH]; [reflexivity|]. rewrite append_cons. simpl. now rewrite IH.
Qed.

Lemma substring_after p : forall k n s,
  substring (String.length p + k) n (p +:+ s) = substring k n s.
Proof.
  induction p as [|c p IH]; intros k n s; [reflexivity|].
  rewrite append_cons. simpl. apply IH.
Qed.

Lemma prefix_inv p : forall s, String.prefix p s = true -> exists n, s = p +:+ n.
Proof.
  induction p as [|c p IH]; intros s H.
  - now exists s.
  - destruct s as [|c' s]; simpl in H; [discriminate|].
    destruct (ascii_dec c c') as [<-|]; [|discriminate].
    destruct (IH s H) as [n ->]. exists n. now rewrite append_cons.
Qed.

Lemma strip_prefix_Some p s n : os.strip_prefix p s = Some n <-> s = p +:+ n.
Proof.
  unfold os.strip_prefix. split.
  - destruct (String.prefix p s) eqn:E; [|discriminate].
    destruct (prefix_inv p s E) as [m ->]. intros [= <-]. f_equal.
    rewrite length_append. replace (String.length p + String.length m - String.length p)%nat
      with (String.length m) by lia.
    rewrite <- (Nat.add_0_r (String.length p)) at 1.
    rewrite substring_after. symmetry. apply substring_all.
  - intros ->. rewrite prefix_append. f_equal.
    rewrite length_append. replace (String.length p + String.length n - String.length p)%nat
      with (String.length n) by lia.
    rewrite <- (Nat.add_0_r (String.length p)) at 1.
    rewrite substring_after. apply substring_all.
Qed.

(** The entries of [uploads]: the keys [uploads/name] with a name that is
    not empty and has no separator. *)
Lemma entry_of_uploads k nd e :
  os.entry_of uploads (k, nd) = Some e
  <-> k = "uploads/" +:+ os.Name e
      /\ os.Name e <> ""
      /\ has_separator (os.Name e) = false
      /\ os.IsDir e = match nd with Directory => true | Regular _ => false end.
Proof.
  unfold os.entry_of, has_separator. cbn [fst snd].
  change (uploads +:+ "/") with "uploads/". split.
  - destruct (os.strip_prefix "uploads/" k) as [name|] eqn:E; [|discriminate].
    apply strip_prefix_Some in E as ->.
    destruct (String.eqb_spec name ""); [discriminate|]. cbn [orb].
    destruct (existsb filepath.is_sep (list_ascii_of_string name)) eqn:Hs; [discriminate|].
    intros [= <-]. cbn. auto.
  - destruct e as [name dir]. cbn. intros (-> & Hne & Hs & ->).
    rewrite (proj2 (strip_prefix_Some "uploads/" _ name) eq_refl).
    destruct (String.eqb_spec name ""); [contradiction|]. cbn [orb].
    now rewrite Hs.
Qed.

Lemma HasSuffix_nonempty s : HasSuffix s ".mp4" = true -> s <> "".
Proof. intros H ->. discriminate H. Qed.

Local Abbreviation is_video :=
  (fun e : os.DirEntry => negb (os.IsDir e) && HasSuffix (os.Name e) ".mp4").

(** What a listing of [uploads] yields: the names of the regular files
    directly in [uploads] that end in [.mp4]. *)
Lemma mp4_names_spec w entries name :
  os_ReadDir uploads w = Some entries ->
  In name (mp4_names entries)
  <-> has_separator name = false
      /\ HasSuffix name ".mp4" = true
      /\ exists content, fs w !! ("uploads/" +:+ name) = Some (Regular content).
Proof.
  unfold os_ReadDir. destruct (fs w !! uploads) as [[|]|]; try discriminate.
  intros [= <-]. unfold mp4_names. rewrite in_map_iff. split.
  - intros (e & <- & He). apply filter_In in He as [He Hv].
    apply (Permutation_in _ (Permutation_sym (DirEntrySort.Permuted_sort _))) in He.
    apply list_elem_of_In, list_elem_of_omap in He as ([k nd] & Hk & He).
    apply elem_of_map_to_list in Hk. apply entry_of_uploads in He as (-> & _ & Hs & Hd).
    apply andb_true_iff in Hv as [Hv1 Hv2]. rewrite Hd in Hv1.
    destruct nd as [content|]; [|discriminate]. eauto.
  - intros (Hs & Hv & content & Hc).
    exists (os.mkDirEntry name false). split; [reflexivity|].
    apply filter_In. split; [|cbn; now rewrite Hv].
    apply (Permutation_in _ (DirEntrySort.Permuted_sort _)).
    apply list_elem_of_In, list_elem_of_omap.
    exists ("uploads/" +:+ name, Regular content). split.
    + now apply elem_of_map_to_list.
    + apply entry_of_uploads. cbn. repeat split; try assumption.
      now apply HasSuffix_nonempty.
Qed.

Lemma entries_distinct (l : list (string * node)) :
  NoDup (map fst l) -> NoDup (map os.Name (omap (os.entry_of uploads) l)).
Proof.
  induction l as [|[k nd] l IH]; cbn [omap list_omap map fst]; [constructor|].
  intros Hnd. apply NoDup_cons in Hnd as [Hk Hnd].
  destruct (os.entry_of uploads (k, nd)) as [e|] eqn:He; [|now apply IH].
  cbn [map]. apply NoDup_cons. split; [|now apply IH].
  intros Hin. apply Hk. apply list_elem_of_In, in_map_iff in Hin as (e' & Hn & Hin).
  apply list_elem_of_In, list_elem_of_omap in Hin as ([k' nd'] & Hin & He').
  apply entry_of_uploads in He as (-> & _). apply entry_of_uploads in He' as (-> & _).
  rewrite <- Hn. apply list_elem_of_In, in_map_iff.
  exists ("uploads/" +:+ os.Name e', nd'). split; [reflexivity|].
  now apply list_elem_of_In.
Qed.

Lemma NoDup_names_filter (p : os.DirEntry -> bool) l :
  NoDup (map os.Name l) -> NoDup (map os.Name (List.filter p l)).
Proof.
  induction l as [|e l IH]; cbn [List.filter map]; [auto|].
  intros Hnd. apply NoDup_cons in Hnd as [He Hnd].
  destruct (p e); [|now apply IH]. cbn [map]. apply NoDup_cons. split; [|now apply IH].
  intros Hin. apply He. apply list_elem_of_In, in_map_iff in Hin as (e' & Hn & Hin).
  apply filter_In in Hin as [Hin _]. apply list_elem_of_In, in_map_iff. now exists e'.
Qed.

Lemma sorted_names_filter (p : os.DirEntry -> bool) l :
  StronglySorted (fun a b => is_true (DirEntryOrder.leb a b)) l ->
  StronglySorted (fun a b => String.leb a b = true) (map os.Name (List.filter p l)).
Proof.
  induction 1 as [|e l Hl IH He]; cbn [List.filter map]; [constructor|].
  destruct (p e); [|exact IH]. cbn [map]. constructor; [exact IH|].
  apply Forall_forall. intros n Hn. apply list_elem_of_In, in_map_iff in Hn as (e' & <- & Hin).
  apply filter_In in Hin as [Hin _].
  rewrite Forall_forall in He. exact (He e' (proj2 (list_elem_of_In _ _) Hin)).
Qed.

Lemma mp4_names_sorted w entries :
  os_ReadDir uploads w = Some entries ->
  StronglySorted (fun a b => String.leb a b = true) (mp4_names entries)
  /\ NoDup (mp4_names entries).
Proof.
  unfold os_ReadDir. destruct (fs w !! uploads) as [[|]|]; try discriminate.
  intros [= <-]. unfold mp4_names. split.
  - apply sorted_names_filter. apply DirEntrySort.StronglySorted_sort.
    intros a b c. unfold DirEntryOrder.leb, is_true. apply String_leb_trans.
  - apply NoDup_names_filter.
    rewrite <- (Permutation_map os.Name (DirEntrySort.Permuted_sort _)).
    apply entries_distinct. apply NoDup_fst_map_to_list.
Qed.

Lemma handleListVideos_names w entries :
  os_ReadDir uploads w = Some entries ->
  handleListVideos w =
    {| StatusCode := StatusOK;
       Body := JSON match mp4_names entries with
                    | [] => JNull
                    | names => JArray names
                    end |}.
Proof.
  intros Hr. unfold handleListVideos. rewrite Hr.
  rewrite collect_videos_None. now destruct (mp4_names entries).
Qed.

(** X19. The listing in terms of the file system: when [uploads] is a
    directory, the names returned are exactly the names without separator
    that end in [.mp4] and for which [uploads/name] is a regular file; they
    come in increasing order of name, each once.  A directory whose name ends
    in [.mp4], a file deeper in the tree and a file with another extension
    are never listed. *)
Theorem listing_is_the_mp4_files_of_uploads (w : World) :
  fs w !! uploads = Some Directory ->
  exists names,
    handleListVideos w =
      {| StatusCode := StatusOK;
         Body := JSON match names with [] => JNull | _ => JArray names end |}
    /\ (forall name,
          In name names
          <-> has_separator name = false
              /\ HasSuffix name ".mp4" = true
              /\ exists content, fs w !! ("uploads/" +:+ name) = Some (Regular content))
    /\ StronglySorted (fun a b => String.leb a b = true) names
    /\ NoDup names.
Proof.
  intros Hdir.
  assert (Hr : exists entries, os_ReadDir uploads w = Some entries).
  { unfold os_ReadDir. rewrite Hdir. eauto. }
  destruct Hr as [entries Hr]. exists (mp4_names entries).
  split; [|split].
  - rewrite (handleListVideos_names w entries Hr). now destruct (mp4_names entries).
  - intros name. exact (mp4_names_spec w entries name Hr).
  - exact (mp4_names_sorted w entries Hr).
Qed.

(** The listing fails exactly when [uploads] is not a directory. *)
Lemma handleListVideos_error (w : World) :
  (fs w !! uploads <> Some Directory
   -> handleListVideos w
      = http_Error "Failed to read uploads" StatusInternalServerError)
  /\ (fs w !! uploads = Some Directory -> StatusCode (handleListVideos w) = StatusOK).
Proof.
  unfold handleListVideos, os_ReadDir. split.
  - intros H. destruct (fs w !! uploads) as [[|]|]; [reflexivity | contradiction | reflexivity].
  - intros ->. reflexivity.
Qed.

End VideoListing.

(** ** What the worker writes, and what an upload adds to the listing *)

Section Artifacts.

Import filepath.
Import main.

Lemma append_assoc s1 s2 s3 : (s1 +:+ s2) +:+ s3 = s1 +:+ (s2 +:+ s3).
Proof.
  induction s1 as [|c s1 IH]; [reflexivity|]. rewrite !append_cons. now rewrite IH.
Qed.

Lemma HasSuffix_append s t suffix :
  String.length suffix = String.length t ->
  HasSuffix (s +:+ t) suffix = String.eqb t suffix.
Proof.
  intros Hl. unfold HasSuffix. rewrite length_append, Hl.
  replace (String.length t <=? String.length s + String.length t)%nat with true
    by (symmetry; apply Nat.leb_le; lia).
  replace (String.length s + String.length t - String.length t)%nat
    with (String.length s + 0)%nat by lia.
  rewrite substring_after, substring_all. reflexivity.
Qed.

Lemma HasSuffix_longer s t suffix :
  (String.length suffix <= String.length t)%nat ->
  HasSuffix (s +:+ t) suffix = HasSuffix t suffix.
Proof.
  intros Hl. unfold HasSuffix. rewrite length_append.
  replace (String.length suffix <=? String.length s + String.length t)%nat with true
    by (symmetry; apply Nat.leb_le; lia).
  replace (String.length suffix <=? String.length t)%nat with true
    by (symmetry; apply Nat.leb_le; lia).
  replace (String.length s + String.length t - String.length suffix)%nat
    with (String.length s + (String.length t - String.length suffix))%nat by lia.
  now rewrite substring_after.
Qed.

Lemma stream_video_id_of_name b :
  b <> [] -> existsb is_sep b = false ->
  stream_video_id (string_of_list_ascii b) = "video_" +:+ string_of_list_ascii b.
Proof.
  intros Hne Hns. unfold stream_video_id. rewrite Sprintf_s_prefix.
  rewrite (Base_of_name b Hne Hns).
  change ("video_" +:+ string_of_list_ascii b)
    with (string_of_list_ascii (chars_of "video_" ++ b)).
  apply Base_of_name; [discriminate | now apply existsb_app_false].
Qed.

Lemma stream_video_id_no_separator filename :
  has_separator (stream_video_id filename) = false.
Proof.
  destruct (stream_video_id_cases filename) as [[_ E] | (b & _ & _ & Hns & E)];
    rewrite E; [reflexivity|].
  unfold has_separator. fold (chars_of ("video_" +:+ string_of_list_ascii b)).
  rewrite chars_of_append, chars_of_string. now apply existsb_app_false.
Qed.

(** The last argument of an argument vector: the output file of [ffmpeg]. *)
Definition output_of (argv : list string) : string := List.last argv ""%string.

(** X20. The two files a worker asks [ffmpeg] to write for a job are
    [uploads/<VideoID>_preview.gif] and [uploads/<VideoID>_thumbnail.jpg];
    neither name passes the [.mp4] filter of the listing.  They are not kept
    apart from the uploads: the preview of the upload named [name] is written
    (with [-y], overwriting) to the destination file of a streaming upload
    named [name_preview.gif], and likewise for the thumbnail. *)
Theorem worker_outputs_share_the_upload_names (name : string) :
  let job := mkJob (save_path (stream_video_id name)) (stream_video_id name) in
  HasSuffix (VideoID job +:+ "_preview.gif") ".mp4" = false
  /\ HasSuffix (VideoID job +:+ "_thumbnail.jpg") ".mp4" = false
  /\ output_of (server.gif_command job)
     = save_path (stream_video_id (Base name +:+ "_preview.gif"))
  /\ output_of (server.jpg_command job)
     = save_path (stream_video_id (Base name +:+ "_thumbnail.jpg")).
Proof.
  intros job. subst job. cbn [VideoID].
  split; [now rewrite HasSuffix_longer by (simpl; lia)|].
  split; [now rewrite HasSuffix_longer by (simpl; lia)|].
  unfold output_of, server.gif_command, server.jpg_command. cbn [List.last VideoID].
  destruct (stream_video_id_cases name) as [[E Eid] | (b & E & Hne & Hns & Eid)];
    rewrite E, Eid; [split; vm_compute; reflexivity|].
  unfold Sprintf_s.
  rewrite !save_path_stream.
  change (string_of_list_ascii b +:+ "_preview.gif")
    with (string_of_list_ascii b +:+ string_of_list_ascii (chars_of "_preview.gif")).
  change (string_of_list_ascii b +:+ "_thumbnail.jpg")
    with (string_of_list_ascii b +:+ string_of_list_ascii (chars_of "_thumbnail.jpg")).
  rewrite <- !string_of_chars_append.
  rewrite !stream_video_id_of_name
    by (try (now destruct b); now apply existsb_app_false).
  rewrite !string_of_chars_append. cbn [chars_of list_ascii_of_string string_of_list_ascii].
  now rewrite !append_assoc.
Qed.

Lemma drop_while_not_sep l t :
  forallb not_sep l = true ->
  drop_while not_sep (l ++ "/"%char :: t) = "/"%char :: t.
Proof.
  induction l as [|c l IH]; [reflexivity|]. cbn [forallb app drop_while].
  intros H. apply andb_true_iff in H as [Hc Hl]. rewrite Hc. now apply IH.
Qed.

(** The directory of a name placed in [uploads]. *)
Lemma parent_of_upload id :
  has_separator id = false -> os.parent ("uploads/" +:+ id) = Some uploads.
Proof.
  intros Hs. unfold os.parent, has_separator in *. fold (chars_of ("uploads/" +:+ id)).
  fold (chars_of id) in Hs. rewrite chars_of_append.
  change (chars_of "uploads/") with (chars_of "uploads" ++ ["/"%char]).
  rewrite <- app_assoc, rev_app_distr. cbn [app rev].
  rewrite <- app_assoc. cbn [app].
  rewrite existsb_app. cbn [existsb is_sep]. rewrite orb_true_r.
  rewrite drop_while_not_sep
    by (rewrite forallb_rev; now apply no_sep_forallb).
  cbn [tl]. reflexivity.
Qed.

Lemma uploads_is_not_inside name : uploads <> "uploads/" +:+ name.
Proof.
  intros H. apply (f_equal String.length) in H. rewrite length_append in H.
  simpl in H. lia.
Qed.

(** X21. A stored upload appears in the listing: under the conditions of a
    streaming upload that meets no obstacle (the creation of the destination
    file succeeds, there is room, the queue has a free slot), with [uploads]
    a directory and an identifier that ends in [.mp4], the listing after the
    upload consists of the identifier of the upload and of the names listed
    before. *)
Theorem stored_upload_is_listed
    (filename : string) (content : list byte) (rest : list (string * list byte))
    (se : option code) (w : World) :
  let chunks := (filename, content) :: rest in
  let id := stream_video_id filename in
  let path := save_path id in
  let r := UploadVideo (messages chunks) se w in
  fs w !! uploads = Some Directory ->
  HasSuffix id ".mp4" = true ->
  fst (os.Create path w) <> None ->
  (length (payload chunks) <= free w)%nat ->
  closed (JobQueue (pool w)) = false ->
  server.queue_len (pool w) < cap (JobQueue (pool w)) ->
  exists before after,
    handleListVideos w =
      {| StatusCode := StatusOK;
         Body := JSON match before with [] => JNull | _ => JArray before end |}
    /\ handleListVideos (snd r) = {| StatusCode := StatusOK; Body := JSON (JArray after) |}
    /\ (forall name, In name after <-> name = id \/ In name before).
Proof.
  intros chunks id path r Hdir Hmp4 Hcreate Hroom Hopen Hslot.
  assert (Hpath : path = "uploads/" +:+ id) by apply save_path_stream.
  destruct (stream_upload_stored filename content rest se w Hcreate Hroom Hopen Hslot)
    as (_ & Hdata & Hoth & _).
  fold chunks id path r in Hdata, Hoth.
  assert (Hdir' : fs (snd r) !! uploads = Some Directory).
  { rewrite Hoth; [exact Hdir|]. rewrite Hpath. apply uploads_is_not_inside. }
  assert (Hr : exists entries, os_ReadDir uploads w = Some entries).
  { unfold os_ReadDir. rewrite Hdir. eauto. }
  assert (Hr' : exists entries, os_ReadDir uploads (snd r) = Some entries).
  { unfold os_ReadDir. rewrite Hdir'. eauto. }
  destruct Hr as [entries Hr], Hr' as [entries' Hr'].
  assert (Hiff : forall name,
             In name (mp4_names entries') <-> name = id \/ In name (mp4_names entries)).
  { intros name. rewrite (mp4_names_spec _ _ name Hr'), (mp4_names_spec _ _ name Hr).
    destruct (string_dec name id) as [->|Hne].
    - split; [auto|]. intros _. split; [apply stream_video_id_no_separator|].
      split; [exact Hmp4|]. rewrite <- Hpath. eauto.
    - rewrite Hoth by (rewrite Hpath; intros H; apply append_inj_l in H; contradiction).
      split; [auto|]. intros [H|H]; [contradiction | exact H]. }
  exists (mp4_names entries), (mp4_names entries'). split; [|split; [|exact Hiff]].
  - rewrite (handleListVideos_names w entries Hr). now destruct (mp4_names entries).
  - rewrite (handleListVideos_names _ entries' Hr').
    destruct (mp4_names entries') as [|n ns] eqn:E; [|reflexivity].
    exfalso. apply (proj2 (Hiff id)). now left.
Qed.

End Artifacts.

(** ** Package [main] of [cmd/client]: the load generator *)

Module client.

(** [const ChunkSize = 64 * 1024] *)
Definition ChunkSize : nat := (64 * 1024)%nat.

(** [pb.VideoChunk{Filename, Content}] *)
Definition VideoChunk : Type := string * list byte.

(** What the environment decides at one call of [file.Read]: how many bytes
    it is ready to deliver (a read may be short), or an error. *)
Inductive read_step :=
  | ReadAtMost (k : nat)
  | ReadFails.

Inductive read_result :=
  | ReadBytes (b rest : list byte)   (* [n = len(b)], nil error; [rest] stays unread *)
  | ReadEOF                          (* [0, io.EOF] *)
  | ReadError.

(** [file.Read(buf)] on a regular file with [unread] bytes left, for a
    buffer of [len_buf] bytes: at the end of the file it returns [io.EOF];
    otherwise it delivers between 1 and [len_buf] of the unread bytes.  The
    plan gives the decisions of the environment for the calls to come; once
    it is used up the reads are full. *)
Definition File_Read (len_buf : nat) (unread : list byte) (plan : list read_step)
    : read_result :=
  match plan with
  | ReadFails :: _ => ReadError
  | _ =>
      match unread with
      | [] => ReadEOF
      | _ =>
          let k := match plan with ReadAtMost k :: _ => k | _ => len_buf end in
          let n := Nat.min len_buf (Nat.max 1 (Nat.min k (length unread))) in
          ReadBytes (take n unread) (drop n unread)
      end
  end.

(** How a call of [uploadFile] ends. *)
Inductive outcome :=
  | OpenFailed
  | StreamFailed
  | ReadFailed
  | SendFailed
  | UploadFailed                       (* [CloseAndRecv] returned an error *)
  | UploadSuccess (message video_id : string).

(** The environment of one call of [uploadFile]: the result of
    [os.Open(path)] (the content of the file), of [client.UploadVideo(ctx)],
    of the successive calls of [file.Read] and of [stream.Send] ([true]: nil
    error; all succeed once the plan is used up), and of
    [stream.CloseAndRecv()] ([res.Message] and [res.VideoId], or an error). *)
Record Env := mkEnv {
  Open : option (list byte);
  NewStream : bool;
  reads : list read_step;
  sends : list bool;
  CloseAndRecv : option (string * string) }.

(** What a call of [uploadFile] does: the chunks whose [Send] succeeded, in
    order, the way it ended and the messages it logged. *)
Record run := mkRun {
  sent : list VideoChunk;
  ended : outcome;
  logged : list (level * string) }.

(** The loop [for { n, err := file.Read(buf) ... }]; the second component is
    [None] when the loop is left by [break], and the outcome when it is left
    by [return]. *)
Fixpoint send_loop (fuel : nat) (path : string) (unread : list byte)
    (reads : list read_step) (sends : list bool) (sent : list VideoChunk)
    : option (list VideoChunk * option outcome) :=
  match fuel with
  | O => None
  | S fuel' =>
      match File_Read ChunkSize unread reads with
      | ReadEOF => Some (sent, None)                       (* break *)
      | ReadError => Some (sent, Some ReadFailed)
      | ReadBytes b rest =>
          let req := (filepath.Base path, b) in
          match sends with
          | false :: _ => Some (sent, Some SendFailed)
          | _ => send_loop fuel' path rest (tl reads) (tl sends) (sent ++ [req])
          end
      end
  end.

(** [func uploadFile(client pb.MediaUploadClient, producerID int, path string)];
    [None] stands for a loop that has not ended within the bound, which is
    shown below never to happen: every iteration that does not leave the
    loop consumes at least one byte of the file. *)
Definition uploadFile (env : Env) (path : string) : option run :=
  match Open env with
  | None => Some (mkRun [] OpenFailed [(Error, "Failed to open file"%string)])
  | Some content =>
      if negb (NewStream env) then
        Some (mkRun [] StreamFailed [(Error, "Failed to create stream"%string)])
      else
        (* 5. Stream the chunks *)
        let starting := (Info, "Starting Upload"%string) in
        match send_loop (S (length content)) path content (reads env) (sends env) [] with
        | None => None
        | Some (sent, Some ReadFailed) =>
            Some (mkRun sent ReadFailed [starting; (Error, "File read error"%string)])
        | Some (sent, Some e) =>
            Some (mkRun sent e
                    [starting; (Error, "Send failed (Server likely busy)"%string)])
        | Some (sent, None) =>
            (* 6. Close and Receive Response *)
            match CloseAndRecv env with
            | None => Some (mkRun sent UploadFailed
                              [starting; (Error, "Upload failed"%string)])
            | Some (message, video_id) =>
                Some (mkRun sent (UploadSuccess message video_id)
                        [starting; (Info, "Upload Success"%string)])
            end
        end
  end.

End client.

(** ** The client: what [uploadFile] sends *)

Section ClientUploads.

Import main.
Import client.

#[local] Arguments filepath.Base : simpl never.

Lemma ChunkSize_pos : (1 <= ChunkSize)%nat.
Proof. unfold ChunkSize. lia. Qed.

Lemma File_Read_cases unread plan :
  match File_Read ChunkSize unread plan with
  | ReadError => head plan = Some ReadFails
  | ReadEOF => unread = [] /\ head plan <> Some ReadFails
  | ReadBytes b rest =>
      unread = b ++ rest
      /\ (1 <= length b <= ChunkSize)%nat
      /\ head plan <> Some ReadFails
      /\ (head plan = None -> length b = Nat.min ChunkSize (length unread))
  end.
Proof.
  pose proof ChunkSize_pos as Hpos.
  assert (Hbytes : forall (k : nat) (c : byte) (unread : list byte),
            let n := Nat.min ChunkSize (Nat.max 1 (Nat.min k (length (c :: unread)))) in
            c :: unread = take n (c :: unread) ++ drop n (c :: unread)
            /\ (1 <= length (take n (c :: unread)) <= ChunkSize)%nat
            /\ (k = ChunkSize ->
                length (take n (c :: unread)) = Nat.min ChunkSize (length (c :: unread)))).
  { intros k c l n. split; [now rewrite take_drop|].
    rewrite length_take. subst n. cbn [length]. lia. }
  destruct plan as [|[k|] plan], unread as [|c unread]; cbn [File_Read head];
    try (split; [reflexivity | discriminate]); try reflexivity.
  - destruct (Hbytes ChunkSize c unread) as (H1 & H2 & H3).
    split; [exact H1|]. split; [exact H2|]. split; [discriminate|]. intros _. now apply H3.
  - destruct (Hbytes k c unread) as (H1 & H2 & _).
    split; [exact H1|]. split; [exact H2|]. split; discriminate.
Qed.

(** A chunk as [uploadFile] builds it: named by the base of the path, with
    between 1 and [ChunkSize] bytes. *)
Definition chunk_of (path : string) (chunk : VideoChunk) : Prop :=
  fst chunk = filepath.Base path /\ (1 <= length (snd chunk) <= ChunkSize)%nat.

Lemma send_loop_spec path : forall fuel unread reads sends sent,
  (length unread < fuel)%nat ->
  exists new e,
    send_loop fuel path unread reads sends sent = Some (sent ++ new, e)
    /\ Forall (chunk_of path) new
    /\ (exists rest, unread = payload new ++ rest /\ (e = None -> rest = []))
    /\ (e = None \/ e = Some ReadFailed \/ e = Some SendFailed)
    /\ (Forall (fun s => s <> ReadFails) reads -> Forall (fun ok => ok = true) sends ->
        e = None).
Proof.
  induction fuel as [|fuel IH]; intros unread reads sends sent Hfuel; [lia|].
  cbn [send_loop]. pose proof (File_Read_cases unread reads) as Hread.
  destruct (File_Read ChunkSize unread reads) as [b rest| |].
  - destruct Hread as (-> & Hb & Hhead & _).
    assert (Hnext : exists new e,
              send_loop fuel path rest (tl reads) (tl sends)
                (sent ++ [(filepath.Base path, b)])
              = Some (sent ++ (filepath.Base path, b) :: new, e)
              /\ Forall (chunk_of path) ((filepath.Base path, b) :: new)
              /\ (exists rest', b ++ rest = payload ((filepath.Base path, b) :: new) ++ rest'
                                /\ (e = None -> rest' = []))
              /\ (e = None \/ e = Some ReadFailed \/ e = Some SendFailed)
              /\ (Forall (fun s => s <> ReadFails) (tl reads) ->
                  Forall (fun ok => ok = true) (tl sends) -> e = None)).
    { rewrite length_app in Hfuel.
      destruct (IH rest (tl reads) (tl sends) (sent ++ [(filepath.Base path, b)]))
        as (new & e & Hloop & Hnew & (rest' & Hrest & Hend) & He & Hok); [lia|].
      exists new, e. rewrite Hloop, <- app_assoc. split; [reflexivity|].
      split; [constructor; [split; [reflexivity | exact Hb] | exact Hnew]|].
      split; [|split; [exact He | exact Hok]].
      exists rest'. split; [|exact Hend].
      unfold payload in *. cbn [map concat snd]. now rewrite <- app_assoc, Hrest. }
    assert (Htl : forall (A : Type) (P : A -> Prop) (l : list A), Forall P l -> Forall P (tl l)).
    { intros A P l Hl. destruct Hl; [constructor | assumption]. }
    destruct sends as [|[|] sends'].
    + destruct Hnext as (new & e & H1 & H2 & H3 & H4 & H5).
      exists ((filepath.Base path, b) :: new), e. repeat (split; [assumption|]).
      intros Hr Hs. apply H5; [now apply Htl | constructor].
    + destruct Hnext as (new & e & H1 & H2 & H3 & H4 & H5).
      exists ((filepath.Base path, b) :: new), e. repeat (split; [assumption|]).
      intros Hr Hs. apply H5; [now apply Htl | now apply (Htl _ _ _ Hs)].
    + exists [], (Some SendFailed). rewrite app_nil_r. split; [reflexivity|].
      split; [constructor|].
      split; [exists (b ++ rest); split; [reflexivity | discriminate]|].
      split; [right; right; reflexivity|].
      intros _ Hs. apply Forall_cons in Hs as [Hs _]. discriminate Hs.
  - destruct Hread as [-> _]. exists [], None. rewrite app_nil_r. split; [reflexivity|].
    split; [constructor|]. split; [exists []; split; reflexivity|].
    split; [left; reflexivity | reflexivity].
  - exists [], (Some ReadFailed). rewrite app_nil_r. split; [reflexivity|].
    split; [constructor|]. split; [exists unread; split; [reflexivity | discriminate]|].
    split; [right; left; reflexivity|].
    intros Hr _. destruct Hr as [|s reads Hs _]; [discriminate Hread|].
    cbn [head] in Hread. congruence.
Qed.

(** X22. [uploadFile] always ends, and what it sends is a chunking of the
    file: every chunk sent carries the base name of the path and between 1
    and [ChunkSize] bytes, the chunks concatenated are a prefix of the
    content of the file, and they are the whole content whenever the call
    reaches [CloseAndRecv]; which it does when no read and no send fails. *)
Theorem uploadFile_sends_the_file_in_chunks
    (path : string) (content : list byte) (plan : list read_step)
    (oks : list bool) (reply : option (string * string)) :
  exists r,
    uploadFile (mkEnv (Some content) true plan oks reply) path = Some r
    /\ Forall (chunk_of path) (sent r)
    /\ (exists unsent, content = payload (sent r) ++ unsent)
    /\ (ended r = ReadFailed \/ ended r = SendFailed
        \/ payload (sent r) = content
           /\ ended r = match reply with
                        | None => UploadFailed
                        | Some (message, video_id) => UploadSuccess message video_id
                        end)
    /\ (Forall (fun s => s <> ReadFails) plan -> Forall (fun ok => ok = true) oks ->
        ended r <> ReadFailed /\ ended r <> SendFailed).
Proof.
  unfold uploadFile. cbn [Open NewStream reads sends CloseAndRecv negb].
  destruct (send_loop_spec path (S (length content)) content plan oks [])
    as (new & e & Hloop & Hnew & (rest & Hrest & Hend) & He & Hok); [lia|].
  rewrite Hloop. cbn [app].
  destruct He as [-> | [-> | ->]].
  - rewrite (Hend eq_refl), app_nil_r in Hrest.
    destruct reply as [[message video_id]|]; eexists; (split; [reflexivity|]);
      cbn [sent ended]; (split; [exact Hnew|]);
      (split; [exists []; now rewrite app_nil_r|]);
      (split; [right; right; now split|]); intros _ _; split; discriminate.
  - eexists. split; [reflexivity|]. cbn [sent ended]. split; [exact Hnew|].
    split; [now exists rest|]. split; [now left|].
    intros Hr Hs. now specialize (Hok Hr Hs).
  - eexists. split; [reflexivity|]. cbn [sent ended]. split; [exact Hnew|].
    split; [now exists rest|]. split; [right; now left|].
    intros Hr Hs. now specialize (Hok Hr Hs).
Qed.

(** The sizes of the chunks of a file of [n] bytes that is read with full
    reads: [ChunkSize] as often as it fits, then what is left. *)
Definition chunk_sizes (n : nat) : list nat :=
  replicate (n / ChunkSize) ChunkSize
  ++ (if (n mod ChunkSize =? 0)%nat then [] else [(n mod ChunkSize)%nat]).

Lemma chunk_sizes_step n m :
  (1 <= n)%nat -> n = Nat.min ChunkSize (n + m) ->
  chunk_sizes (n + m) = n :: chunk_sizes m.
Proof.
  pose proof ChunkSize_pos as Hpos. intros Hn Hmin. unfold chunk_sizes.
  destruct (Nat.lt_ge_cases n ChunkSize) as [Hlt | Hge].
  - assert (m = O) by lia. subst m. rewrite Nat.add_0_r.
    rewrite (Nat.div_small n ChunkSize Hlt), (Nat.mod_small n ChunkSize Hlt).
    rewrite (Nat.div_small O ChunkSize) by lia.
    rewrite (Nat.mod_small O ChunkSize) by lia.
    destruct (Nat.eqb_spec n 0); [lia|]. reflexivity.
  - assert (n = ChunkSize) by lia. subst n.
    replace (ChunkSize + m)%nat with (1 * ChunkSize + m)%nat by lia.
    rewrite Nat.div_add_l by lia.
    replace (1 * ChunkSize + m)%nat with (m + 1 * ChunkSize)%nat by lia.
    rewrite Nat.Div0.mod_add. reflexivity.
Qed.

Lemma send_loop_full_reads path : forall fuel unread sent,
  (length unread < fuel)%nat ->
  exists new,
    send_loop fuel path unread [] [] sent = Some (sent ++ new, None)
    /\ map (fun chunk => length (snd chunk)) new = chunk_sizes (length unread).
Proof.
  pose proof ChunkSize_pos as Hpos.
  induction fuel as [|fuel IH]; intros unread sent Hfuel; [lia|].
  cbn [send_loop tl]. pose proof (File_Read_cases unread []) as Hread.
  destruct (File_Read ChunkSize unread []) as [b rest| |].
  - destruct Hread as (-> & Hb & _ & Hfull). specialize (Hfull eq_refl).
    rewrite length_app in Hfuel, Hfull |- *.
    destruct (IH rest (sent ++ [(filepath.Base path, b)])) as (new & Hloop & Hsizes); [lia|].
    exists ((filepath.Base path, b) :: new). rewrite Hloop, <- app_assoc.
    split; [reflexivity|]. cbn [map snd]. rewrite Hsizes.
    symmetry. apply chunk_sizes_step; [lia | exact Hfull].
  - destruct Hread as [-> _]. exists []. rewrite app_nil_r. split; [reflexivity|].
    unfold chunk_sizes. cbn [length map].
    rewrite (Nat.div_small O ChunkSize) by lia.
    rewrite (Nat.mod_small O ChunkSize) by lia. reflexivity.
  - discriminate Hread.
Qed.

(** X23. With full reads and no failing send, a file of [n] bytes goes out
    in chunks of exactly [ChunkSize] bytes followed, when [n] is not a
    multiple of [ChunkSize], by one chunk with the remainder; an empty file
    goes out in no chunk at all. *)
Theorem uploadFile_chunk_sizes
    (path : string) (content : list byte) (reply : option (string * string)) :
  exists r,
    uploadFile (mkEnv (Some content) true [] [] reply) path = Some r
    /\ map (fun chunk => length (snd chunk)) (sent r)
       = replicate (length content / ChunkSize) ChunkSize
         ++ (if (length content mod ChunkSize =? 0)%nat then []
             else [(length content mod ChunkSize)%nat])
    /\ (sent r = [] <-> content = []).
Proof.
  pose proof ChunkSize_pos as Hpos.
  unfold uploadFile. cbn [Open NewStream reads sends CloseAndRecv negb].
  destruct (send_loop_full_reads path (S (length content)) content [])
    as (new & Hloop & Hsizes); [lia|].
  rewrite Hloop. cbn [app].
  assert (Hempty : new = [] <-> content = []).
  { split.
    - intros ->. cbn [map] in Hsizes. symmetry in Hsizes. unfold chunk_sizes in Hsizes.
      apply app_eq_nil in Hsizes as [Hrep Hmod].
      destruct (Nat.eqb_spec (length content mod ChunkSize) 0) as [Hm|]; [|discriminate].
      destruct (length content / ChunkSize)%nat eqn:Hd; [|discriminate].
      pose proof (Nat.div_mod_eq (length content) ChunkSize) as Heq.
      rewrite Hd, Hm in Heq. destruct content; [reflexivity | cbn [length] in Heq; lia].
    - intros ->. destruct new as [|chunk new]; [reflexivity|].
      unfold chunk_sizes in Hsizes. cbn [length map] in Hsizes.
      rewrite (Nat.div_small O ChunkSize) in Hsizes by lia.
      rewrite (Nat.mod_small O ChunkSize) in Hsizes by lia. discriminate Hsizes. }
  destruct reply as [[message video_id]|]; eexists; (split; [reflexivity|]);
    cbn [sent]; (split; [exact Hsizes | exact Hempty]).
Qed.

(** X24. From the file of the client to the store of the server: when the
    file is not empty, no read fails and no send fails, [uploadFile] reaches
    [CloseAndRecv], and the handler run on the chunks it sent, in a world
    where the creation of the destination file succeeds, the volume has room
    for the file and the queue has a free slot, acknowledges the upload,
    leaves exactly the content of the file in [uploads/video_<base name>]
    and queues the job for it. *)
Theorem client_file_reaches_the_store
    (path : string) (content : list byte) (plan : list read_step)
    (reply : option (string * string)) (w : World) :
  let id := stream_video_id path in
  let dest := save_path id in
  content <> [] ->
  Forall (fun s => s <> ReadFails) plan ->
  fst (os.Create dest w) <> None ->
  (length content <= free w)%nat ->
  closed (JobQueue (pool w)) = false ->
  server.queue_len (pool w) < cap (JobQueue (pool w)) ->
  exists r,
    uploadFile (mkEnv (Some content) true plan [] reply) path = Some r
    /\ ended r = match reply with
                 | None => UploadFailed
                 | Some (message, video_id) => UploadSuccess message video_id
                 end
    /\ fst (UploadVideo (messages (sent r)) None w)
       = Returns (UploadStatus "Upload successful" true id)
    /\ fs (snd (UploadVideo (messages (sent r)) None w)) !! dest = Some (Regular content)
    /\ pool (snd (UploadVideo (messages (sent r)) None w))
       = server.enqueued (mkJob dest id) (pool w).
Proof.
  intros id dest Hne Hplan Hcreate Hroom Hopen Hslot.
  assert (Hid : stream_video_id (filepath.Base path) = id).
  { unfold id, stream_video_id. now rewrite Base_idempotent. }
  destruct (send_loop_spec path (S (length content)) content plan [] [])
    as (new & e & Hloop & Hnew & (rest & Hrest & Hend) & _ & Hok); [lia|].
  specialize (Hok Hplan ltac:(constructor)). subst e.
  rewrite (Hend eq_refl), app_nil_r in Hrest.
  destruct new as [|[name b] new]; [now contradiction Hne|].
  apply Forall_cons in Hnew as [[Hname _] _]. cbn [fst] in Hname. subst name.
  pose proof (stream_upload_stored (filepath.Base path) b new None w) as Hstored.
  cbv zeta in Hstored. rewrite Hid in Hstored. fold dest in Hstored.
  unfold VideoChunk in *. rewrite <- Hrest in Hstored.
  destruct (Hstored Hcreate Hroom Hopen Hslot) as (H1 & H2 & _ & H4 & _).
  unfold uploadFile. cbn [Open NewStream reads sends CloseAndRecv negb].
  unfold VideoChunk in *. rewrite Hloop. cbn [app].
  destruct reply as [[message video_id]|]; eexists; (split; [reflexivity|]);
    cbn [sent ended]; (split; [reflexivity|]); (split; [exact H1|]);
    (split; [exact H2 | exact H4]).
Qed.

(** X25. An empty file faults the server: for a file without content
    [uploadFile] sends no chunk and goes straight to [CloseAndRecv]; the
    handler, run on a stream without chunk, panics on its nil file. *)
Theorem empty_file_upload_faults_the_server
    (path : string) (plan : list read_step) (oks : list bool)
    (reply : option (string * string)) (se : option code) (w : World) :
  head plan <> Some ReadFails ->
  exists r,
    uploadFile (mkEnv (Some []) true plan oks reply) path = Some r
    /\ sent r = []
    /\ ended r = match reply with
                 | None => UploadFailed
                 | Some (message, video_id) => UploadSuccess message video_id
                 end
    /\ UploadVideo (messages (sent r)) se w = (Panics NilDereference, w).
Proof.
  intros Hplan. unfold uploadFile. cbn [Open NewStream reads sends CloseAndRecv negb length].
  cbn [send_loop]. pose proof (File_Read_cases [] plan) as Hread.
  destruct (File_Read ChunkSize [] plan) as [b rest| |].
  - destruct Hread as (Hnil & Hb & _). symmetry in Hnil.
    apply app_eq_nil in Hnil as [-> _]. cbn [length] in Hb. lia.
  - destruct reply as [[message video_id]|]; eexists; (split; [reflexivity|]);
      cbn [sent ended]; repeat split; apply UploadVideo_no_chunk.
  - contradiction.
Qed.

End ClientUploads.

(** ** The start of the server *)

Section ServerStartup.

Import main.

#[local] Arguments os.Create : simpl never.
#[local] Arguments filepath.Join : simpl never.
#[local] Arguments filepath.Base : simpl never.
#[local] Arguments Sprintf_s : simpl never.

(** [os.Mkdir(name, 0755)]: fails when the name exists or its directory does
    not. *)
Definition os_Mkdir (path : string) (w : World) : bool * World :=
  match fs w !! path with
  | Some _ => (false, w)
  | None =>
      if os.parent_is_dir path (fs w)
      then (true, set_fs (<[path := Directory]> (fs w)) w)
      else (false, w)
  end.

(** The statements of [func main()] of the server that come before the
    listeners: [uploads] is created when [os.Stat] reports that it does not
    exist (the result of [Mkdir] is dropped), then the pool is made from the
    flags [-c] and [-q] and started. *)
Definition startup (workers queueLen : Z) (w : World) : result World :=
  let w :=
    match fs w !! uploads with
    | None => snd (os_Mkdir uploads w)
    | Some _ => w
    end in
  (* 1. Start Worker Pool *)
  match server.NewWorkerPool workers queueLen with
  | Ok wp => Ok (set_pool (server.Start wp) w)
  | Panic p => Panic p
  end.

Lemma startup_Ok workers queueLen w wp :
  server.NewWorkerPool workers queueLen = Ok wp ->
  startup workers queueLen w
  = Ok (set_pool
          {| JobQueue := {| buf := []; cap := queueLen; closed := false |};
             WorkerCount := workers; wg := Z.max 0 workers |}
          match fs w !! uploads with
          | None => set_fs (<[uploads := Directory]> (fs w)) w
          | Some _ => w
          end).
Proof.
  intros Hnew. unfold startup. rewrite Hnew.
  apply NewWorkerPool_Ok in Hnew as [_ ->].
  unfold server.Start, set_wg. cbn [wg WorkerCount JobQueue]. rewrite Z.add_0_l.
  unfold os_Mkdir. destruct (fs w !! uploads) eqn:E; reflexivity.
Qed.


Lemma save_path_stream_nonempty filename :
  String.eqb (save_path (stream_video_id filename)) "" = false.
Proof. rewrite save_path_stream. reflexivity. Qed.

(** X27. A regular file named [uploads] disables the server without
    stopping it: the start goes through, and afterwards the listing answers
    500 and every streaming upload under a new name fails on its first chunk
    with [Internal] (for a name the system accepts, because [uploads] is not
    a directory), without calling [AddJob]. *)
Theorem uploads_as_a_file_disables_the_server
    (workers queueLen : Z) (w w' : World) (stale : list byte)
    (filename : string) (content : list byte) (rest : list recv) (se : option code) :
  let path := save_path (stream_video_id filename) in
  fs w !! uploads = Some (Regular stale) ->
  startup workers queueLen w = Ok w' ->
  fs w !! path = None ->
  handleListVideos w' = http_Error "Failed to read uploads" StatusInternalServerError
  /\ fst (UploadVideo (Msg filename content :: rest) se w')
     = Returns (Status Internal ("Failed to create file: " +:+ os.Create_error path w'))
  /\ (os.has_NUL path = false -> (String.length path < os.PATH_MAX)%nat ->
      os.Create_error path w' = os.PathError "open" path os.ENOTDIR)
  /\ pool (snd (UploadVideo (Msg filename content :: rest) se w')) = pool w'
  /\ fs (snd (UploadVideo (Msg filename content :: rest) se w')) = fs w'.
Proof.
  intros path Hfile Hstart Hnew.
  assert (Hwp : exists wp, server.NewWorkerPool workers queueLen = Ok wp).
  { unfold startup in Hstart.
    destruct (server.NewWorkerPool workers queueLen) as [wp|]; [eauto | discriminate]. }
  destruct Hwp as [wp Hwp].
  rewrite (startup_Ok workers queueLen w wp Hwp), Hfile in Hstart. injection Hstart as <-.
  assert (Hpar : os.parent_errno path (fs w) = Some os.ENOTDIR).
  { unfold os.parent_errno, path. rewrite save_path_stream.
    rewrite parent_of_upload by apply stream_video_id_no_separator.
    change (String.eqb uploads "") with false. cbv iota. now rewrite Hfile. }
  split; [|split; [|split]].
  - unfold handleListVideos, os_ReadDir. cbn [fs set_pool]. now rewrite Hfile.
  - destruct (os.Create path
                (set_pool
                   {| JobQueue := {| buf := []; cap := queueLen; closed := false |};
                      WorkerCount := workers; wg := Z.max 0 workers |} w))
      as [[f|] w0] eqn:Hc.
    + exfalso. apply Create_ok in Hc as (_ & _ & _ & _ & _ & _ & _ & _ & He).
      apply Create_errno_None in He as (_ & _ & _ & He & _). cbn [fs set_pool] in He.
      congruence.
    + now rewrite (first_chunk_failed filename content rest se _ _ Hc).
  - intros Hnul Hlen. unfold os.Create_error, os.Create_errno. cbn [fs set_pool].
    rewrite Hnul, Hpar. unfold path. rewrite save_path_stream_nonempty. fold path.
    destruct (Nat.leb_spec os.PATH_MAX (String.length path)); [lia | reflexivity].
  - destruct (os.Create path
                (set_pool
                   {| JobQueue := {| buf := []; cap := queueLen; closed := false |};
                      WorkerCount := workers; wg := Z.max 0 workers |} w))
      as [[f|] w0] eqn:Hc.
    + exfalso. apply Create_ok in Hc as (_ & _ & _ & _ & _ & _ & _ & _ & He).
      apply Create_errno_None in He as (_ & _ & _ & He & _). cbn [fs set_pool] in He.
      congruence.
    + rewrite (first_chunk_failed filename content rest se _ _ Hc). cbn [snd].
      apply Create_failed in Hc as ->. split; reflexivity.
Qed.

End ServerStartup.

(** ** Runs of the handlers and of the client on concrete worlds *)

Section MoreRuns.

Import main.
Import client.

(** A stream of two chunks, the second without file name. *)
Definition name_c : string := "../c.mp4".
Definition chunk_c : list byte := [x44; x45].
Definition more_c : list (string * list byte) := [(""%string, [x46])].

(** The world of [world_with_video] with one byte left on the volume. *)
Definition world_small : World :=
  {| fs := fs world_with_video;
     free := 1; open_files := ∅; next_file := 0;
     pool := pool_2_3; trace := [] |}.

(** A world in which [uploads] is a regular file, before and after the
    start of the server with [-c 2 -q 3]. *)
Definition world_uploads_file : World :=
  {| fs := <["uploads" := Regular []]> ∅;
     free := 1000; open_files := ∅; next_file := 0;
     pool := pool_2_3; trace := [] |}.

Definition world_uploads_file_started : World :=
  {| fs := <["uploads" := Regular []]> ∅;
     free := 1000; open_files := ∅; next_file := 0;
     pool := {| JobQueue := {| buf := []; cap := 3; closed := false |};
                WorkerCount := 2; wg := 2 |};
     trace := [] |}.

Lemma upload_stores_the_chunks_witness :
  fst (os.Create (save_path (stream_video_id name_c)) world_with_video) <> None
  /\ (length (payload ((name_c, chunk_c) :: more_c)) <= free world_with_video)%nat
  /\ closed (JobQueue (pool world_with_video)) = false
  /\ server.queue_len (pool world_with_video) < cap (JobQueue (pool world_with_video))
  /\ fst (UploadVideo (messages ((name_c, chunk_c) :: more_c)) None world_with_video)
     = Returns (UploadStatus "Upload successful" true (stream_video_id name_c))
  /\ fs (snd (UploadVideo (messages ((name_c, chunk_c) :: more_c)) None world_with_video))
       !! save_path (stream_video_id name_c)
     = Some (Regular (payload ((name_c, chunk_c) :: more_c))).
Proof.
  assert (H1 : fst (os.Create (save_path (stream_video_id name_c)) world_with_video)
               <> None) by (vm_compute; discriminate).
  assert (H3 : (length (payload ((name_c, chunk_c) :: more_c)) <= free world_with_video)%nat)
    by (vm_compute; lia).
  assert (H4 : closed (JobQueue (pool world_with_video)) = false) by reflexivity.
  assert (H5 : server.queue_len (pool world_with_video)
               < cap (JobQueue (pool world_with_video))) by (vm_compute; reflexivity).
  split; [exact H1|]. split; [exact H3|]. split; [exact H4|]. split; [exact H5|].
  destruct (upload_stores_the_chunks name_c chunk_c more_c None world_with_video
              H1 H3 H4 H5) as (R1 & R2 & _).
  split; [exact R1 | exact R2].
Defined.

Lemma later_file_names_are_ignored_witness :
  Forall2 same_but_name [Msg "x" [x46]] [Msg "y" [x46]]
  /\ UploadVideo (Msg name_c chunk_c :: [Msg "x" [x46]]) None world_with_video
     = UploadVideo (Msg name_c chunk_c :: [Msg "y" [x46]]) None world_with_video.
Proof.
  assert (H : Forall2 same_but_name [Msg "x" [x46]] [Msg "y" [x46]])
    by (constructor; [reflexivity | constructor]).
  split; [exact H|].
  exact (later_file_names_are_ignored name_c chunk_c _ _ None world_with_video H).
Defined.

Lemma aborted_upload_leaves_partial_file_witness :
  fst (os.Create (save_path (stream_video_id name_c)) world_with_video) <> None
  /\ fst (UploadVideo (Msg name_c chunk_c :: [RecvErr "reset"]) None world_with_video)
     = Returns (Status Unknown "Stream error: reset")
  /\ (Unknown = Unknown \/ Unknown = Internal)
  /\ (exists data,
        fs (snd (UploadVideo (Msg name_c chunk_c :: [RecvErr "reset"]) None
                   world_with_video))
          !! save_path (stream_video_id name_c) = Some (Regular data))
  /\ admissions
       (calls_between world_with_video
          (snd (UploadVideo (Msg name_c chunk_c :: [RecvErr "reset"]) None
                  world_with_video))) = []
  /\ removals
       (calls_between world_with_video
          (snd (UploadVideo (Msg name_c chunk_c :: [RecvErr "reset"]) None
                  world_with_video))) = []
  /\ next_file world_with_video
     ∉ open_files (snd (UploadVideo (Msg name_c chunk_c :: [RecvErr "reset"]) None
                          world_with_video)).
Proof.
  assert (H1 : fst (os.Create (save_path (stream_video_id name_c)) world_with_video)
               <> None) by (vm_compute; discriminate).
  assert (H2 : fst (UploadVideo (Msg name_c chunk_c :: [RecvErr "reset"]) None
                      world_with_video)
               = Returns (Status Unknown "Stream error: reset"))
    by (vm_compute; reflexivity).
  assert (H3 : Unknown = Unknown \/ Unknown = Internal) by (left; reflexivity).
  split; [exact H1|]. split; [exact H2|]. split; [exact H3|].
  exact (aborted_upload_leaves_partial_file name_c chunk_c [RecvErr "reset"]
           world_with_video Unknown "Stream error: reset" H1 H2 H3).
Defined.

(** A write that does not fit: of the two bytes of the chunk one is stored,
    and the status carries the error of the write. *)
Lemma write_error_leaves_the_bytes_that_fit :
  UploadVideo (Msg "c.mp4" chunk_c :: []) None world_small
  = (Returns (Status Internal
                "Write error: write uploads/video_c.mp4: no space left on device"),
     snd (UploadVideo (Msg "c.mp4" chunk_c :: []) None world_small))
  /\ fs (snd (UploadVideo (Msg "c.mp4" chunk_c :: []) None world_small))
       !! "uploads/video_c.mp4" = Some (Regular [x44]).
Proof. vm_compute. split; reflexivity. Qed.

Lemma rejected_upload_deletes_earlier_video_witness :
  fs world_queue_full !! save_path (stream_video_id "a.mp4")
  = Some (Regular [x41; x42; x43])
  /\ fst (os.Create (save_path (stream_video_id "a.mp4")) world_queue_full) <> None
  /\ (length (payload (("a.mp4"%string, chunk_c) :: [])) <= free world_queue_full)%nat
  /\ closed (JobQueue (pool world_queue_full)) = false
  /\ 1 <= cap (JobQueue (pool world_queue_full))
  /\ cap (JobQueue (pool world_queue_full)) <= server.queue_len (pool world_queue_full)
  /\ fst (UploadVideo (messages (("a.mp4"%string, chunk_c) :: [])) None world_queue_full)
     = Returns (Status ResourceExhausted "Server busy, queue full")
  /\ fs (snd (UploadVideo (messages (("a.mp4"%string, chunk_c) :: [])) None
                world_queue_full))
       !! save_path (stream_video_id "a.mp4") = None
  /\ pool (snd (UploadVideo (messages (("a.mp4"%string, chunk_c) :: [])) None
                  world_queue_full))
     = pool world_queue_full.
Proof.
  assert (H1 : fs world_queue_full !! save_path (stream_video_id "a.mp4")
               = Some (Regular [x41; x42; x43])) by (vm_compute; reflexivity).
  assert (Hc : fst (os.Create (save_path (stream_video_id "a.mp4")) world_queue_full)
               <> None) by (vm_compute; discriminate).
  assert (H2 : (length (payload (("a.mp4"%string, chunk_c) :: []))
                <= free world_queue_full)%nat) by (vm_compute; lia).
  assert (H3 : closed (JobQueue (pool world_queue_full)) = false) by reflexivity.
  assert (Hq : 1 <= cap (JobQueue (pool world_queue_full)))
    by (vm_compute; discriminate).
  assert (H4 : cap (JobQueue (pool world_queue_full))
               <= server.queue_len (pool world_queue_full))
    by (vm_compute; discriminate).
  split; [exact H1|]. split; [exact Hc|]. split; [exact H2|]. split; [exact H3|].
  split; [exact Hq|]. split; [exact H4|].
  exact (rejected_upload_deletes_earlier_video "a.mp4" chunk_c [] None world_queue_full
           [x41; x42; x43] H1 Hc H2 H3 Hq H4).
Defined.

Lemma web_upload_stores_the_part_witness :
  Method post_c = "POST"%string
  /\ FormFile_video post_c = Some ("c.mp4"%string, chunk_c)
  /\ fst (os.Create (save_path (web_video_id "c.mp4")) world_with_video) <> None
  /\ (length chunk_c <= free world_with_video)%nat
  /\ closed (JobQueue (pool world_with_video)) = false
  /\ server.queue_len (pool world_with_video) < cap (JobQueue (pool world_with_video))
  /\ fst (handleWebUpload post_c world_with_video)
     = Returns {| StatusCode := StatusOK; Body := Text "Upload successful" |}
  /\ fs (snd (handleWebUpload post_c world_with_video)) !! save_path (web_video_id "c.mp4")
     = Some (Regular chunk_c).
Proof.
  assert (H1 : Method post_c = "POST"%string) by reflexivity.
  assert (H2 : FormFile_video post_c = Some ("c.mp4"%string, chunk_c)) by reflexivity.
  assert (H3 : fst (os.Create (save_path (web_video_id "c.mp4")) world_with_video)
               <> None) by (vm_compute; discriminate).
  assert (H5 : (length chunk_c <= free world_with_video)%nat) by (vm_compute; lia).
  assert (H6 : closed (JobQueue (pool world_with_video)) = false) by reflexivity.
  assert (H7 : server.queue_len (pool world_with_video)
               < cap (JobQueue (pool world_with_video))) by (vm_compute; reflexivity).
  split; [exact H1|]. split; [exact H2|]. split; [exact H3|].
  split; [exact H5|]. split; [exact H6|]. split; [exact H7|].
  destruct (web_upload_stores_the_part post_c "c.mp4" chunk_c world_with_video
              H1 H2 H3 H5 H6 H7) as (R1 & R2 & _).
  split; [exact R1 | exact R2].
Defined.

Lemma web_upload_copy_failure_leaves_file_witness :
  Method post_c = "POST"%string
  /\ FormFile_video post_c = Some ("c.mp4"%string, chunk_c)
  /\ fs world_small !! save_path (web_video_id "c.mp4") = None
  /\ fst (os.Create (save_path (web_video_id "c.mp4")) world_small) <> None
  /\ (free world_small < length chunk_c)%nat
  /\ fst (handleWebUpload post_c world_small)
     = Returns (http_Error "Failed to save file" StatusInternalServerError)
  /\ fs (snd (handleWebUpload post_c world_small)) !! save_path (web_video_id "c.mp4")
     = Some (Regular (take (free world_small) chunk_c))
  /\ take (free world_small) chunk_c = [x44].
Proof.
  assert (H1 : Method post_c = "POST"%string) by reflexivity.
  assert (H2 : FormFile_video post_c = Some ("c.mp4"%string, chunk_c)) by reflexivity.
  assert (H3 : fs world_small !! save_path (web_video_id "c.mp4") = None)
    by (vm_compute; reflexivity).
  assert (H4 : fst (os.Create (save_path (web_video_id "c.mp4")) world_small) <> None)
    by (vm_compute; discriminate).
  assert (H5 : (free world_small < length chunk_c)%nat) by (vm_compute; lia).
  split; [exact H1|]. split; [exact H2|]. split; [exact H3|]. split; [exact H4|].
  split; [exact H5|].
  destruct (web_upload_copy_failure_leaves_file post_c "c.mp4" chunk_c world_small
              H1 H2 H3 H4 H5) as (R1 & R2 & _).
  split; [exact R1|]. split; [exact R2 | reflexivity].
Defined.

Lemma listing_is_the_mp4_files_of_uploads_witness :
  fs world_with_video !! uploads = Some Directory
  /\ exists names,
       handleListVideos world_with_video =
         {| StatusCode := StatusOK;
            Body := JSON match names with [] => JNull | _ => JArray names end |}
       /\ (forall name,
             In name names
             <-> has_separator name = false
                 /\ HasSuffix name ".mp4" = true
                 /\ exists content,
                      fs world_with_video !! ("uploads/" +:+ name) = Some (Regular content))
       /\ StronglySorted (fun a b => String.leb a b = true) names
       /\ NoDup names.
Proof.
  assert (H : fs world_with_video !! uploads = Some Directory) by (vm_compute; reflexivity).
  split; [exact H|].
  exact (listing_is_the_mp4_files_of_uploads world_with_video H).
Defined.

Lemma stored_upload_is_listed_witness :
  fs world_with_video !! uploads = Some Directory
  /\ HasSuffix (stream_video_id name_c) ".mp4" = true
  /\ fst (os.Create (save_path (stream_video_id name_c)) world_with_video) <> None
  /\ (length (payload ((name_c, chunk_c) :: more_c)) <= free world_with_video)%nat
  /\ closed (JobQueue (pool world_with_video)) = false
  /\ server.queue_len (pool world_with_video) < cap (JobQueue (pool world_with_video))
  /\ exists before after,
       handleListVideos world_with_video =
         {| StatusCode := StatusOK;
            Body := JSON match before with [] => JNull | _ => JArray before end |}
       /\ handleListVideos
            (snd (UploadVideo (messages ((name_c, chunk_c) :: more_c)) None
                    world_with_video))
          = {| StatusCode := StatusOK; Body := JSON (JArray after) |}
       /\ (forall name, In name after <-> name = stream_video_id name_c \/ In name before).
Proof.
  assert (H0 : fs world_with_video !! uploads = Some Directory) by (vm_compute; reflexivity).
  assert (Hs : HasSuffix (stream_video_id name_c) ".mp4" = true)
    by (vm_compute; reflexivity).
  assert (H1 : fst (os.Create (save_path (stream_video_id name_c)) world_with_video)
               <> None) by (vm_compute; discriminate).
  assert (H3 : (length (payload ((name_c, chunk_c) :: more_c)) <= free world_with_video)%nat)
    by (vm_compute; lia).
  assert (H4 : closed (JobQueue (pool world_with_video)) = false) by reflexivity.
  assert (H5 : server.queue_len (pool world_with_video)
               < cap (JobQueue (pool world_with_video))) by (vm_compute; reflexivity).
  split; [exact H0|]. split; [exact Hs|]. split; [exact H1|]. split; [exact H3|].
  split; [exact H4|]. split; [exact H5|].
  exact (stored_upload_is_listed name_c chunk_c more_c None world_with_video
           H0 Hs H1 H3 H4 H5).
Defined.

(** The file of a client, read in two steps. *)
Definition file_c : list byte := [x44; x45; x46].
Definition short_reads : list read_step := [ReadAtMost 2].

Lemma client_file_reaches_the_store_witness :
  file_c <> []
  /\ Forall (fun s => s <> ReadFails) short_reads
  /\ fst (os.Create (save_path (stream_video_id "data/c.mp4")) world_with_video) <> None
  /\ (length file_c <= free world_with_video)%nat
  /\ closed (JobQueue (pool world_with_video)) = false
  /\ server.queue_len (pool world_with_video) < cap (JobQueue (pool world_with_video))
  /\ exists r,
       uploadFile (mkEnv (Some file_c) true short_reads [] None) "data/c.mp4" = Some r
       /\ ended r = UploadFailed
       /\ fst (UploadVideo (messages (sent r)) None world_with_video)
          = Returns (UploadStatus "Upload successful" true (stream_video_id "data/c.mp4"))
       /\ fs (snd (UploadVideo (messages (sent r)) None world_with_video))
            !! save_path (stream_video_id "data/c.mp4") = Some (Regular file_c)
       /\ pool (snd (UploadVideo (messages (sent r)) None world_with_video))
          = server.enqueued
              (mkJob (save_path (stream_video_id "data/c.mp4"))
                 (stream_video_id "data/c.mp4"))
              (pool world_with_video).
Proof.
  assert (H1 : file_c <> []) by discriminate.
  assert (H2 : Forall (fun s => s <> ReadFails) short_reads)
    by (constructor; [discriminate | constructor]).
  assert (H3 : fst (os.Create (save_path (stream_video_id "data/c.mp4")) world_with_video)
               <> None) by (vm_compute; discriminate).
  assert (H5 : (length file_c <= free world_with_video)%nat) by (vm_compute; lia).
  assert (H6 : closed (JobQueue (pool world_with_video)) = false) by reflexivity.
  assert (H7 : server.queue_len (pool world_with_video)
               < cap (JobQueue (pool world_with_video))) by (vm_compute; reflexivity).
  split; [exact H1|]. split; [exact H2|]. split; [exact H3|].
  split; [exact H5|]. split; [exact H6|]. split; [exact H7|].
  exact (client_file_reaches_the_store "data/c.mp4" file_c short_reads None
           world_with_video H1 H2 H3 H5 H6 H7).
Defined.

(** The run of the client on [file_c] with a first read of two bytes: two
    chunks, of two bytes and of one. *)
Lemma uploadFile_short_read :
  uploadFile (mkEnv (Some file_c) true short_reads [] (Some ("ok", "video_c.mp4")%string))
    "data/c.mp4"
  = Some (mkRun [("c.mp4"%string, [x44; x45]); ("c.mp4"%string, [x46])]
            (UploadSuccess "ok" "video_c.mp4")
            [(Info, "Starting Upload"%string); (Info, "Upload Success"%string)]).
Proof. vm_compute. reflexivity. Qed.

Lemma empty_file_upload_faults_the_server_witness :
  head ([] : list read_step) <> Some ReadFails
  /\ exists r,
       uploadFile (mkEnv (Some []) true [] [] None) "data/e.mp4" = Some r
       /\ sent r = []
       /\ ended r = UploadFailed
       /\ UploadVideo (messages (sent r)) None world_with_video
          = (Panics NilDereference, world_with_video).
Proof.
  assert (H : head ([] : list read_step) <> Some ReadFails) by discriminate.
  split; [exact H|].
  exact (empty_file_upload_faults_the_server "data/e.mp4" [] [] None None
           world_with_video H).
Defined.


Lemma uploads_as_a_file_disables_the_server_witness :
  fs world_uploads_file !! uploads = Some (Regular [])
  /\ startup 2 3 world_uploads_file = Ok world_uploads_file_started
  /\ fs world_uploads_file !! save_path (stream_video_id "a.mp4") = None
  /\ handleListVideos world_uploads_file_started
     = http_Error "Failed to read uploads" StatusInternalServerError
  /\ fst (UploadVideo (Msg "a.mp4" chunk_c :: []) None world_uploads_file_started)
     = Returns (Status Internal
                  ("Failed to create file: "
                   +:+ os.Create_error (save_path (stream_video_id "a.mp4"))
                         world_uploads_file_started))
  /\ (os.has_NUL (save_path (stream_video_id "a.mp4")) = false ->
      (String.length (save_path (stream_video_id "a.mp4")) < os.PATH_MAX)%nat ->
      os.Create_error (save_path (stream_video_id "a.mp4")) world_uploads_file_started
      = os.PathError "open" (save_path (stream_video_id "a.mp4")) os.ENOTDIR)
  /\ pool (snd (UploadVideo (Msg "a.mp4" chunk_c :: []) None world_uploads_file_started))
     = pool world_uploads_file_started
  /\ fs (snd (UploadVideo (Msg "a.mp4" chunk_c :: []) None world_uploads_file_started))
     = fs world_uploads_file_started.
Proof.
  assert (H1 : fs world_uploads_file !! uploads = Some (Regular []))
    by (vm_compute; reflexivity).
  assert (H2 : startup 2 3 world_uploads_file = Ok world_uploads_file_started)
    by (vm_compute; reflexivity).
  assert (H3 : fs world_uploads_file !! save_path (stream_video_id "a.mp4") = None)
    by (vm_compute; reflexivity).
  split; [exact H1|]. split; [exact H2|]. split; [exact H3|].
  exact (uploads_as_a_file_disables_the_server 2 3 world_uploads_file
           world_uploads_file_started [] "a.mp4" chunk_c [] None H1 H2 H3).
Defined.

(** The status a client gets when [uploads] is a regular file. *)
Lemma uploads_as_a_file_status :
  fst (UploadVideo (Msg "a.mp4" chunk_c :: []) None world_uploads_file_started)
  = Returns (Status Internal
               "Failed to create file: open uploads/video_a.mp4: not a directory").
Proof. vm_compute. reflexivity. Qed.

End MoreRuns.
